(** * Bandwidth monitor: simulation and bar-chart layout

    A shallow embedding of [src/main.cpp]: the [Connection] and
    [BandwidthMonitor] classes and [main].

    - C++ [float] is IEEE-754 binary32.  It is modelled with the Standard
      Library's [spec_float] at precision 24 and maximal exponent 128, so that
      every arithmetic operation below rounds exactly as the hardware does
      (round to nearest, ties to even; NaN and the infinities included).
    - [int] and [size_t] are [Z]; the one [size_t] product of the code,
      [i * 2], has its wrap-around modulo 2^64 written out.
    - The SFML window is a record: an open flag, the list of shapes drawn
      since the last [clear], and the frame last presented by [display].
    - [std::uniform_real_distribution] over the function-local static
      [std::mt19937] is an interface ([UniformReal]) whose state is threaded
      through every call.
    - Exceptions are a sum type; the event loop takes fuel and the batches
      of events that [pollEvent] hands out at each iteration.

    The properties are proved on this model, rounding included.  Facts about
    the order of binary32 values come first, then the loops of the program,
    then what is needed of [binary_round_aux]: a rounding never crosses a
    representable number, and in the normal range it is within one unit in
    the last place.  Bounds on the bar positions are obtained by reading
    binary32 values as rationals ([B2Q]). *)

From Stdlib Require Import ZArith List Bool String Ascii Lia.
From Stdlib Require Import Floats.SpecFloat.
From Stdlib Require Import Numbers.DecimalString.
From Stdlib Require Numbers.DecimalZ.
From Stdlib Require Import QArith Qpower Lqa.
Import ListNotations.

Local Open Scope Z_scope.

(** ** binary32 *)

Module F32.

Definition prec : Z := 24.
Definition emax : Z := 128.

Definition t : Type := spec_float.

Definition add : t -> t -> t := SFadd prec emax.
Definition sub : t -> t -> t := SFsub prec emax.
Definition mul : t -> t -> t := SFmul prec emax.
Definition div : t -> t -> t := SFdiv prec emax.

(** [a < b], [a <= b], [a > b] of C++: false as soon as a NaN is involved. *)
Definition ltb : t -> t -> bool := SFltb.
Definition leb : t -> t -> bool := SFleb.
Definition gtb (a b : t) : bool := SFltb b a.

(** The values a binary32 register can hold. *)
Definition valid : t -> bool := valid_binary prec emax.

(** Integer to [float] conversion (round to nearest even). *)
Definition of_Z (z : Z) : t := binary_normalize prec emax z 0 false.

Definition zero : t := S754_zero false.

Definition is_nan (x : t) : bool :=
  match x with S754_nan => true | _ => false end.

Definition is_inf (x : t) : bool :=
  match x with S754_infinity _ => true | _ => false end.

Definition is_finite (x : t) : bool :=
  match x with S754_zero _ | S754_finite _ _ _ => true | _ => false end.

(** Truncation toward zero of a finite value. *)
Definition trunc (x : t) : option Z :=
  match x with
  | S754_zero _ => Some 0
  | S754_finite s m e =>
      Some (cond_Zopp s
              (match e with
               | Zneg p => Z.shiftr (Zpos m) (Zpos p)
               | _ => Z.shiftl (Zpos m) e
               end))
  | _ => None
  end.

End F32.

Abbreviation float := F32.t.

(** ** Machine integers *)

Definition INT_MIN : Z := - 2 ^ 31.
Definition INT_MAX : Z := 2 ^ 31 - 1.
Definition SIZE_MOD : Z := 2 ^ 64.

(** [static_cast<int>(f)].  The C++ standard leaves the conversion undefined
    when the truncated value does not fit an [int] (or [f] is a NaN); x86-64
    ([cvttss2si]) then yields the "integer indefinite" value, [INT_MIN]. *)
Definition static_cast_int (f : float) : Z :=
  match F32.trunc f with
  | Some z => if (INT_MIN <=? z) && (z <=? INT_MAX) then z else INT_MIN
  | None => INT_MIN
  end.

(** [std::to_string] on an integer. *)
Definition to_string (z : Z) : string := NilZero.string_of_int (Z.to_int z).

(** ** class Connection *)

Record Connection : Type := mkConnection
  { id : string;
    transferRate : float }.

(** [Connection(const std::string& id_) : id(id_), transferRate(0.0f)] *)
Definition Connection_new (id_ : string) : Connection :=
  {| id := id_; transferRate := F32.zero |}.

Definition getRate (c : Connection) : float := transferRate c.
Definition getId (c : Connection) : string := id c.

(** The random source behind [simulateTransfer]:
    [std::uniform_real_distribution<float> dist(a, b); dist(gen)]
    on a generator whose state is [G]. *)
Class UniformReal (G : Type) : Type :=
  uniform_real : float -> float -> G -> float * G.

(** What the C++ standard library promises for the distribution: with
    binary32 bounds [a < b] the draw is a binary32 value between the two.  (The
    standard says [a <= x < b]; implementations that compute
    [a + u * (b - a)] in single precision can round up to [b], so only the
    closed interval is assumed.) *)
Class UniformRealSpec (G : Type) `{UniformReal G} : Prop :=
  uniform_real_range :
    forall (a b : float) (g : G),
      F32.valid a = true -> F32.valid b = true -> F32.ltb a b = true ->
      F32.valid (fst (uniform_real a b g)) = true /\
      F32.leb a (fst (uniform_real a b g)) = true /\
      F32.leb (fst (uniform_real a b g)) b = true.

Section ConnectionSim.
Context {G : Type} `{UniformReal G}.

(** [void simulateTransfer(float minRate, float maxRate)] *)
Definition simulateTransfer (minRate maxRate : float) (c : Connection) (gen : G)
  : Connection * G :=
  let (r, gen') := uniform_real minRate maxRate gen in
  ({| id := id c; transferRate := r |}, gen').

End ConnectionSim.

(** ** SFML collaborators *)

Inductive Color : Type := Black | Green | White.

Record RectangleShape : Type := mkRect
  { rect_size : float * float;
    rect_position : float * float;
    rect_fill : Color }.

Record Text : Type := mkText
  { text_string : string;
    text_size : Z;
    text_position : float * float;
    text_fill : Color }.

Inductive Drawable : Type :=
  | DrawRect (r : RectangleShape)
  | DrawText (t : Text).

Inductive Event : Type := Closed | OtherEvent.

Record RenderWindow : Type := mkWindow
  { isOpen : bool;
    clearColor : Color;
    backBuffer : list Drawable;   (* drawn since the last clear, oldest first *)
    frontBuffer : list Drawable   (* what display() last presented *) }.

Definition window_create : RenderWindow :=
  {| isOpen := true; clearColor := Black; backBuffer := []; frontBuffer := [] |}.

Definition window_close (w : RenderWindow) : RenderWindow :=
  {| isOpen := false; clearColor := clearColor w;
     backBuffer := backBuffer w; frontBuffer := frontBuffer w |}.

Definition window_clear (c : Color) (w : RenderWindow) : RenderWindow :=
  {| isOpen := isOpen w; clearColor := c;
     backBuffer := []; frontBuffer := frontBuffer w |}.

Definition window_draw (d : Drawable) (w : RenderWindow) : RenderWindow :=
  {| isOpen := isOpen w; clearColor := clearColor w;
     backBuffer := backBuffer w ++ [d]; frontBuffer := frontBuffer w |}.

Definition window_display (w : RenderWindow) : RenderWindow :=
  {| isOpen := isOpen w; clearColor := clearColor w;
     backBuffer := backBuffer w; frontBuffer := backBuffer w |}.

(** ** class BandwidthMonitor *)

Definition width : Z := 1600.
Definition height : Z := 1200.
Definition minRate : float := F32.of_Z 1000.
Definition maxRate : float := F32.of_Z 5000.

Record BandwidthMonitor : Type := mkMonitor
  { connections : list Connection;
    window : RenderWindow }.

Inductive exception : Type :=
  | runtime_error (what : string).

(** The constructor's loop
    [for (int i = 0; i < numConnections; ++i)
       connections.emplace_back("Conn-" + std::to_string(i + 1));]
    with [k] iterations left to run. *)
Fixpoint make_connections (i : Z) (k : nat) : list Connection :=
  match k with
  | O => []
  | S k' => Connection_new ("Conn-" ++ to_string (i + 1)) :: make_connections (i + 1) k'
  end.

(** [BandwidthMonitor(int numConnections)]; [font_loaded] is the result of
    [font.loadFromFile(...)]. *)
Definition BandwidthMonitor_new (font_loaded : bool) (numConnections : Z)
  : exception + BandwidthMonitor :=
  let conns := make_connections 0 (Z.to_nat numConnections) in
  if negb font_loaded
  then inl (runtime_error "Font file not found.")
  else inr {| connections := conns; window := window_create |}.

(** [handleEvents]: drain the pending events, closing the window on [Closed]. *)
Fixpoint handleEvents_loop (pending : list Event) (w : RenderWindow) : RenderWindow :=
  match pending with
  | [] => w
  | Closed :: rest => handleEvents_loop rest (window_close w)
  | OtherEvent :: rest => handleEvents_loop rest w
  end.

Definition handleEvents (pending : list Event) (m : BandwidthMonitor) : BandwidthMonitor :=
  {| connections := connections m;
     window := handleEvents_loop pending (window m) |}.

Section Simulate.
Context {G : Type} `{UniformReal G}.

(** [for (auto& conn : connections) conn.simulateTransfer(minRate, maxRate);] *)
Fixpoint simulateAll_loop (conns : list Connection) (gen : G)
  : list Connection * G :=
  match conns with
  | [] => ([], gen)
  | conn :: rest =>
      let (conn', gen1) := simulateTransfer minRate maxRate conn gen in
      let (rest', gen2) := simulateAll_loop rest gen1 in
      (conn' :: rest', gen2)
  end.

Definition simulateAll (m : BandwidthMonitor) (gen : G) : BandwidthMonitor * G :=
  let (conns', gen') := simulateAll_loop (connections m) gen in
  ({| connections := conns'; window := window m |}, gen').

End Simulate.

(** The first loop of [drawAll]:
    [float maxTransfer = 0.0f;
     for (const auto& conn : connections)
       if (conn.getRate() > maxTransfer) maxTransfer = conn.getRate();] *)
Definition maxTransfer_from (acc : float) (conns : list Connection) : float :=
  fold_left (fun mx conn => if F32.gtb (getRate conn) mx then getRate conn else mx)
            conns acc.

Definition maxTransfer (conns : list Connection) : float :=
  maxTransfer_from F32.zero conns.

(** [float barWidth = width / (connections.size() * 2.0f);] *)
Definition barWidth_of (n : Z) : float :=
  F32.div (F32.of_Z width) (F32.mul (F32.of_Z n) (F32.of_Z 2)).

(** The locals of one iteration of the drawing loop. *)
Record BarGeometry : Type := mkGeom
  { g_width : float;
    g_height : float;
    g_x : float;
    g_y : float }.

Definition barGeometry (maxT barWidth : float) (i : Z) (conn : Connection) : BarGeometry :=
  let heightRatio := F32.div (getRate conn) maxT in
  let barHeight := F32.mul heightRatio (F32.of_Z (height - 100)) in
  let x := F32.add (F32.mul (F32.of_Z ((i * 2) mod SIZE_MOD)) barWidth)
                   (F32.div barWidth (F32.of_Z 2)) in
  let y := F32.sub (F32.of_Z height) barHeight in
  {| g_width := barWidth; g_height := barHeight; g_x := x; g_y := y |}.

Definition bar_of (g : BarGeometry) : RectangleShape :=
  {| rect_size := (g_width g, g_height g);
     rect_position := (g_x g, g_y g);
     rect_fill := Green |}.

Definition label_of (g : BarGeometry) (conn : Connection) : Text :=
  {| text_string :=
       getId conn ++ ": " ++ to_string (static_cast_int (getRate conn)) ++ " B/s";
     text_size := 14;
     text_position := (g_x g, F32.sub (g_y g) (F32.of_Z 20));
     text_fill := White |}.

(** [for (size_t i = 0; i < connections.size(); ++i) { ... }], entered at
    index [i] with [conns] the connections from [i] on. *)
Fixpoint drawBars (maxT barWidth : float) (i : Z) (conns : list Connection)
         (w : RenderWindow) : RenderWindow :=
  match conns with
  | [] => w
  | conn :: rest =>
      let g := barGeometry maxT barWidth i conn in
      let w1 := window_draw (DrawRect (bar_of g)) w in
      let w2 := window_draw (DrawText (label_of g conn)) w1 in
      drawBars maxT barWidth (i + 1) rest w2
  end.

Definition drawAll (m : BandwidthMonitor) : BandwidthMonitor :=
  let w0 := window_clear Black (window m) in
  let maxT := maxTransfer (connections m) in
  let barWidth := barWidth_of (Z.of_nat (List.length (connections m))) in
  let w1 := drawBars maxT barWidth 0 (connections m) w0 in
  {| connections := connections m; window := window_display w1 |}.

(** The geometry of the bars in a presented frame, in drawing order. *)
Definition frame_bars (frame : list Drawable) : list RectangleShape :=
  flat_map (fun d => match d with DrawRect r => [r] | DrawText _ => [] end) frame.

Definition frame_labels (frame : list Drawable) : list Text :=
  flat_map (fun d => match d with DrawText t => [t] | DrawRect _ => [] end) frame.

Section Run.
Context {G : Type} `{UniformReal G}.

(** One iteration of the body of [run]; [pending] is what [pollEvent]
    hands out during this iteration.  The one-second sleep changes no
    program state. *)
Definition run_body (pending : list Event) (m : BandwidthMonitor) (gen : G)
  : BandwidthMonitor * G :=
  let m1 := handleEvents pending m in
  let (m2, gen') := simulateAll m1 gen in
  (drawAll m2, gen').

(** [while (window.isOpen()) { ... }] against the stream of event batches
    [events]; [None] when the fuel is spent before the window closes. *)
Fixpoint run (fuel : nat) (events : nat -> list Event) (k : nat)
         (m : BandwidthMonitor) (gen : G) : option (BandwidthMonitor * G) :=
  if isOpen (window m) then
    match fuel with
    | O => None
    | S fuel' =>
        let (m', gen') := run_body (events k) m gen in
        run fuel' events (S k) m' gen'
    end
  else Some (m, gen).

(** What the process leaves behind. *)
Record Outcome : Type := mkOutcome
  { exit_code : Z;
    cerr : list string }.

(** [int main()] *)
Definition main (fuel : nat) (font_loaded : bool) (events : nat -> list Event)
           (gen : G) : option Outcome :=
  match BandwidthMonitor_new font_loaded 5 with
  | inl (runtime_error what) =>
      Some {| exit_code := 1; cerr := [("Error: " ++ what)%string] |}
  | inr monitor =>
      match run fuel events 0 monitor gen with
      | Some _ => Some {| exit_code := 0; cerr := [] |}
      | None => None
      end
  end.

End Run.


(** ** Derived views used to state the properties *)

(** The geometry computed by the iterations of the drawing loop from index
    [i] on, without the drawing. *)
Fixpoint geometries (maxT barWidth : float) (i : Z) (conns : list Connection)
  : list BarGeometry :=
  match conns with
  | [] => []
  | conn :: rest =>
      barGeometry maxT barWidth i conn :: geometries maxT barWidth (i + 1) rest
  end.

(** The layout of a snapshot: what [drawAll] computes before drawing. *)
Definition layout (conns : list Connection) : list BarGeometry :=
  geometries (maxTransfer conns)
             (barWidth_of (Z.of_nat (List.length conns))) 0 conns.

(** What [drawAll] hands to the window for a snapshot. *)
Fixpoint drawables (gs : list BarGeometry) (conns : list Connection) : list Drawable :=
  match gs, conns with
  | g :: gs', conn :: conns' =>
      DrawRect (bar_of g) :: DrawText (label_of g conn) :: drawables gs' conns'
  | _, _ => []
  end.

(** A rate between the two bounds of the simulation. *)
Definition in_range (r : float) : Prop :=
  F32.leb minRate r = true /\ F32.leb r maxRate = true.

(** A positive finite value. *)
Definition pos_finite (x : float) : bool :=
  match x with S754_finite false _ _ => true | _ => false end.

(** The x position computed by the drawing loop for the integer factor
    [k = i * 2]. *)
Definition bar_x (barWidth : float) (k : Z) : float :=
  F32.add (F32.mul (F32.of_Z k) barWidth) (F32.div barWidth (F32.of_Z 2)).

(** Snapshots used as examples: [n] channels all at 3000 B/s, and three
    channels at the two bounds and in between. *)
Definition snapshot_3000 (n : nat) : list Connection :=
  map (fun c => {| id := id c; transferRate := F32.of_Z 3000 |})
      (make_connections 0 n).

Definition snapshot_mixed : list Connection :=
  [ {| id := "Conn-1"; transferRate := F32.of_Z 1000 |};
    {| id := "Conn-2"; transferRate := F32.of_Z 3333 |};
    {| id := "Conn-3"; transferRate := F32.of_Z 5000 |} ].

Section Ticks.
Context {G : Type} `{UniformReal G}.

(** [n] consecutive iterations of the loop body of [run], starting with
    the [k]-th batch of events. *)
Fixpoint ticks (n : nat) (events : nat -> list Event) (k : nat)
         (m : BandwidthMonitor) (gen : G) : BandwidthMonitor * G :=
  match n with
  | O => (m, gen)
  | S n' =>
      let (m', gen') := run_body (events k) m gen in
      ticks n' events (S k) m' gen'
  end.

End Ticks.

(** A two-state generator that hands out the lower bound, then the upper
    bound, and so on: the smallest source that meets [UniformRealSpec]. *)
Inductive Coin : Type := Heads | Tails.

#[export] Instance Coin_uniform : UniformReal Coin :=
  fun a b g => match g with Heads => (a, Tails) | Tails => (b, Heads) end.

(** The order position of a non-NaN value: a sign class, then the exponent
    and the mantissa, negated for negative values. *)
Definition rank (x : float) : Z * Z * Z :=
  match x with
  | S754_nan => (0, 0, 0)
  | S754_infinity true => (-2, 0, 0)
  | S754_finite true m e => (-1, - e, - Zpos m)
  | S754_zero _ => (0, 0, 0)
  | S754_finite false m e => (1, e, Zpos m)
  | S754_infinity false => (2, 0, 0)
  end.

Definition lex_le (a b : Z * Z * Z) : Prop :=
  let '(a1, a2, a3) := a in
  let '(b1, b2, b3) := b in
  a1 < b1 \/ (a1 = b1 /\ (a2 < b2 \/ (a2 = b2 /\ a3 <= b3))).

(** The values the accumulator of the maximum loop can take: it starts at
    [+0] and is only ever replaced by something greater. *)
Definition nonneg_class (x : float) : bool :=
  match x with
  | S754_zero false | S754_finite false _ _ | S754_infinity false => true
  | _ => false
  end.

(** ** Vocabulary of the rounding proofs *)

(** A mantissa and exponent in the form the format stores them. *)
Definition canonical (prec emax m e : Z) : Prop :=
  fexp prec emax (Zdigits2 m + e) = e.

(** No bit has been shifted out so far. *)
Definition exact_rec (mrs : shr_record) : bool :=
  negb (shr_r mrs || shr_s mrs).

Definition shr_rel (k : Z) (mrs mrs' : shr_record) : Prop :=
  0 <= shr_m mrs' /\
  shr_m mrs' = shr_m mrs / 2 ^ k /\
  (exact_rec mrs = true -> (2 ^ k | shr_m mrs) -> exact_rec mrs' = true).

(** [x] is the positive normal number with mantissa [m] and exponent [e]. *)
Definition normal_pos (prec emax : Z) (x : float) (m : positive) (e : Z) : Prop :=
  x = S754_finite false m e /\
  canonical prec emax (Zpos m) e /\
  Zdigits2 (Zpos m) = prec.

(** The rational number a binary32 value stands for (0 for NaN and the
    infinities). *)
Definition B2Q (x : float) : Q :=
  match x with
  | S754_finite s m e => inject_Z (cond_Zopp s (Zpos m)) * 2 ^ e
  | _ => 0
  end.

(** The relative spacing of binary32 numbers, 2^-23. *)
Definition u32 : Q := 1 # 8388608.

(** Where the rational [t] lies from the integer [m] on, as a [location]
    records it: on [m], below, on or above the midpoint to [m + 1]. *)
Definition inbetween (t : Q) (m : Z) (l : location) : Prop :=
  match l with
  | loc_Exact => (t == inject_Z m)%Q
  | loc_Inexact Lt => (inject_Z m < t /\ t < inject_Z m + (1 # 2))%Q
  | loc_Inexact Eq => (t == inject_Z m + (1 # 2))%Q
  | loc_Inexact Gt => (inject_Z m + (1 # 2) < t /\ t < inject_Z m + 1)%Q
  end.

(** [m] is an integer nearest to [t], the even one when there are two. *)
Definition nearest_even (t : Q) (m : Z) : Prop :=
  (inject_Z m - (1 # 2) <= t /\ t <= inject_Z m + (1 # 2))%Q /\
  ((t == inject_Z m - (1 # 2) \/ t == inject_Z m + (1 # 2))%Q -> Z.even m = true).

(** Whether a batch of pending events holds a [Closed] one. *)
Definition has_closed (pending : list Event) : bool :=
  existsb (fun e => match e with Closed => true | OtherEvent => false end) pending.

Section Draws.
Context {G : Type} `{UniformReal G}.

(** [n] successive draws of [dist(gen)] between [minRate] and [maxRate], and
    the generator they leave behind. *)
Fixpoint draws (n : nat) (gen : G) : list float * G :=
  match n with
  | O => ([], gen)
  | S n' =>
      let (r, gen1) := uniform_real minRate maxRate gen in
      let (rs, gen2) := draws n' gen1 in
      (r :: rs, gen2)
  end.

End Draws.

(** * Properties *)

(** ** The comparison of binary32 values *)

Lemma compare_cont_Eq_refl (p : positive) : Pos.compare_cont Eq p p = Eq.
Proof. exact (Pos.compare_refl p). Qed.

Lemma SFcompare_refl (x : float) :
  F32.is_nan x = false -> SFcompare x x = Some Eq.
Proof.
  destruct x as [s|s| |s m e]; simpl; try discriminate; intros _.
  - reflexivity.
  - destruct s; reflexivity.
  - rewrite Z.compare_refl, compare_cont_Eq_refl. destruct s; reflexivity.
Qed.

Lemma leb_refl (x : float) : F32.is_nan x = false -> F32.leb x x = true.
Proof.
  intros Hx. unfold F32.leb, SFleb. now rewrite SFcompare_refl.
Qed.

Lemma ltb_leb (a b : float) : F32.ltb a b = true -> F32.leb a b = true.
Proof.
  unfold F32.ltb, F32.leb, SFltb, SFleb.
  destruct (SFcompare a b) as [[]|]; congruence.
Qed.

Lemma ltb_not_nan_l (a b : float) : F32.ltb a b = true -> F32.is_nan a = false.
Proof. destruct a, b; simpl; try reflexivity; discriminate. Qed.

Lemma ltb_not_nan_r (a b : float) : F32.ltb a b = true -> F32.is_nan b = false.
Proof. destruct a, b; simpl; try reflexivity; discriminate. Qed.

Lemma leb_not_nan_l (a b : float) : F32.leb a b = true -> F32.is_nan a = false.
Proof. destruct a, b; simpl; try reflexivity; discriminate. Qed.

Lemma leb_not_nan_r (a b : float) : F32.leb a b = true -> F32.is_nan b = false.
Proof. destruct a, b; simpl; try reflexivity; discriminate. Qed.

Lemma lex_le_trans (a b c : Z * Z * Z) : lex_le a b -> lex_le b c -> lex_le a c.
Proof.
  destruct a as [[a1 a2] a3], b as [[b1 b2] b3], c as [[c1 c2] c3].
  unfold lex_le. lia.
Qed.

Lemma compare_cont_Eq_spec (p q : positive) :
  Pos.compare_cont Eq p q = (Zpos p ?= Zpos q).
Proof. reflexivity. Qed.

Lemma leb_rank (x y : float) :
  F32.is_nan x = false -> F32.is_nan y = false ->
  (F32.leb x y = true <-> lex_le (rank x) (rank y)).
Proof.
  unfold F32.leb, SFleb.
  destruct x as [sx|sx| |sx mx ex], y as [sy|sy| |sy my ey];
    simpl; try discriminate; intros _ _;
    try destruct sx; try destruct sy; simpl;
    try (split; [intros _; lia | reflexivity]);
    try (split; [discriminate | lia]).
  - rewrite compare_cont_Eq_spec.
    destruct (Z.compare_spec ex ey); destruct (Z.compare_spec (Zpos mx) (Zpos my));
      simpl; split; try discriminate; try reflexivity; try lia.
  - rewrite compare_cont_Eq_spec.
    destruct (Z.compare_spec ex ey); destruct (Z.compare_spec (Zpos mx) (Zpos my));
      simpl; split; try discriminate; try reflexivity; try lia.
Qed.

Lemma leb_trans (x y z : float) :
  F32.leb x y = true -> F32.leb y z = true -> F32.leb x z = true.
Proof.
  intros Hxy Hyz.
  pose proof (leb_not_nan_l _ _ Hxy) as Nx.
  pose proof (leb_not_nan_r _ _ Hxy) as Ny.
  pose proof (leb_not_nan_r _ _ Hyz) as Nz.
  apply leb_rank; trivial.
  apply lex_le_trans with (rank y); apply leb_rank; trivial.
Qed.

(** Without a NaN the order is total: [a > b] fails exactly when [a <= b]. *)
Lemma gtb_false_leb (a b : float) :
  F32.is_nan a = false -> F32.is_nan b = false ->
  F32.gtb a b = false -> F32.leb a b = true.
Proof.
  unfold F32.gtb, F32.leb, SFltb, SFleb.
  destruct a as [sa|sa| |sa ma ea], b as [sb|sb| |sb mb eb];
    simpl; try discriminate; intros _ _;
    try destruct sa; try destruct sb; simpl; try reflexivity; try discriminate.
  - rewrite !compare_cont_Eq_spec.
    destruct (Z.compare_spec eb ea), (Z.compare_spec ea eb); try lia;
      destruct (Z.compare_spec (Zpos mb) (Zpos ma)),
               (Z.compare_spec (Zpos ma) (Zpos mb));
      try lia; simpl; try reflexivity; try discriminate.
  - rewrite !compare_cont_Eq_spec.
    destruct (Z.compare_spec eb ea), (Z.compare_spec ea eb); try lia;
      destruct (Z.compare_spec (Zpos mb) (Zpos ma)),
               (Z.compare_spec (Zpos ma) (Zpos mb));
      try lia; simpl; try reflexivity; try discriminate.
Qed.

Lemma ltb_iff (x y : float) :
  F32.ltb x y = true <-> F32.leb x y = true /\ F32.leb y x = false.
Proof.
  unfold F32.ltb, F32.leb, SFltb, SFleb.
  destruct x as [sx|sx| |sx mx ex], y as [sy|sy| |sy my ey];
    simpl; try destruct sx; try destruct sy; simpl;
    try (split; [discriminate | intros [? ?]; discriminate]);
    try (split; [intros _; split; reflexivity | reflexivity]).
  - rewrite !compare_cont_Eq_spec.
    destruct (Z.compare_spec ex ey), (Z.compare_spec ey ex); try lia;
      destruct (Z.compare_spec (Zpos mx) (Zpos my)),
               (Z.compare_spec (Zpos my) (Zpos mx));
      try lia; simpl; split; try discriminate; try reflexivity;
      try (intros [? ?]; discriminate); try (intros _; split; reflexivity).
  - rewrite !compare_cont_Eq_spec.
    destruct (Z.compare_spec ex ey), (Z.compare_spec ey ex); try lia;
      destruct (Z.compare_spec (Zpos mx) (Zpos my)),
               (Z.compare_spec (Zpos my) (Zpos mx));
      try lia; simpl; split; try discriminate; try reflexivity;
      try (intros [? ?]; discriminate); try (intros _; split; reflexivity).
Qed.

Lemma ltb_trans (x y z : float) :
  F32.ltb x y = true -> F32.ltb y z = true -> F32.ltb x z = true.
Proof.
  intros Hxy Hyz. apply ltb_iff in Hxy. apply ltb_iff in Hyz.
  destruct Hxy as [Hxy Hyx], Hyz as [Hyz Hzy].
  apply ltb_iff. split; [eapply leb_trans; eassumption|].
  destruct (F32.leb z x) eqn:Hzx; trivial.
  rewrite (leb_trans z x y Hzx Hxy) in Hzy. discriminate.
Qed.

(** ** The simulator *)

(** The constants of the program, as numbers. *)
Lemma constants_values :
  (B2Q minRate == 1000 /\ B2Q maxRate == 5000 /\
   B2Q (F32.of_Z width) == 1600 /\ B2Q (F32.of_Z height) == 1200 /\
   B2Q (F32.of_Z (height - 100)) == 1100)%Q.
Proof. repeat split. Qed.

Lemma minRate_lt_maxRate : F32.ltb minRate maxRate = true.
Proof. reflexivity. Qed.

Lemma minRate_valid : F32.valid minRate = true.
Proof. reflexivity. Qed.

Lemma maxRate_valid : F32.valid maxRate = true.
Proof. reflexivity. Qed.

Lemma Coin_spec : UniformRealSpec Coin.
Proof.
  unfold UniformRealSpec, uniform_real, Coin_uniform.
  intros a b g Va Vb Hab. destruct g; simpl.
  - repeat split; trivial.
    + apply leb_refl. eapply ltb_not_nan_l; eassumption.
    + now apply ltb_leb.
  - repeat split; trivial.
    + now apply ltb_leb.
    + apply leb_refl. eapply ltb_not_nan_r; eassumption.
Qed.

Section SimulatorFacts.
Context {G : Type} `{UniformReal G}.

Lemma simulateTransfer_id (a b : float) (c : Connection) (gen : G) :
  id (fst (simulateTransfer a b c gen)) = id c.
Proof.
  unfold simulateTransfer. now destruct (uniform_real a b gen).
Qed.

Lemma simulateAll_loop_ids (conns : list Connection) (gen : G) :
  map id (fst (simulateAll_loop conns gen)) = map id conns.
Proof.
  revert gen. induction conns as [|c rest IH]; intros gen; simpl.
  - reflexivity.
  - pose proof (simulateTransfer_id minRate maxRate c gen) as Hid.
    destruct (simulateTransfer minRate maxRate c gen) as [c' gen1].
    specialize (IH gen1).
    destruct (simulateAll_loop rest gen1) as [rest' gen2].
    simpl in *. now rewrite Hid, IH.
Qed.

Lemma simulateAll_connections (m : BandwidthMonitor) (gen : G) :
  connections (fst (simulateAll m gen)) = fst (simulateAll_loop (connections m) gen).
Proof.
  unfold simulateAll. now destruct (simulateAll_loop (connections m) gen).
Qed.

Lemma simulateAll_window (m : BandwidthMonitor) (gen : G) :
  window (fst (simulateAll m gen)) = window m.
Proof.
  unfold simulateAll. now destruct (simulateAll_loop (connections m) gen).
Qed.

Lemma run_body_connections (pending : list Event) (m : BandwidthMonitor) (gen : G) :
  connections (fst (run_body pending m gen)) =
  fst (simulateAll_loop (connections m) gen).
Proof.
  unfold run_body.
  pose proof (simulateAll_connections (handleEvents pending m) gen) as Hc.
  destruct (simulateAll (handleEvents pending m) gen) as [m2 gen'].
  simpl in *. exact Hc.
Qed.

Context `{!UniformRealSpec G}.

Lemma simulateTransfer_in_range (c : Connection) (gen : G) :
  F32.valid (getRate (fst (simulateTransfer minRate maxRate c gen))) = true /\
  in_range (getRate (fst (simulateTransfer minRate maxRate c gen))).
Proof.
  unfold simulateTransfer, in_range.
  pose proof (uniform_real_range minRate maxRate gen
                minRate_valid maxRate_valid minRate_lt_maxRate) as Hr.
  destruct (uniform_real minRate maxRate gen) as [r gen']. simpl in *.
  tauto.
Qed.

Lemma simulateAll_loop_in_range (conns : list Connection) (gen : G) :
  Forall (fun c => F32.valid (getRate c) = true /\ in_range (getRate c))
         (fst (simulateAll_loop conns gen)).
Proof.
  revert gen. induction conns as [|c rest IH]; intros gen; simpl.
  - constructor.
  - pose proof (simulateTransfer_in_range c gen) as Hc.
    destruct (simulateTransfer minRate maxRate c gen) as [c' gen1].
    specialize (IH gen1).
    destruct (simulateAll_loop rest gen1) as [rest' gen2].
    simpl in *. now constructor.
Qed.

Lemma ticks_in_range (n : nat) (events : nat -> list Event) (k : nat)
      (m : BandwidthMonitor) (gen : G) :
  Forall (fun c => F32.valid (getRate c) = true /\ in_range (getRate c))
         (connections (fst (ticks (S n) events k m gen))).
Proof.
  revert k m gen. induction n as [|n IH]; intros k m gen.
  - simpl. pose proof (run_body_connections (events k) m gen) as Hb.
    destruct (run_body (events k) m gen) as [m' gen']. simpl in *.
    rewrite Hb. apply simulateAll_loop_in_range.
  - change (ticks (S (S n)) events k m gen)
      with (let (m', gen') := run_body (events k) m gen in
            ticks (S n) events (S k) m' gen').
    destruct (run_body (events k) m gen) as [m' gen']. apply IH.
Qed.

End SimulatorFacts.

(** ** The maximum loop *)

Lemma maxTransfer_from_bounds (conns : list Connection) (acc : float) :
  F32.is_nan acc = false ->
  Forall (fun c => F32.is_nan (getRate c) = false) conns ->
  F32.leb acc (maxTransfer_from acc conns) = true /\
  Forall (fun c => F32.leb (getRate c) (maxTransfer_from acc conns) = true) conns.
Proof.
  revert acc. induction conns as [|c rest IH]; intros acc Hacc Hall.
  - split; [now apply leb_refl | constructor].
  - inversion Hall as [|? ? Hc Hrest]; subst.
    unfold maxTransfer_from in *. simpl.
    set (acc' := if F32.gtb (getRate c) acc then getRate c else acc).
    assert (Hacc' : F32.is_nan acc' = false)
      by (unfold acc'; now destruct (F32.gtb (getRate c) acc)).
    assert (Hle1 : F32.leb acc acc' = true).
    { unfold acc'. destruct (F32.gtb (getRate c) acc) eqn:E.
      - apply ltb_leb. exact E.
      - now apply leb_refl. }
    assert (Hle2 : F32.leb (getRate c) acc' = true).
    { unfold acc'. destruct (F32.gtb (getRate c) acc) eqn:E.
      - now apply leb_refl.
      - now apply gtb_false_leb. }
    destruct (IH acc' Hacc' Hrest) as [Hup Hothers].
    split; [|constructor]; trivial; eapply leb_trans; eassumption.
Qed.

Lemma maxTransfer_upper_bound (conns : list Connection) :
  Forall (fun c => F32.is_nan (getRate c) = false) conns ->
  Forall (fun c => F32.leb (getRate c) (maxTransfer conns) = true) conns.
Proof.
  intros Hall. now apply (maxTransfer_from_bounds conns F32.zero).
Qed.

Lemma gtb_nonneg_class (r acc : float) :
  nonneg_class acc = true -> F32.gtb r acc = true -> nonneg_class r = true.
Proof.
  destruct acc as [[]|[]| |[] ? ?], r as [[]|[]| |[] ? ?];
    simpl; try reflexivity; try discriminate.
Qed.

Lemma maxTransfer_from_nonneg (conns : list Connection) (acc : float) :
  nonneg_class acc = true -> nonneg_class (maxTransfer_from acc conns) = true.
Proof.
  revert acc. induction conns as [|c rest IH]; intros acc Hacc; trivial.
  unfold maxTransfer_from in *. simpl. apply IH.
  destruct (F32.gtb (getRate c) acc) eqn:E; trivial.
  eapply gtb_nonneg_class; eassumption.
Qed.

(** Once the accumulator has left [+0] it never comes back. *)
Lemma maxTransfer_from_positive (conns : list Connection) (acc : float) :
  nonneg_class acc = true -> acc <> F32.zero ->
  maxTransfer_from acc conns <> F32.zero.
Proof.
  revert acc. induction conns as [|c rest IH]; intros acc Hacc Hnz; trivial.
  unfold maxTransfer_from in *. simpl.
  destruct (F32.gtb (getRate c) acc) eqn:E.
  - apply IH.
    + eapply gtb_nonneg_class; eassumption.
    + intros Hr. rewrite Hr in E.
      destruct acc as [[]|[]| |[] ? ?]; simpl in *; discriminate || congruence.
  - now apply IH.
Qed.

Lemma maxTransfer_zero_rates (conns : list Connection) :
  maxTransfer conns = F32.zero ->
  Forall (fun c => F32.gtb (getRate c) F32.zero = false) conns.
Proof.
  unfold maxTransfer.
  induction conns as [|c rest IH]; intros Hz; constructor.
  - unfold maxTransfer_from in Hz. simpl in Hz.
    destruct (F32.gtb (getRate c) F32.zero) eqn:E; trivial.
    exfalso. revert Hz. apply maxTransfer_from_positive.
    + eapply gtb_nonneg_class; [|exact E]. reflexivity.
    + intros Hr. rewrite Hr in E. discriminate.
  - apply IH. unfold maxTransfer_from in *. simpl in Hz.
    destruct (F32.gtb (getRate c) F32.zero) eqn:E; trivial.
    exfalso. revert Hz. apply maxTransfer_from_positive.
    + eapply gtb_nonneg_class; [|exact E]. reflexivity.
    + intros Hr. rewrite Hr in E. discriminate.
Qed.

Lemma nonneg_class_leb_zero (x : float) :
  nonneg_class x = true -> F32.leb x F32.zero = true -> x = F32.zero.
Proof.
  destruct x as [[]|[]| |[] ? ?]; simpl; try reflexivity; discriminate.
Qed.

Lemma nonneg_class_not_negative (x : float) :
  nonneg_class x = true -> F32.ltb x F32.zero = false.
Proof.
  destruct x as [[]|[]| |[] ? ?]; simpl; try reflexivity; discriminate.
Qed.

(** ** Dividing by a zero maximum *)

Lemma height_over_zero (r : float) :
  F32.gtb r F32.zero = false ->
  F32.is_finite (F32.mul (F32.div r F32.zero) (F32.of_Z (height - 100))) = false.
Proof.
  change (F32.of_Z (height - 100)) with (S754_finite false 9011200 (-13)).
  destruct r as [[]|[]| |[] ? ?]; simpl; try reflexivity; discriminate.
Qed.

(** ** The drawing loop *)

Lemma drawBars_window (maxT bw : float) (conns : list Connection) :
  forall (i : Z) (w : RenderWindow),
    drawBars maxT bw i conns w =
    {| isOpen := isOpen w; clearColor := clearColor w;
       backBuffer := backBuffer w ++ drawables (geometries maxT bw i conns) conns;
       frontBuffer := frontBuffer w |}.
Proof.
  induction conns as [|c rest IH]; intros i w; simpl.
  - rewrite app_nil_r. now destruct w.
  - rewrite IH. simpl. now rewrite <- !app_assoc.
Qed.

Lemma drawAll_eq (m : BandwidthMonitor) :
  drawAll m =
  {| connections := connections m;
     window := {| isOpen := isOpen (window m); clearColor := Black;
                  backBuffer := drawables (layout (connections m)) (connections m);
                  frontBuffer := drawables (layout (connections m)) (connections m) |} |}.
Proof.
  unfold drawAll. rewrite drawBars_window. reflexivity.
Qed.

Lemma frame_bars_drawables (maxT bw : float) (conns : list Connection) (i : Z) :
  frame_bars (drawables (geometries maxT bw i conns) conns) =
  map bar_of (geometries maxT bw i conns).
Proof.
  revert i. induction conns as [|c rest IH]; intros i; simpl; trivial.
  f_equal. apply IH.
Qed.

Lemma frame_labels_drawables (maxT bw : float) (conns : list Connection) (i : Z) :
  frame_labels (drawables (geometries maxT bw i conns) conns) =
  map (fun gc => label_of (fst gc) (snd gc))
      (combine (geometries maxT bw i conns) conns).
Proof.
  revert i. induction conns as [|c rest IH]; intros i; simpl; trivial.
  f_equal. apply IH.
Qed.

Lemma nth_error_geometries (maxT bw : float) (conns : list Connection) :
  forall (i : Z) (k : nat) (c : Connection),
    nth_error conns k = Some c ->
    nth_error (geometries maxT bw i conns) k =
    Some (barGeometry maxT bw (i + Z.of_nat k) c).
Proof.
  induction conns as [|c0 rest IH]; intros i k c Hk.
  - destruct k; discriminate.
  - destruct k as [|k]; simpl in *.
    + inversion Hk; subst. now rewrite Z.add_0_r.
    + rewrite (IH (i + 1) k c Hk). do 2 f_equal. lia.
Qed.

Lemma geometries_length (maxT bw : float) (conns : list Connection) (i : Z) :
  List.length (geometries maxT bw i conns) = List.length conns.
Proof.
  revert i. induction conns as [|c rest IH]; intros i; simpl; auto.
Qed.

Lemma In_geometries (maxT bw : float) (conns : list Connection) :
  forall (i : Z) (g : BarGeometry),
    In g (geometries maxT bw i conns) ->
    exists (k : nat) (c : Connection),
      nth_error conns k = Some c /\ g = barGeometry maxT bw (i + Z.of_nat k) c.
Proof.
  induction conns as [|c0 rest IH]; intros i g Hin; simpl in Hin.
  - contradiction.
  - destruct Hin as [<-|Hin].
    + exists O, c0. split; trivial. now rewrite Z.add_0_r.
    + destruct (IH _ _ Hin) as (k & c & Hk & ->).
      exists (S k), c. split; trivial. f_equal. lia.
Qed.

Lemma mul_comm (x y : float) : F32.mul x y = F32.mul y x.
Proof.
  unfold F32.mul.
  destruct x as [sx|sx| |sx mx ex], y as [sy|sy| |sy my ey]; simpl;
    try reflexivity; try (now rewrite xorb_comm).
  now rewrite xorb_comm, Pos.mul_comm, Z.add_comm.
Qed.

(** ** The event loop *)

Lemma handleEvents_loop_stays_closed (pending : list Event) (w : RenderWindow) :
  isOpen w = false -> isOpen (handleEvents_loop pending w) = false.
Proof.
  revert w. induction pending as [|[] rest IH]; intros w Hw; simpl; auto.
Qed.

Lemma handleEvents_loop_closes (pending : list Event) (w : RenderWindow) :
  In Closed pending -> isOpen (handleEvents_loop pending w) = false.
Proof.
  revert w. induction pending as [|e rest IH]; intros w Hin; simpl in *.
  - contradiction.
  - destruct e.
    + now apply handleEvents_loop_stays_closed.
    + destruct Hin as [Hin|Hin]; [discriminate | now apply IH].
Qed.

Section LoopFacts.
Context {G : Type} `{UniformReal G}.

Lemma run_body_isOpen (pending : list Event) (m : BandwidthMonitor) (gen : G) :
  isOpen (window (fst (run_body pending m gen))) =
  isOpen (handleEvents_loop pending (window m)).
Proof.
  unfold run_body.
  pose proof (simulateAll_window (handleEvents pending m) gen) as Hw.
  destruct (simulateAll (handleEvents pending m) gen) as [m2 gen'].
  cbn [fst] in *. rewrite drawAll_eq. cbn [window isOpen].
  now rewrite Hw.
Qed.

(** If a [Closed] event is in the batch polled [k] iterations from now,
    the loop is over within [k + 1] iterations. *)
Lemma run_terminates (events : nat -> list Event) (k : nat) :
  forall (fuel j : nat) (m : BandwidthMonitor) (gen : G),
    In Closed (events (j + k)%nat) -> (k < fuel)%nat ->
    exists r, run fuel events j m gen = Some r.
Proof.
  induction k as [|k IH]; intros fuel j m gen Hin Hfuel.
  - destruct fuel as [|fuel]; [lia|]. simpl.
    destruct (isOpen (window m)) eqn:Ho; [|eauto].
    pose proof (run_body_isOpen (events j) m gen) as Hb.
    destruct (run_body (events j) m gen) as [m' gen']. simpl in Hb.
    rewrite handleEvents_loop_closes in Hb
      by (now rewrite Nat.add_0_r in Hin).
    destruct fuel; simpl; rewrite Hb; eauto.
  - destruct fuel as [|fuel]; [lia|]. simpl.
    destruct (isOpen (window m)) eqn:Ho; [|eauto].
    destruct (run_body (events j) m gen) as [m' gen'].
    apply IH; [|lia].
    now replace (S j + k)%nat with (j + S k)%nat by lia.
Qed.

End LoopFacts.

(** ** Rounding: the number of binary digits *)

Lemma digits2_pos_size (p : positive) : digits2_pos p = Pos.size p.
Proof. induction p; simpl; congruence. Qed.

Lemma Zdigits2_nonneg (m : Z) : 0 <= Zdigits2 m.
Proof. destruct m; simpl; lia. Qed.

Lemma Zdigits2_bounds (m : Z) :
  0 < m -> 2 ^ (Zdigits2 m - 1) <= m < 2 ^ Zdigits2 m.
Proof.
  destruct m as [|p|p]; try lia. intros _. unfold Zdigits2.
  rewrite digits2_pos_size.
  pose proof (Pos.size_gt p) as Hgt. pose proof (Pos.size_le p) as Hle.
  apply Pos2Z.pos_lt_pos in Hgt. apply Pos2Z.pos_le_pos in Hle.
  rewrite Pos2Z.inj_pow in Hgt, Hle.
  replace (Zpos (Pos.size p)) with (Z.succ (Zpos (Pos.size p) - 1)) in Hle by lia.
  rewrite Z.pow_succ_r in Hle by lia.
  change (Zpos p~0) with (2 * Zpos p) in Hle. lia.
Qed.

Lemma Zdigits2_le (m k : Z) : 0 <= k -> 0 <= m < 2 ^ k -> Zdigits2 m <= k.
Proof.
  intros Hk [H0 Hm].
  destruct (Z.eq_dec m 0) as [->|Hnz]; [simpl; lia|].
  destruct (Zdigits2_bounds m ltac:(lia)) as [Hlo _].
  destruct (Z.le_gt_cases (Zdigits2 m) k) as [|Hgt]; trivial.
  assert (2 ^ k <= 2 ^ (Zdigits2 m - 1)) by (apply Z.pow_le_mono_r; lia).
  lia.
Qed.

Lemma Zdigits2_gt (m k : Z) : 0 <= k -> 2 ^ k <= m -> k < Zdigits2 m.
Proof.
  intros Hk Hm.
  assert (0 < 2 ^ k) by (apply Z.pow_pos_nonneg; lia).
  destruct (Zdigits2_bounds m ltac:(lia)) as [_ Hhi].
  destruct (Z.lt_ge_cases k (Zdigits2 m)) as [|Hge]; trivial.
  assert (2 ^ Zdigits2 m <= 2 ^ k)
    by (apply Z.pow_le_mono_r; [lia|exact Hge]).
  lia.
Qed.

(** ** Shifting right with a sticky record *)

Lemma shr_rel_1 (mrs : shr_record) : 0 <= shr_m mrs -> shr_rel 1 mrs (shr_1 mrs).
Proof.
  destruct mrs as [m r s]. unfold shr_rel, exact_rec. cbn [shr_m].
  intros Hm. change (2 ^ 1) with 2.
  destruct m as [|[p|p|]|p]; try lia; cbn [shr_1 shr_m shr_r shr_s].
  - repeat split; try lia. destruct r, s; simpl; congruence.
  - repeat split; try lia.
    + rewrite Pos2Z.inj_xI. apply Z.div_unique with 1; lia.
    + intros _ [c Hc]. lia.
  - repeat split; try lia.
    + rewrite Pos2Z.inj_xO. apply Z.div_unique with 0; lia.
    + destruct r, s; simpl; congruence.
  - repeat split; try lia. intros _ [c Hc]. lia.
Qed.

Lemma shr_rel_compose (a b : Z) (x y z : shr_record) :
  0 < a -> 0 < b -> shr_rel a x y -> shr_rel b y z -> shr_rel (a + b) x z.
Proof.
  intros Ha Hb (Hy0 & Hy & Hey) (Hz0 & Hz & Hez).
  assert (Hpa : 0 < 2 ^ a) by (apply Z.pow_pos_nonneg; lia).
  assert (Hpb : 0 < 2 ^ b) by (apply Z.pow_pos_nonneg; lia).
  repeat split; trivial.
  - rewrite Hz, Hy, Z.pow_add_r, Z.div_div by lia. reflexivity.
  - intros Hx [c Hc]. rewrite Z.pow_add_r in Hc by lia.
    apply Hez.
    + apply Hey; trivial. exists (c * 2 ^ b). lia.
    + rewrite Hy. exists c.
      replace (shr_m x) with (c * 2 ^ b * 2 ^ a) by lia.
      now rewrite Z.div_mul by lia.
Qed.

Lemma iter_pos_shr_rel (p : positive) :
  forall mrs, 0 <= shr_m mrs -> shr_rel (Zpos p) mrs (SpecFloat.iter_pos shr_1 p mrs).
Proof.
  induction p as [p IH|p IH|]; intros mrs Hm; cbn [SpecFloat.iter_pos].
  - pose proof (shr_rel_1 mrs Hm) as H1.
    pose proof (IH _ (proj1 H1)) as H2.
    pose proof (IH _ (proj1 H2)) as H3.
    replace (Zpos p~1) with (1 + Zpos p + Zpos p) by lia.
    eapply shr_rel_compose; [lia|lia| |exact H3].
    eapply shr_rel_compose; [lia|lia|exact H1|exact H2].
  - pose proof (IH _ Hm) as H2.
    pose proof (IH _ (proj1 H2)) as H3.
    replace (Zpos p~0) with (Zpos p + Zpos p) by lia.
    eapply shr_rel_compose; [lia|lia|exact H2|exact H3].
  - now apply shr_rel_1.
Qed.

Lemma loc_of_shr_record_of_loc (m : Z) (l : location) :
  loc_of_shr_record (shr_record_of_loc m l) = l.
Proof. destruct l as [|[]]; reflexivity. Qed.

Lemma shr_m_shr_record_of_loc (m : Z) (l : location) :
  shr_m (shr_record_of_loc m l) = m.
Proof. destruct l as [|[]]; reflexivity. Qed.

Lemma exact_rec_loc (mrs : shr_record) :
  exact_rec mrs = true -> loc_of_shr_record mrs = loc_Exact.
Proof. destruct mrs as [m [] []]; simpl; try reflexivity; discriminate. Qed.

(** [shr] on a non-negative mantissa divides it by [2 ^ n], rounding down,
    and reports an exact location when nothing was lost. *)
Lemma shr_spec (m e n : Z) (l : location) :
  0 <= m -> 0 <= n ->
  let '(mrs', e') := shr (shr_record_of_loc m l) e n in
  e' = e + n /\
  shr_m mrs' = m / 2 ^ n /\
  (l = loc_Exact -> (2 ^ n | m) -> loc_of_shr_record mrs' = loc_Exact).
Proof.
  intros Hm Hn. destruct n as [|p|p]; try lia; cbn [shr].
  - rewrite shr_m_shr_record_of_loc, loc_of_shr_record_of_loc, Z.div_1_r.
    repeat split; trivial; lia.
  - destruct (iter_pos_shr_rel p (shr_record_of_loc m l)) as (_ & Hq & Hex).
    { now rewrite shr_m_shr_record_of_loc. }
    rewrite shr_m_shr_record_of_loc in *.
    repeat split; trivial.
    intros -> Hdiv. apply exact_rec_loc. now apply Hex.
Qed.

Lemma round_nearest_even_bounds (m : Z) (l : location) :
  m <= round_nearest_even m l <= m + 1 /\
  (l = loc_Exact -> round_nearest_even m l = m).
Proof.
  destruct l as [|[]]; simpl; try destruct (Z.even m); split; try lia;
    try reflexivity; discriminate.
Qed.

Lemma shr_nonpos (mrs : shr_record) (e n : Z) : n <= 0 -> shr mrs e n = (mrs, e).
Proof. destruct n; trivial; lia. Qed.

(** ** Rounding: [binary_round_aux] *)

Section RoundAux.
Variables prec emax : Z.
Hypothesis prec_pos : 0 < prec.

Lemma canonical_iff (m e : Z) :
  canonical prec emax m e <->
  Zdigits2 m <= prec /\ emin prec emax <= e /\
  (Zdigits2 m = prec \/ e = emin prec emax).
Proof. unfold canonical, fexp. lia. Qed.

Lemma fexp_ge_emin (k : Z) : emin prec emax <= fexp prec emax k.
Proof. unfold fexp. lia. Qed.

Lemma fexp_mono (a b : Z) : a <= b -> fexp prec emax a <= fexp prec emax b.
Proof. unfold fexp. lia. Qed.

(** The shape of a rounding: the mantissa is cut down to the target
    exponent [e1] (giving [m1]), moved up by at most one unit ([m2]), and
    renormalised exactly when the increment carried ([m3], [e3]). *)
Lemma binary_round_aux_shape (sx : bool) (mx ex : Z) (lx : location) :
  0 <= mx -> ex <= fexp prec emax (Zdigits2 mx + ex) ->
  let e1 := fexp prec emax (Zdigits2 mx + ex) in
  let m1 := mx / 2 ^ (e1 - ex) in
  exists m2 m3 e3 : Z,
    m1 <= m2 <= m1 + 1 /\
    (lx = loc_Exact -> (2 ^ (e1 - ex) | mx) -> m2 = m1) /\
    e1 <= e3 <= e1 + 1 /\ m2 = m3 * 2 ^ (e3 - e1) /\
    0 <= m3 /\ (m3 = 0 \/ canonical prec emax m3 e3) /\
    binary_round_aux prec emax sx mx ex lx =
    match m3 with
    | Z0 => S754_zero sx
    | Zpos m => if e3 <=? emax - prec then S754_finite sx m e3
                else S754_infinity sx
    | Zneg _ => S754_nan
    end.
Proof.
  intros Hmx Hex e1 m1.
  assert (Hn : 0 <= e1 - ex) by (unfold e1; lia).
  assert (Hpn : 0 < 2 ^ (e1 - ex)) by (apply Z.pow_pos_nonneg; lia).
  assert (Hm1 : 0 <= m1) by (apply Z.div_pos; lia).
  assert (He1 : emin prec emax <= e1) by apply fexp_ge_emin.
  (* size of the truncated mantissa *)
  assert (Hm1hi : m1 < 2 ^ prec).
  { apply Z.div_lt_upper_bound; [lia|].
    rewrite <- Z.pow_add_r by lia.
    destruct (Z.eq_dec mx 0) as [->|Hnz]; [apply Z.pow_pos_nonneg; lia|].
    destruct (Zdigits2_bounds mx ltac:(lia)) as [_ Hhi].
    eapply Z.lt_le_trans; [exact Hhi|].
    apply Z.pow_le_mono_r; [lia|]. unfold e1, fexp. lia. }
  assert (Hm1lo : 2 ^ (prec - 1) <= m1 \/ e1 = emin prec emax).
  { destruct (Z.eq_dec e1 (emin prec emax)) as [|Hne]; [now right|left].
    assert (Hd : e1 = Zdigits2 mx + ex - prec) by (unfold e1, fexp in *; lia).
    assert (Hmxpos : 0 < mx).
    { destruct (Z.eq_dec mx 0) as [->|]; [|lia]. simpl in Hd. lia. }
    destruct (Zdigits2_bounds mx Hmxpos) as [Hlo _].
    apply Z.div_le_lower_bound; [lia|].
    rewrite <- Z.pow_add_r by lia.
    replace (e1 - ex + (prec - 1)) with (Zdigits2 mx - 1) by lia. exact Hlo. }
  unfold binary_round_aux, shr_fexp. fold e1.
  pose proof (shr_spec mx ex (e1 - ex) lx Hmx Hn) as S1.
  destruct (shr (shr_record_of_loc mx lx) ex (e1 - ex)) as [mrs' e'].
  destruct S1 as (He' & Hq & Hexact). fold m1 in Hq.
  replace e' with e1 by lia.
  set (m2 := round_nearest_even (shr_m mrs') (loc_of_shr_record mrs')).
  destruct (round_nearest_even_bounds (shr_m mrs') (loc_of_shr_record mrs'))
    as [Hm2 Hm2e].
  fold m2 in Hm2, Hm2e. rewrite Hq in Hm2, Hm2e.
  assert (Hm2nn : 0 <= m2) by lia.
  destruct (Z.eq_dec m2 (2 ^ prec)) as [Hcarry|Hnocarry].
  - (* the increment carried into a new bit *)
    assert (Hd2 : Zdigits2 m2 = prec + 1).
    { apply Z.le_antisymm.
      - apply Zdigits2_le; [lia|]. rewrite Hcarry.
        split; [apply Z.pow_nonneg; lia|]. apply Z.pow_lt_mono_r; lia.
      - enough (prec < Zdigits2 m2) by lia.
        apply Zdigits2_gt; lia. }
    assert (Hn2 : fexp prec emax (Zdigits2 m2 + e1) - e1 = 1)
      by (rewrite Hd2; unfold fexp; lia).
    rewrite Hn2.
    pose proof (shr_spec m2 e1 1 loc_Exact Hm2nn ltac:(lia)) as S2.
    destruct (shr (shr_record_of_loc m2 loc_Exact) e1 1) as [mrs'' e''].
    destruct S2 as (He'' & Hq2 & _).
    assert (Hm3 : shr_m mrs'' = 2 ^ (prec - 1)).
    { rewrite Hq2, Hcarry. change (2 ^ 1) with 2.
      replace prec with (Z.succ (prec - 1)) at 1 by lia.
      rewrite Z.pow_succ_r by lia.
      rewrite Z.mul_comm, Z.div_mul by lia. reflexivity. }
    exists m2, (2 ^ (prec - 1)), (e1 + 1).
    assert (Hp1 : 0 < 2 ^ (prec - 1)) by (apply Z.pow_pos_nonneg; lia).
    repeat split; try lia.
    + intros Hl Hdiv. apply Hm2e. now apply Hexact.
    + replace (e1 + 1 - e1) with 1 by lia. change (2 ^ 1) with 2.
      rewrite Hcarry. replace prec with (Z.succ (prec - 1)) at 1 by lia.
      rewrite Z.pow_succ_r by lia. lia.
    + right. apply canonical_iff.
      assert (Zdigits2 (2 ^ (prec - 1)) = prec).
      { apply Z.le_antisymm.
        - apply Zdigits2_le; [lia|]. split; [lia|]. apply Z.pow_lt_mono_r; lia.
        - enough (prec - 1 < Zdigits2 (2 ^ (prec - 1))) by lia.
          apply Zdigits2_gt; lia. }
      lia.
    + rewrite Hm3, He''. reflexivity.
  - (* no carry: the mantissa is already in place *)
    assert (Hm2hi : m2 < 2 ^ prec) by lia.
    assert (Hd2 : Zdigits2 m2 <= prec) by (apply Zdigits2_le; lia).
    rewrite shr_nonpos by (unfold fexp; lia).
    rewrite shr_m_shr_record_of_loc.
    exists m2, m2, e1.
    repeat split; try lia.
    + intros Hl Hdiv. apply Hm2e. now apply Hexact.
    + rewrite Z.sub_diag. simpl. lia.
    + destruct (Z.eq_dec m2 0) as [|Hnz]; [now left|right].
      apply canonical_iff. repeat split; try lia.
      destruct Hm1lo as [Hlo|]; [left|now right].
      enough (prec - 1 < Zdigits2 m2) by lia.
      apply Zdigits2_gt; lia.
Qed.

(** Two canonical mantissas compare as the values they stand for. *)
Lemma canonical_value_lex (m e mf ef e0 : Z) :
  0 < m -> 0 < mf -> canonical prec emax m e -> canonical prec emax mf ef ->
  e0 <= e -> e0 <= ef ->
  m * 2 ^ (e - e0) <= mf * 2 ^ (ef - e0) ->
  e < ef \/ (e = ef /\ m <= mf).
Proof.
  intros Hm Hmf Hc Hcf He Hef Hle.
  apply canonical_iff in Hc. apply canonical_iff in Hcf.
  destruct (Z.lt_trichotomy e ef) as [Hlt|[Heq|Hgt]]; [now left| |exfalso].
  - right. split; trivial. subst ef.
    assert (0 < 2 ^ (e - e0)) by (apply Z.pow_pos_nonneg; lia). nia.
  - assert (Hd : Zdigits2 m = prec) by lia.
    destruct (Zdigits2_bounds m Hm) as [Hlo _].
    destruct (Zdigits2_bounds mf Hmf) as [_ Hhi].
    assert (Hmf' : mf < 2 ^ prec).
    { eapply Z.lt_le_trans; [exact Hhi|]. apply Z.pow_le_mono_r; lia. }
    rewrite Hd in Hlo.
    assert (Hp : 0 < 2 ^ (ef - e0)) by (apply Z.pow_pos_nonneg; lia).
    assert (Hs : 2 ^ (e - e0) = 2 ^ (e - ef) * 2 ^ (ef - e0))
      by (rewrite <- Z.pow_add_r by lia; f_equal; lia).
    assert (H2 : 2 <= 2 ^ (e - ef)).
    { change 2 with (2 ^ 1) at 1. apply Z.pow_le_mono_r; lia. }
    assert (Hpp : 2 ^ prec = 2 * 2 ^ (prec - 1)).
    { replace prec with (Z.succ (prec - 1)) at 1 by lia.
      now rewrite Z.pow_succ_r by lia. }
    assert (0 < 2 ^ (prec - 1)) by (apply Z.pow_pos_nonneg; lia).
    rewrite Hs in Hle. nia.
Qed.

Lemma canonical_lex_value (m e mf ef : Z) :
  0 < m -> 0 < mf -> canonical prec emax m e -> canonical prec emax mf ef ->
  e < ef \/ (e = ef /\ m <= mf) ->
  e <= ef /\ m <= mf * 2 ^ (ef - e).
Proof.
  intros Hm Hmf Hc Hcf [Hlt|[-> Hle]].
  - split; [lia|].
    apply canonical_iff in Hc. apply canonical_iff in Hcf.
    assert (Hd : Zdigits2 mf = prec) by lia.
    destruct (Zdigits2_bounds mf Hmf) as [Hlo _].
    destruct (Zdigits2_bounds m Hm) as [_ Hhi].
    assert (Hm' : m < 2 ^ prec).
    { eapply Z.lt_le_trans; [exact Hhi|]. apply Z.pow_le_mono_r; lia. }
    rewrite Hd in Hlo.
    assert (H2 : 2 <= 2 ^ (ef - e)).
    { change 2 with (2 ^ 1) at 1. apply Z.pow_le_mono_r; lia. }
    assert (Hpp : 2 ^ prec = 2 * 2 ^ (prec - 1)).
    { replace prec with (Z.succ (prec - 1)) at 1 by lia.
      now rewrite Z.pow_succ_r by lia. }
    nia.
  - split; [lia|]. rewrite Z.sub_diag. simpl. lia.
Qed.

(** Rounding never crosses a representable value: if what is rounded is at
    most the canonical [mf * 2 ^ ef], so is the result. *)
Lemma binary_round_aux_le (sx : bool) (mx ex : Z) (lx : location) (mf : positive) (ef : Z) :
  0 <= mx -> ex <= fexp prec emax (Zdigits2 mx + ex) ->
  canonical prec emax (Zpos mf) ef -> ef <= emax - prec -> ex <= ef ->
  mx + (match lx with loc_Exact => 0 | _ => 1 end) <= Zpos mf * 2 ^ (ef - ex) ->
  binary_round_aux prec emax sx mx ex lx = S754_zero sx \/
  exists (m : positive) (e : Z),
    binary_round_aux prec emax sx mx ex lx = S754_finite sx m e /\
    canonical prec emax (Zpos m) e /\ e <= emax - prec /\
    (e < ef \/ (e = ef /\ Zpos m <= Zpos mf)).
Proof.
  intros Hmx Hex Hcf Hbf Hef Hval.
  destruct (binary_round_aux_shape sx mx ex lx Hmx Hex)
    as (m2 & m3 & e3 & Hm2 & Hm2e & He3 & Hm23 & Hm3 & Hc3 & ->).
  set (e1 := fexp prec emax (Zdigits2 mx + ex)) in *.
  assert (Hpe : 0 < 2 ^ (ef - ex)) by (apply Z.pow_pos_nonneg; lia).
  (* the target exponent is not above that of the bound *)
  assert (He1 : e1 <= ef).
  { pose proof Hcf as Hcf'. unfold canonical in Hcf'. rewrite <- Hcf'.
    destruct (Z.eq_dec mx 0) as [->|Hnz].
    - unfold e1, fexp. simpl Zdigits2. lia.
    - apply fexp_mono.
      destruct (Zdigits2_bounds mx ltac:(lia)) as [Hlo _].
      destruct (Zdigits2_bounds (Zpos mf) ltac:(lia)) as [_ Hhi].
      enough (Zdigits2 mx - 1 < Zdigits2 (Zpos mf) + (ef - ex)) by lia.
      pose proof (Zdigits2_nonneg (Zpos mf)) as Hdf.
      apply (Z.pow_lt_mono_r_iff 2); [lia|lia|].
      rewrite Z.pow_add_r by lia.
      assert (0 < 2 ^ Zdigits2 (Zpos mf)) by (apply Z.pow_pos_nonneg; lia).
      destruct lx; nia. }
  set (n := e1 - ex) in *.
  assert (Hn : 0 <= n) by (unfold n; lia).
  assert (Hpn : 0 < 2 ^ n) by (apply Z.pow_pos_nonneg; lia).
  assert (Hpk : 0 < 2 ^ (ef - e1)) by (apply Z.pow_pos_nonneg; lia).
  set (K := Zpos mf * 2 ^ (ef - e1)).
  assert (HK : Zpos mf * 2 ^ (ef - ex) = K * 2 ^ n).
  { unfold K, n. rewrite <- Z.mul_assoc, <- Z.pow_add_r by lia.
    do 2 f_equal. lia. }
  rewrite HK in Hval.
  assert (Hm2K : m2 <= K).
  { destruct (Z.eq_dec (mx mod 2 ^ n) 0) as [Hdiv|Hndiv].
    - destruct lx.
      + rewrite Hm2e; trivial.
        * apply Z.div_le_upper_bound; lia.
        * apply Z.mod_divide; lia.
      + enough (mx / 2 ^ n < K) by lia.
        apply Z.div_lt_upper_bound; lia.
    - enough (mx / 2 ^ n < K) by lia.
      apply Z.div_lt_upper_bound; [lia|].
      enough (mx <> 2 ^ n * K) by (destruct lx; lia).
      intros Heq. apply Hndiv. rewrite Heq, Z.mul_comm. apply Z_mod_mult. }
  destruct m3 as [|m|m]; [now left| |lia]. right.
  destruct Hc3 as [|Hc3]; [discriminate|].
  assert (Hlex : e3 < ef \/ (e3 = ef /\ Zpos m <= Zpos mf)).
  { apply (canonical_value_lex (Zpos m) e3 (Zpos mf) ef e1); trivial; lia. }
  exists m, e3. replace (e3 <=? emax - prec) with true
    by (symmetry; apply Z.leb_le; lia).
  repeat split; trivial. lia.
Qed.

End RoundAux.

Lemma new_location_cases (n r : Z) :
  (r = 0 /\ new_location n r = loc_Exact) \/
  (r <> 0 /\ exists c, new_location n r = loc_Inexact c).
Proof.
  unfold new_location.
  destruct (Z.even n); unfold new_location_even, new_location_odd;
    destruct (Z.eqb_spec r 0) as [->|Hr]; eauto.
Qed.

Lemma Zdigits2_mul_ge (a b : Z) :
  0 < a -> 0 < b -> Zdigits2 a + Zdigits2 b - 1 <= Zdigits2 (a * b).
Proof.
  intros Ha Hb.
  destruct (Zdigits2_bounds a Ha) as [Hla _].
  destruct (Zdigits2_bounds b Hb) as [Hlb _].
  pose proof (Zdigits2_nonneg a). pose proof (Zdigits2_nonneg b).
  assert (Zdigits2 a <> 0) by (destruct a; simpl; lia).
  assert (Zdigits2 b <> 0) by (destruct b; simpl; lia).
  enough (Zdigits2 a - 1 + (Zdigits2 b - 1) < Zdigits2 (a * b)) by lia.
  apply Zdigits2_gt; [lia|]. rewrite Z.pow_add_r by lia.
  assert (0 < 2 ^ (Zdigits2 a - 1)) by (apply Z.pow_pos_nonneg; lia).
  assert (0 < 2 ^ (Zdigits2 b - 1)) by (apply Z.pow_pos_nonneg; lia).
  nia.
Qed.

Lemma shift_mantissa (m s : Z) :
  0 <= s ->
  match s with
  | 0 => m
  | Zpos _ => Z.shiftl m s
  | Zneg _ => 0
  end = m * 2 ^ s.
Proof.
  intros Hs. destruct s as [|p|p]; try lia.
  now rewrite Z.shiftl_mul_pow2.
Qed.

Section Operations.
Variables prec emax : Z.
Hypothesis prec_pos : 0 < prec.
Hypothesis emax_ge : 2 <= emax.

(** The mantissa of 1. *)
Variable mone : positive.
Hypothesis mone_eq : Zpos mone = 2 ^ (prec - 1).

Lemma one_canonical : canonical prec emax (Zpos mone) (1 - prec).
Proof.
  apply canonical_iff; trivial.
  assert (Zdigits2 (Zpos mone) = prec).
  { rewrite mone_eq. apply Z.le_antisymm.
    - apply Zdigits2_le; [lia|]. split.
      + apply Z.pow_nonneg; lia.
      + apply Z.pow_lt_mono_r; lia.
    - enough (prec - 1 < Zdigits2 (2 ^ (prec - 1))) by lia.
      apply Zdigits2_gt; lia. }
  unfold emin. lia.
Qed.

(** A quotient of two positive binary values, the first at most the
    second, rounds to at most 1. *)
Lemma SFdiv_le_one (m1 : positive) (e1 : Z) (m2 : positive) (e2 : Z) :
  canonical prec emax (Zpos m1) e1 -> canonical prec emax (Zpos m2) e2 ->
  e1 < e2 \/ (e1 = e2 /\ Zpos m1 <= Zpos m2) ->
  let q := SFdiv prec emax (S754_finite false m1 e1) (S754_finite false m2 e2) in
  q = S754_zero false \/
  exists (m : positive) (e : Z),
    q = S754_finite false m e /\ canonical prec emax (Zpos m) e /\ e <= emax - prec /\
    (e < 1 - prec \/ (e = 1 - prec /\ Zpos m <= Zpos mone)).
Proof.
  intros Hc1 Hc2 Hlex q. unfold q, SFdiv, SFdiv_core_binary. cbn [xorb].
  destruct (canonical_lex_value prec emax prec_pos (Zpos m1) e1 (Zpos m2) e2
              (Pos2Z.is_pos m1) (Pos2Z.is_pos m2) Hc1 Hc2 Hlex) as [He12 Hval].
  set (d1 := Zdigits2 (Zpos m1)). set (d2 := Zdigits2 (Zpos m2)).
  destruct (Zdigits2_bounds (Zpos m1) ltac:(lia)) as [Hlo1 Hhi1].
  destruct (Zdigits2_bounds (Zpos m2) ltac:(lia)) as [Hlo2 Hhi2].
  fold d1 in Hlo1, Hhi1. fold d2 in Hlo2, Hhi2.
  assert (Hd1 : 0 < d1) by (unfold d1; simpl; lia).
  assert (Hd2 : 0 < d2) by (unfold d2; simpl; lia).
  assert (Hp12 : 0 < 2 ^ (e2 - e1)) by (apply Z.pow_pos_nonneg; lia).
  assert (Ht : d1 + e1 - (d2 + e2) <= 0).
  { enough (d1 - 1 < d2 + (e2 - e1)) by lia.
    apply (Z.pow_lt_mono_r_iff 2); [lia|lia|].
    rewrite Z.pow_add_r by lia. nia. }
  set (e' := Z.min (fexp prec emax (d1 + e1 - (d2 + e2))) (e1 - e2)).
  set (s := e1 - e2 - e').
  assert (Hs : 0 <= s) by (unfold s, e'; lia).
  assert (He'1 : e' <= 1 - prec) by (unfold e', fexp, emin; lia).
  assert (Hps : 0 < 2 ^ s) by (apply Z.pow_pos_nonneg; lia).
  rewrite (shift_mantissa (Zpos m1) s Hs).
  pose proof (Z_div_mod (Zpos m1 * 2 ^ s) (Zpos m2) eq_refl) as Hdm.
  destruct (Z.div_eucl (Zpos m1 * 2 ^ s) (Zpos m2)) as [qz rz].
  destruct Hdm as [Hdm Hrz].
  assert (Hqz : 0 <= qz) by nia.
  (* the value bound, in units of [2 ^ e'] *)
  assert (Hpow : 2 ^ (1 - prec - e') * 2 ^ (prec - 1) = 2 ^ s * 2 ^ (e2 - e1)).
  { rewrite <- !Z.pow_add_r by lia. f_equal. unfold s. lia. }
  assert (Hbound : Zpos m1 * 2 ^ s <= Zpos m2 * (2 ^ s * 2 ^ (e2 - e1))) by nia.
  apply (binary_round_aux_le prec emax prec_pos false qz e'
           (new_location (Zpos m2) rz) mone (1 - prec)); trivial.
  - (* enough digits in the quotient *)
    eapply Z.le_trans; [apply Z.le_min_l|]. fold e'.
    apply fexp_mono.
    enough (d1 - d2 + s <= Zdigits2 qz) by (unfold s in *; lia).
    pose proof (Zdigits2_nonneg qz).
    destruct (Z.le_gt_cases (d1 - d2 + s) 0) as [|Hpos]; [lia|].
    enough (d1 - d2 + s - 1 < Zdigits2 qz) by lia.
    apply Zdigits2_gt; [lia|].
    assert (Hk : 2 ^ (d1 - 1) * 2 ^ s = 2 ^ (d1 - d2 + s - 1) * 2 ^ d2).
    { rewrite <- !Z.pow_add_r by lia. f_equal. lia. }
    assert (0 < 2 ^ (d1 - d2 + s - 1)) by (apply Z.pow_pos_nonneg; lia).
    nia.
  - apply one_canonical.
  - lia.
  - rewrite mone_eq, Z.mul_comm, Hpow.
    destruct (new_location_cases (Zpos m2) rz) as [[-> ->]|[Hnz [c ->]]]; nia.
Qed.

(** Multiplying by a value that is at most 1 does not increase a positive
    binary value. *)
Lemma SFmul_le_r (m1 : positive) (e1 : Z) (m2 : positive) (e2 : Z) :
  canonical prec emax (Zpos m1) e1 -> canonical prec emax (Zpos m2) e2 -> e2 <= emax - prec ->
  e1 < 1 - prec \/ (e1 = 1 - prec /\ Zpos m1 <= Zpos mone) ->
  let p := SFmul prec emax (S754_finite false m1 e1) (S754_finite false m2 e2) in
  p = S754_zero false \/
  exists (m : positive) (e : Z),
    p = S754_finite false m e /\ canonical prec emax (Zpos m) e /\ e <= emax - prec /\
    (e < e2 \/ (e = e2 /\ Zpos m <= Zpos m2)).
Proof.
  intros Hc1 Hc2 Hb2 Hlex p. unfold p, SFmul. cbn [xorb].
  destruct (canonical_lex_value prec emax prec_pos (Zpos m1) e1 (Zpos mone) (1 - prec)
              (Pos2Z.is_pos m1) (Pos2Z.is_pos mone) Hc1 one_canonical Hlex)
    as [He1 Hval].
  rewrite mone_eq, <- Z.pow_add_r in Hval by lia.
  replace (prec - 1 + (1 - prec - e1)) with (- e1) in Hval by lia.
  rewrite Pos2Z.inj_mul.
  apply (binary_round_aux_le prec emax prec_pos false
           (Zpos m1 * Zpos m2) (e1 + e2) loc_Exact m2 e2); trivial; try lia.
  - pose proof (Zdigits2_mul_ge (Zpos m1) (Zpos m2) ltac:(lia) ltac:(lia)) as Hd.
    pose proof (proj1 (canonical_iff prec emax _ _) Hc1) as Hk1.
    pose proof (proj1 (canonical_iff prec emax _ _) Hc2) as Hk2.
    assert (0 < Zdigits2 (Zpos m1)) by (simpl; lia).
    unfold fexp. lia.
  - replace (e2 - (e1 + e2)) with (- e1) by lia. nia.
Qed.

End Operations.

(** ** Bar heights *)

Lemma valid_canonical (s : bool) (m : positive) (e : Z) :
  F32.valid (S754_finite s m e) = true ->
  canonical F32.prec F32.emax (Zpos m) e /\ e <= F32.emax - F32.prec.
Proof.
  unfold F32.valid, valid_binary, bounded, canonical_mantissa, canonical.
  intros Hv. apply andb_true_iff in Hv. destruct Hv as [Hc Hb].
  apply Z.eqb_eq in Hc. apply Z.leb_le in Hb. now split.
Qed.

Lemma leb_finite_lex (m1 : positive) (e1 : Z) (m2 : positive) (e2 : Z) :
  F32.leb (S754_finite false m1 e1) (S754_finite false m2 e2) = true <->
  e1 < e2 \/ (e1 = e2 /\ Zpos m1 <= Zpos m2).
Proof.
  rewrite leb_rank by reflexivity. simpl. lia.
Qed.

Lemma in_range_pos_finite (r : float) : in_range r -> pos_finite r = true.
Proof.
  unfold in_range. intros [Hlo Hhi]. revert Hlo Hhi.
  change minRate with (S754_finite false 16384000 (-14)).
  change maxRate with (S754_finite false 10240000 (-11)).
  destruct r as [[]|[]| |[] ? ?]; simpl; try reflexivity; discriminate.
Qed.

Lemma maxTransfer_from_In (conns : list Connection) (acc : float) :
  maxTransfer_from acc conns = acc \/
  exists c, In c conns /\ maxTransfer_from acc conns = getRate c.
Proof.
  revert acc. induction conns as [|c rest IH]; intros acc; [now left|].
  unfold maxTransfer_from in *. simpl.
  destruct (IH (if F32.gtb (getRate c) acc then getRate c else acc))
    as [Hacc|(c' & Hin & Hc')].
  - rewrite Hacc. destruct (F32.gtb (getRate c) acc).
    + right. exists c. split; [now left|reflexivity].
    + now left.
  - right. exists c'. split; [now right|exact Hc'].
Qed.

(** The height of a bar whose rate is at most the divisor. *)
Lemma height_bounded (r maxT : float) :
  F32.valid r = true -> F32.valid maxT = true ->
  pos_finite r = true -> pos_finite maxT = true ->
  F32.leb r maxT = true ->
  let h := F32.mul (F32.div r maxT) (F32.of_Z (height - 100)) in
  F32.leb F32.zero h = true /\ F32.leb h (F32.of_Z (height - 100)) = true.
Proof.
  intros Vr Vm Pr Pm Hle.
  destruct r as [| | |[] m1 e1]; try discriminate.
  destruct maxT as [| | |[] m2 e2]; try discriminate.
  destruct (valid_canonical _ _ _ Vr) as [Hc1 _].
  destruct (valid_canonical _ _ _ Vm) as [Hc2 _].
  apply leb_finite_lex in Hle.
  change (F32.of_Z (height - 100)) with (S754_finite false 9011200 (-13)).
  assert (Hc1100 : canonical F32.prec F32.emax (Zpos 9011200) (-13)) by reflexivity.
  destruct (SFdiv_le_one F32.prec F32.emax eq_refl ltac:(discriminate)
              8388608%positive eq_refl m1 e1 m2 e2 Hc1 Hc2 Hle)
    as [Hq|(mq & eq & Hq & Hcq & _ & Hq1)]; unfold F32.div; rewrite Hq.
  - split; reflexivity.
  - destruct (SFmul_le_r F32.prec F32.emax eq_refl ltac:(discriminate)
                8388608%positive eq_refl mq eq 9011200%positive (-13)
                Hcq Hc1100 ltac:(discriminate) Hq1)
      as [Hp|(mp & ep & Hp & _ & _ & Hp1)]; unfold F32.mul; rewrite Hp.
    + split; reflexivity.
    + split; [reflexivity|]. now apply leb_finite_lex.
Qed.






(** In a snapshot of binary32 rates within the simulation bounds every
    height of the layout is between 0 and [height - 100]. *)
Lemma heights_in_range (conns : list Connection) :
  Forall (fun c => F32.valid (getRate c) = true /\ in_range (getRate c)) conns ->
  Forall (fun g => F32.leb F32.zero (g_height g) = true /\
                   F32.leb (g_height g) (F32.of_Z (height - 100)) = true)
         (layout conns).
Proof.
  intros Hall. rewrite Forall_forall in Hall.
  apply Forall_forall. intros g Hg. unfold layout in Hg.
  destruct (In_geometries _ _ _ _ _ Hg) as (k & c & Hk & ->).
  apply nth_error_In in Hk.
  destruct (Hall c Hk) as [Vc Rc].
  pose proof (in_range_pos_finite _ Rc) as Pc.
  assert (Hnan : Forall (fun c => F32.is_nan (getRate c) = false) conns).
  { apply Forall_forall. intros c' Hc'. destruct (Hall c' Hc') as [_ [Hlo _]].
    eapply leb_not_nan_r. exact Hlo. }
  pose proof (maxTransfer_upper_bound conns Hnan) as Hmax.
  rewrite Forall_forall in Hmax. specialize (Hmax c Hk).
  unfold barGeometry. cbn [g_height].
  destruct (maxTransfer_from_In conns F32.zero) as [Hz|(c' & Hin' & Hc')];
    fold (maxTransfer conns) in *.
  - rewrite Hz in Hmax. destruct (getRate c) as [| | |[] ? ?]; discriminate.
  - destruct (Hall c' Hin') as [Vc' Rc'].
    rewrite Hc' in *. apply height_bounded; trivial.
    now apply in_range_pos_finite.
Qed.

(** ** Rounding in the normal range *)

Lemma pow2_split (a b : Z) : 0 <= a -> 0 <= b -> 2 ^ (a + b) = 2 ^ a * 2 ^ b.
Proof. intros. now apply Z.pow_add_r. Qed.

Lemma pow2_pos (a : Z) : 0 <= a -> 0 < 2 ^ a.
Proof. intros. now apply Z.pow_pos_nonneg. Qed.

Lemma Zdigits2_eq (m k : Z) : 0 < k -> 2 ^ (k - 1) <= m < 2 ^ k -> Zdigits2 m = k.
Proof.
  intros Hk [Hlo Hhi]. apply Z.le_antisymm.
  - apply Zdigits2_le; [lia|]. pose proof (pow2_pos (k - 1)). lia.
  - enough (k - 1 < Zdigits2 m) by lia. apply Zdigits2_gt; lia.
Qed.

Section RoundNormal.
Variables prec emax : Z.
Hypothesis prec_pos : 0 < prec.

(** With at least [prec] digits to round, away from underflow and overflow,
    the result is a normal number within one unit in the last place of the
    mantissa it was given. *)
Lemma binary_round_aux_normal (mx ex : Z) (lx : location) :
  0 < mx -> prec <= Zdigits2 mx ->
  emin prec emax <= Zdigits2 mx + ex - prec ->
  Zdigits2 mx + ex + 1 <= emax ->
  exists (m : positive) (e : Z),
    normal_pos prec emax (binary_round_aux prec emax false mx ex lx) m e /\
    e <= emax - prec /\
    Zdigits2 mx + ex - prec <= e <= Zdigits2 mx + ex - prec + 1 /\
    2 ^ (prec - 1) * (mx - Zpos m * 2 ^ (e - ex)) <= mx /\
    2 ^ (prec - 1) * (Zpos m * 2 ^ (e - ex) - mx) <= mx /\
    (lx = loc_Exact -> (2 ^ (Zdigits2 mx - prec) | mx) ->
     Zpos m * 2 ^ (e - ex) = mx).
Proof.
  intros Hmx Hd Hlo Hhi.
  assert (He1 : fexp prec emax (Zdigits2 mx + ex) = Zdigits2 mx + ex - prec)
    by (unfold fexp; lia).
  destruct (binary_round_aux_shape prec emax prec_pos false mx ex lx)
    as (m2 & m3 & e3 & Hm2 & Hm2e & He3 & Hm23 & Hm3 & Hc3 & Hres);
    [lia | lia |].
  rewrite He1 in *.
  replace (Zdigits2 mx + ex - prec - ex) with (Zdigits2 mx - prec) in * by lia.
  set (n := Zdigits2 mx - prec) in *.
  set (e1 := Zdigits2 mx + ex - prec) in *.
  assert (Hpn : 0 < 2 ^ n) by (apply pow2_pos; lia).
  assert (Hpp : 0 < 2 ^ (prec - 1)) by (apply pow2_pos; lia).
  destruct (Zdigits2_bounds mx Hmx) as [Hmxlo _].
  replace (Zdigits2 mx - 1) with (n + (prec - 1)) in Hmxlo by (unfold n; lia).
  rewrite pow2_split in Hmxlo by lia.
  pose proof (Z.mul_div_le mx (2 ^ n) Hpn) as Hq1.
  pose proof (Z.mul_succ_div_gt mx (2 ^ n) Hpn) as Hq2.
  assert (Hm1 : 2 ^ (prec - 1) <= mx / 2 ^ n)
    by (apply Z.div_le_lower_bound; lia).
  assert (Hpe : 0 < 2 ^ (e3 - e1)) by (apply pow2_pos; lia).
  destruct m3 as [|m|m]; [nia| |lia].
  destruct Hc3 as [|Hc3]; [discriminate|].
  assert (HM : Zpos m * 2 ^ (e3 - ex) = m2 * 2 ^ n).
  { replace (e3 - ex) with (e3 - e1 + n) by (unfold e1, n; lia).
    rewrite pow2_split by lia. lia. }
  exists m, e3. rewrite HM.
  assert (Hdm : Zdigits2 (Zpos m) = prec).
  { pose proof (proj1 (canonical_iff prec emax _ _) Hc3) as (Hle & _ & Hor).
    destruct Hor as [|He3m]; trivial.
    assert (He0 : e3 - e1 = 0) by lia.
    rewrite He0, Z.pow_0_r, Z.mul_1_r in Hm23.
    apply Z.le_antisymm; trivial.
    enough (prec - 1 < Zdigits2 (Zpos m)) by lia.
    apply Zdigits2_gt; lia. }
  repeat split; trivial; try lia; try nia.
  - rewrite Hres.
    now replace (e3 <=? emax - prec) with true by (symmetry; apply Z.leb_le; lia).
  - intros Hl Hdiv. rewrite (Hm2e Hl Hdiv).
    destruct Hdiv as [c Hc]. rewrite Hc at 1. rewrite Z.div_mul by lia. lia.
Qed.

End RoundNormal.

Lemma iter_xO_pow (m d : positive) :
  Zpos (Pos.iter xO m d) = Zpos m * 2 ^ Zpos d.
Proof.
  induction d as [|d IH] using Pos.peano_ind.
  - simpl. lia.
  - rewrite Pos.iter_succ, Pos2Z.inj_xO, IH, Pos2Z.inj_succ, Z.pow_succ_r by lia.
    lia.
Qed.

Lemma shl_align_fst (mx : positive) (ex ex' : Z) :
  ex' <= ex -> Zpos (fst (shl_align mx ex ex')) = Zpos mx * 2 ^ (ex - ex').
Proof.
  intros Hle. unfold shl_align. destruct (ex' - ex) as [|d|d] eqn:E; try lia.
  - replace (ex - ex') with 0 by lia. simpl. lia.
  - cbn [fst]. rewrite iter_xO_pow. f_equal. f_equal. lia.
Qed.

Lemma shl_align_id (mx : positive) (ex ex' : Z) :
  ex <= ex' -> shl_align mx ex ex' = (mx, ex).
Proof.
  intros Hle. unfold shl_align. destruct (ex' - ex) eqn:E; trivial; lia.
Qed.

Lemma shl_align_shift (mx : positive) (ex ex' : Z) :
  ex' <= ex ->
  exists mz, shl_align mx ex ex' = (mz, ex') /\ Zpos mz = Zpos mx * 2 ^ (ex - ex').
Proof.
  intros Hle. pose proof (shl_align_fst mx ex ex' Hle) as Hf.
  unfold shl_align in *. destruct (ex' - ex) as [|d|d] eqn:E; try lia.
  - exists mx. split; [f_equal; lia | exact Hf].
  - eexists. split; [reflexivity | exact Hf].
Qed.

Lemma Zdigits2_mul_le (a b : Z) :
  0 < a -> 0 < b -> Zdigits2 (a * b) <= Zdigits2 a + Zdigits2 b.
Proof.
  intros Ha Hb.
  destruct (Zdigits2_bounds a Ha) as [_ Hha].
  destruct (Zdigits2_bounds b Hb) as [_ Hhb].
  pose proof (Zdigits2_nonneg a). pose proof (Zdigits2_nonneg b).
  apply Zdigits2_le; [lia|]. rewrite pow2_split by lia. nia.
Qed.

Lemma Zdigits2_shift (m k : Z) :
  0 < m -> 0 <= k -> Zdigits2 (m * 2 ^ k) = Zdigits2 m + k.
Proof.
  intros Hm Hk. destruct (Zdigits2_bounds m Hm) as [Hlo Hhi].
  assert (0 < Zdigits2 m) by (destruct m; simpl; lia).
  pose proof (pow2_pos k Hk).
  apply Zdigits2_eq; [lia|].
  replace (Zdigits2 m + k - 1) with (Zdigits2 m - 1 + k) by lia.
  rewrite !pow2_split by lia. nia.
Qed.

Section OpsNormal.
Variables prec emax : Z.
Hypothesis prec_pos : 0 < prec.

Lemma normal_pos_bounds (x : float) (m : positive) (e : Z) :
  normal_pos prec emax x m e ->
  2 ^ (prec - 1) <= Zpos m < 2 ^ prec /\ emin prec emax <= e.
Proof.
  intros (_ & Hc & Hd).
  destruct (Zdigits2_bounds (Zpos m) (Pos2Z.is_pos m)) as [Hlo Hhi].
  rewrite Hd in Hlo, Hhi. split; [lia|].
  apply canonical_iff in Hc. lia.
Qed.

(** The product of two positive normal numbers. *)
Lemma SFmul_normal (a b : float) (ma : positive) (ea : Z) (mb : positive) (eb : Z) :
  normal_pos prec emax a ma ea -> normal_pos prec emax b mb eb ->
  emin prec emax <= ea + eb + prec - 1 ->
  ea + eb + 2 * prec + 1 <= emax ->
  exists (m : positive) (e : Z),
    normal_pos prec emax (SFmul prec emax a b) m e /\
    e <= emax - prec /\
    ea + eb + prec - 1 <= e <= ea + eb + prec + 1 /\
    2 ^ (prec - 1) * (Zpos ma * Zpos mb - Zpos m * 2 ^ (e - (ea + eb)))
      <= Zpos ma * Zpos mb /\
    2 ^ (prec - 1) * (Zpos m * 2 ^ (e - (ea + eb)) - Zpos ma * Zpos mb)
      <= Zpos ma * Zpos mb.
Proof.
  intros Ha Hb Hlo Hhi.
  destruct (normal_pos_bounds _ _ _ Ha) as [Hma _].
  destruct (normal_pos_bounds _ _ _ Hb) as [Hmb _].
  destruct Ha as (-> & Hca & Hda). destruct Hb as (-> & Hcb & Hdb).
  unfold SFmul. cbn [xorb]. rewrite Pos2Z.inj_mul.
  pose proof (Zdigits2_mul_ge (Zpos ma) (Zpos mb) eq_refl eq_refl) as Hd1.
  pose proof (Zdigits2_mul_le (Zpos ma) (Zpos mb) eq_refl eq_refl) as Hd2.
  rewrite Hda, Hdb in Hd1, Hd2.
  destruct (binary_round_aux_normal prec emax prec_pos
              (Zpos ma * Zpos mb) (ea + eb) loc_Exact)
    as (m & e & Hn & Hb & He & Herr1 & Herr2 & _); try lia.
  exists m, e. repeat split; trivial; try apply Hn; lia.
Qed.

(** The sum of two positive normal numbers is the rounding of the exact sum
    of the mantissas aligned on the smaller exponent. *)
Lemma SFadd_raw (a b : float) (ma : positive) (ea : Z) (mb : positive) (eb : Z) :
  normal_pos prec emax a ma ea -> normal_pos prec emax b mb eb ->
  let ez := Z.min ea eb in
  let s := Zpos ma * 2 ^ (ea - ez) + Zpos mb * 2 ^ (eb - ez) in
  SFadd prec emax a b = binary_round_aux prec emax false s ez loc_Exact /\
  0 < s /\
  prec + (Z.max ea eb - ez) <= Zdigits2 s <= prec + (Z.max ea eb - ez) + 1.
Proof.
  intros Ha Hb ez s.
  destruct (normal_pos_bounds _ _ _ Ha) as [Hma Hea].
  destruct (normal_pos_bounds _ _ _ Hb) as [Hmb Heb].
  destruct Ha as (-> & Hca & Hda). destruct Hb as (-> & Hcb & Hdb).
  unfold SFadd. fold ez. cbn [cond_Zopp].
  pose proof (shl_align_fst ma ea ez ltac:(unfold ez; lia)) as Hsa.
  pose proof (shl_align_fst mb eb ez ltac:(unfold ez; lia)) as Hsb.
  set (ma' := fst (shl_align ma ea ez)) in *.
  set (mb' := fst (shl_align mb eb ez)) in *.
  change (Zpos ma' + Zpos mb') with (Zpos (ma' + mb')).
  cbn [binary_normalize]. unfold binary_round.
  assert (Hs : Zpos (ma' + mb') = s) by (unfold s; lia).
  assert (Hpa : 0 < 2 ^ (ea - ez)) by (apply pow2_pos; unfold ez; lia).
  assert (Hpb : 0 < 2 ^ (eb - ez)) by (apply pow2_pos; unfold ez; lia).
  (* the size of the sum *)
  assert (Hslo : 2 ^ (prec - 1 + (Z.max ea eb - ez)) <= s).
  { unfold s. destruct (Z.le_ge_cases ea eb).
    - replace (Z.max ea eb) with eb by lia.
      rewrite pow2_split by (unfold ez; lia). nia.
    - replace (Z.max ea eb) with ea by lia.
      rewrite pow2_split by (unfold ez; lia). nia. }
  assert (Hshi : s < 2 ^ (prec + (Z.max ea eb - ez) + 1)).
  { assert (Hx : 2 ^ (ea - ez) <= 2 ^ (Z.max ea eb - ez))
      by (apply Z.pow_le_mono_r; lia).
    assert (Hy : 2 ^ (eb - ez) <= 2 ^ (Z.max ea eb - ez))
      by (apply Z.pow_le_mono_r; lia).
    assert (0 < 2 ^ prec) by (apply pow2_pos; lia).
    rewrite (pow2_split _ 1), (pow2_split prec) by (unfold ez; lia).
    change (2 ^ 1) with 2. unfold s. nia. }
  assert (Hds : prec + (Z.max ea eb - ez) <= Zdigits2 s <= prec + (Z.max ea eb - ez) + 1).
  { split.
    - enough (prec - 1 + (Z.max ea eb - ez) < Zdigits2 s) by lia.
      apply Zdigits2_gt; [unfold ez; lia | exact Hslo].
    - apply Zdigits2_le; [unfold ez; lia|]. split; [lia | exact Hshi]. }
  change (Zpos (digits2_pos (ma' + mb'))) with (Zdigits2 (Zpos (ma' + mb'))).
  rewrite Hs.
  rewrite shl_align_id by (unfold fexp; unfold ez in *; lia).
  rewrite Hs. repeat split; trivial; lia.
Qed.

Lemma SFadd_normal (a b : float) (ma : positive) (ea : Z) (mb : positive) (eb : Z) :
  normal_pos prec emax a ma ea -> normal_pos prec emax b mb eb ->
  prec + Z.max ea eb + 2 <= emax ->
  let ez := Z.min ea eb in
  let s := Zpos ma * 2 ^ (ea - ez) + Zpos mb * 2 ^ (eb - ez) in
  exists (m : positive) (e : Z),
    normal_pos prec emax (SFadd prec emax a b) m e /\
    e <= emax - prec /\ ez <= e /\
    2 ^ (prec - 1) * (s - Zpos m * 2 ^ (e - ez)) <= s /\
    2 ^ (prec - 1) * (Zpos m * 2 ^ (e - ez) - s) <= s.
Proof.
  intros Ha Hb Hhi ez s.
  destruct (normal_pos_bounds _ _ _ Ha) as [_ Hea].
  destruct (normal_pos_bounds _ _ _ Hb) as [_ Heb].
  destruct (SFadd_raw a b ma ea mb eb Ha Hb) as (-> & Hs & Hds).
  fold ez s in Hs, Hds |- *.
  destruct (binary_round_aux_normal prec emax prec_pos s ez loc_Exact)
    as (m & e & Hn & Hb' & He & Herr1 & Herr2 & _);
    try (unfold ez in *; lia).
  exists m, e. repeat split; trivial; try apply Hn; unfold ez in *; lia.
Qed.

(** A sum of two positive normal numbers does not round above a
    representable value that the exact sum does not exceed. *)
Lemma SFadd_le (a b : float) (ma : positive) (ea : Z) (mb : positive) (eb : Z)
      (mf : positive) (ef : Z) :
  normal_pos prec emax a ma ea -> normal_pos prec emax b mb eb ->
  canonical prec emax (Zpos mf) ef -> ef <= emax - prec ->
  let ez := Z.min ea eb in
  ez <= ef ->
  Zpos ma * 2 ^ (ea - ez) + Zpos mb * 2 ^ (eb - ez) <= Zpos mf * 2 ^ (ef - ez) ->
  SFadd prec emax a b = S754_zero false \/
  exists (m : positive) (e : Z),
    SFadd prec emax a b = S754_finite false m e /\
    canonical prec emax (Zpos m) e /\ e <= emax - prec /\
    (e < ef \/ (e = ef /\ Zpos m <= Zpos mf)).
Proof.
  intros Ha Hb Hcf Hbf ez Hez Hval.
  destruct (normal_pos_bounds _ _ _ Ha) as [_ Hea].
  destruct (normal_pos_bounds _ _ _ Hb) as [_ Heb].
  destruct (SFadd_raw a b ma ea mb eb Ha Hb) as (-> & Hs & Hds).
  fold ez in Hs, Hds |- *.
  apply binary_round_aux_le; trivial; try lia.
  unfold fexp. unfold ez in *. lia.
Qed.

(** The quotient of two positive normal numbers. *)
Lemma SFdiv_normal (a b : float) (ma : positive) (ea : Z) (mb : positive) (eb : Z) :
  normal_pos prec emax a ma ea -> normal_pos prec emax b mb eb ->
  emin prec emax <= ea - eb - prec ->
  ea - eb + 2 <= emax ->
  let q := Zpos ma * 2 ^ prec / Zpos mb in
  exists (m : positive) (e : Z),
    normal_pos prec emax (SFdiv prec emax a b) m e /\
    e <= emax - prec /\
    ea - eb - prec <= e <= ea - eb - prec + 2 /\
    2 ^ (prec - 1) * (Zpos m * 2 ^ (e - (ea - eb - prec)) - q) <= q.
Proof.
  intros Ha Hb Hlo Hhi q.
  destruct (normal_pos_bounds _ _ _ Ha) as [Hma _].
  destruct (normal_pos_bounds _ _ _ Hb) as [Hmb _].
  destruct Ha as (-> & Hca & Hda). destruct Hb as (-> & Hcb & Hdb).
  unfold SFdiv, SFdiv_core_binary. cbn [xorb]. rewrite Hda, Hdb.
  assert (He' : Z.min (fexp prec emax (prec + ea - (prec + eb))) (ea - eb)
                = ea - eb - prec) by (unfold fexp; lia).
  rewrite He'.
  replace (ea - eb - (ea - eb - prec)) with prec by lia.
  rewrite (shift_mantissa (Zpos ma) prec) by lia.
  pose proof (Z_div_mod (Zpos ma * 2 ^ prec) (Zpos mb) eq_refl) as Hdm.
  assert (Hq : q = fst (Z.div_eucl (Zpos ma * 2 ^ prec) (Zpos mb))) by reflexivity.
  destruct (Z.div_eucl (Zpos ma * 2 ^ prec) (Zpos mb)) as [qz rz].
  cbn [fst] in Hq. subst qz. destruct Hdm as [Hdm Hrz].
  assert (Hpp : 2 ^ prec = 2 * 2 ^ (prec - 1)).
  { replace prec with (Z.succ (prec - 1)) at 1 by lia.
    now rewrite Z.pow_succ_r by lia. }
  assert (Hp1 : 0 < 2 ^ (prec - 1)) by (apply pow2_pos; lia).
  assert (Hqlo : 2 ^ (prec - 1) <= q) by nia.
  assert (Hqhi : q < 2 ^ (prec + 1)).
  { rewrite (pow2_split prec 1) by lia. change (2 ^ 1) with 2. nia. }
  assert (Hdq : prec <= Zdigits2 q <= prec + 1).
  { split.
    - enough (prec - 1 < Zdigits2 q) by lia. apply Zdigits2_gt; lia.
    - apply Zdigits2_le; lia. }
  destruct (binary_round_aux_normal prec emax prec_pos q (ea - eb - prec)
              (new_location (Zpos mb) rz))
    as (m & e & Hn & Hb & He & _ & Herr2 & _); try lia.
  exists m, e. repeat split; trivial; try apply Hn; lia.
Qed.

(** Conversion of a positive integer that fits the mantissa. *)
Lemma binary_normalize_exact (k : Z) :
  0 < k < 2 ^ prec -> prec < emax -> emin prec emax <= - prec ->
  exists (m : positive) (e : Z),
    normal_pos prec emax (binary_normalize prec emax k 0 false) m e /\
    e <= emax - prec /\ - prec < e <= 0 /\ Zpos m = k * 2 ^ (- e).
Proof.
  intros [Hk0 Hk] Hpe Hem.
  destruct k as [|p|p]; try lia. cbn [binary_normalize]. unfold binary_round.
  change (Zpos (digits2_pos p)) with (Zdigits2 (Zpos p)).
  set (d := Zdigits2 (Zpos p)).
  assert (Hd : 0 < d <= prec).
  { split; [unfold d; simpl; lia|]. apply Zdigits2_le; lia. }
  rewrite Z.add_0_r.
  assert (Hf : fexp prec emax d = d - prec) by (unfold fexp; lia).
  rewrite Hf.
  destruct (shl_align_shift p 0 (d - prec) ltac:(lia)) as (mz & -> & Hmz).
  replace (0 - (d - prec)) with (prec - d) in Hmz by lia.
  assert (Hdz : Zdigits2 (Zpos mz) = prec).
  { rewrite Hmz, Zdigits2_shift by lia. fold d. lia. }
  destruct (binary_round_aux_normal prec emax prec_pos (Zpos mz) (d - prec) loc_Exact)
    as (m & e & Hn & Hb & He & _ & _ & Hex); try lia.
  rewrite Hdz in *.
  assert (Hee : e = d - prec).
  { destruct He as [He1 He2].
    destruct (Z.eq_dec e (d - prec)) as [|Hne]; trivial. exfalso.
    assert (He3 : e - (d - prec) = 1) by lia.
    specialize (Hex eq_refl).
    rewrite Z.sub_diag in Hex. specialize (Hex (Z.divide_1_l _)).
    rewrite He3 in Hex. change (2 ^ 1) with 2 in Hex.
    destruct (normal_pos_bounds _ _ _ Hn) as [[Hm1 Hm2] _].
    destruct (Zdigits2_bounds (Zpos mz) eq_refl) as [_ Hz]. rewrite Hdz in Hz.
    assert (Hpp : 2 ^ prec = 2 * 2 ^ (prec - 1)).
    { replace prec with (Z.succ (prec - 1)) at 1 by lia.
      now rewrite Z.pow_succ_r by lia. }
    lia. }
  exists m, e. repeat split; trivial; try apply Hn; try lia.
  specialize (Hex eq_refl). rewrite Z.sub_diag in Hex.
  specialize (Hex (Z.divide_1_l _)). subst e.
  rewrite Z.sub_diag, Z.mul_1_r in Hex. rewrite Hex, Hmz. do 2 f_equal. lia.
Qed.

End OpsNormal.

(** ** Values as rationals *)

Lemma two_pow_pos (e : Z) : (0 < 2 ^ e)%Q.
Proof. apply Qpower_0_lt. reflexivity. Qed.

Lemma two_pow_add (a b : Z) : (2 ^ (a + b) == 2 ^ a * 2 ^ b)%Q.
Proof. apply Qpower_plus. discriminate. Qed.

Lemma inject_pow (k : Z) : 0 <= k -> (inject_Z (2 ^ k) == 2 ^ k)%Q.
Proof. intros Hk. now rewrite Zpower_Qpower. Qed.

Lemma inject_scaled (m e e0 : Z) :
  e0 <= e -> (inject_Z (m * 2 ^ (e - e0)) * 2 ^ e0 == inject_Z m * 2 ^ e)%Q.
Proof.
  intros Hle. rewrite inject_Z_mult, inject_pow by lia.
  replace e with (e - e0 + e0) at 2 by lia.
  rewrite two_pow_add. ring.
Qed.

Lemma B2Q_normal (x : float) (m : positive) (e : Z) :
  normal_pos F32.prec F32.emax x m e -> (B2Q x == inject_Z (Zpos m) * 2 ^ e)%Q.
Proof. intros (-> & _). reflexivity. Qed.

Lemma B2Q_normal_pos (x : float) (m : positive) (e : Z) :
  normal_pos F32.prec F32.emax x m e -> (0 < B2Q x)%Q.
Proof.
  intros Hn. rewrite (B2Q_normal _ _ _ Hn).
  apply Qmult_lt_0_compat; [|apply two_pow_pos].
  rewrite <- (Zlt_Qlt 0). reflexivity.
Qed.

(** From an order between values to the order between scaled mantissas. *)
Lemma scaled_le (m1 e1 m2 e2 e0 : Z) :
  e0 <= e1 -> e0 <= e2 ->
  (inject_Z m1 * 2 ^ e1 <= inject_Z m2 * 2 ^ e2)%Q ->
  m1 * 2 ^ (e1 - e0) <= m2 * 2 ^ (e2 - e0).
Proof.
  intros H1 H2 Hle.
  rewrite <- (inject_scaled m1 e1 e0 H1), <- (inject_scaled m2 e2 e0 H2) in Hle.
  apply Qmult_le_r in Hle; [|apply two_pow_pos].
  now rewrite Zle_Qle.
Qed.

(** An error of one unit in the last place, as a relative error. *)
Lemma rel_err (mx M : Z) (t v r : Q) :
  2 ^ (F32.prec - 1) * (mx - M) <= mx ->
  2 ^ (F32.prec - 1) * (M - mx) <= mx ->
  (0 < t)%Q -> (v == inject_Z mx * t)%Q -> (r == inject_Z M * t)%Q ->
  ((1 - u32) * v <= r /\ r <= (1 + u32) * v)%Q.
Proof.
  change (2 ^ (F32.prec - 1)) with 8388608.
  intros H1 H2 Ht Hv Hr.
  unfold Z.sub in H1, H2.
  rewrite Zle_Qle, inject_Z_mult, inject_Z_plus, inject_Z_opp in H1, H2.
  rewrite Hv, Hr. unfold u32.
  set (a := inject_Z mx) in *. set (b := inject_Z M) in *.
  change (inject_Z 8388608) with (8388608 # 1)%Q in *.
  split.
  - setoid_replace ((1 - (1 # 8388608)) * (a * t))%Q
      with (((1 - (1 # 8388608)) * a) * t)%Q by ring.
    apply Qmult_le_r; trivial. lra.
  - setoid_replace ((1 + (1 # 8388608)) * (a * t))%Q
      with (((1 + (1 # 8388608)) * a) * t)%Q by ring.
    apply Qmult_le_r; trivial. lra.
Qed.

(** ** binary32 operations on positive normal numbers, by value *)

Lemma emin32 : emin F32.prec F32.emax = -149.
Proof. reflexivity. Qed.

Lemma mul_val (a b : float) (ma : positive) (ea : Z) (mb : positive) (eb : Z) :
  normal_pos F32.prec F32.emax a ma ea -> normal_pos F32.prec F32.emax b mb eb ->
  -172 <= ea + eb <= 79 ->
  exists (m : positive) (e : Z),
    normal_pos F32.prec F32.emax (F32.mul a b) m e /\
    ea + eb + 23 <= e <= ea + eb + 25 /\
    ((1 - u32) * (B2Q a * B2Q b) <= B2Q (F32.mul a b) /\
     B2Q (F32.mul a b) <= (1 + u32) * (B2Q a * B2Q b))%Q.
Proof.
  intros Ha Hb He.
  destruct (SFmul_normal F32.prec F32.emax eq_refl a b ma ea mb eb Ha Hb)
    as (m & e & Hn & _ & Her & Herr1 & Herr2);
    [rewrite emin32; unfold F32.prec; lia | unfold F32.prec, F32.emax; lia |].
  exists m, e. split; [exact Hn|]. split; [unfold F32.prec in Her; lia|].
  apply (rel_err (Zpos ma * Zpos mb) (Zpos m * 2 ^ (e - (ea + eb))) (2 ^ (ea + eb)));
    trivial.
  - apply two_pow_pos.
  - rewrite (B2Q_normal _ _ _ Ha), (B2Q_normal _ _ _ Hb), inject_Z_mult, two_pow_add.
    ring.
  - unfold F32.mul. rewrite (B2Q_normal _ _ _ Hn).
    symmetry. apply inject_scaled. unfold F32.prec in Her. lia.
Qed.

Lemma add_val (a b : float) (ma : positive) (ea : Z) (mb : positive) (eb : Z) :
  normal_pos F32.prec F32.emax a ma ea -> normal_pos F32.prec F32.emax b mb eb ->
  Z.max ea eb <= 102 ->
  exists (m : positive) (e : Z),
    normal_pos F32.prec F32.emax (F32.add a b) m e /\
    e <= 104 /\
    ((1 - u32) * (B2Q a + B2Q b) <= B2Q (F32.add a b) /\
     B2Q (F32.add a b) <= (1 + u32) * (B2Q a + B2Q b))%Q.
Proof.
  intros Ha Hb He.
  destruct (SFadd_normal F32.prec F32.emax eq_refl a b ma ea mb eb Ha Hb)
    as (m & e & Hn & Hbd & Hez & Herr1 & Herr2);
    [unfold F32.prec, F32.emax; lia |].
  exists m, e. split; [exact Hn|]. split; [unfold F32.prec, F32.emax in Hbd; lia|].
  apply (rel_err (Zpos ma * 2 ^ (ea - Z.min ea eb) + Zpos mb * 2 ^ (eb - Z.min ea eb))
                 (Zpos m * 2 ^ (e - Z.min ea eb)) (2 ^ Z.min ea eb)); trivial.
  - apply two_pow_pos.
  - rewrite (B2Q_normal _ _ _ Ha), (B2Q_normal _ _ _ Hb), inject_Z_plus.
    rewrite Qmult_plus_distr_l, !inject_scaled by lia. reflexivity.
  - unfold F32.add. rewrite (B2Q_normal _ _ _ Hn).
    symmetry. now apply inject_scaled.
Qed.

Lemma div_val (a b : float) (ma : positive) (ea : Z) (mb : positive) (eb : Z) :
  normal_pos F32.prec F32.emax a ma ea -> normal_pos F32.prec F32.emax b mb eb ->
  -125 <= ea - eb <= 126 ->
  exists (m : positive) (e : Z),
    normal_pos F32.prec F32.emax (F32.div a b) m e /\
    ea - eb - 24 <= e <= ea - eb - 22 /\
    (B2Q (F32.div a b) * B2Q b <= (1 + u32) * B2Q a)%Q.
Proof.
  intros Ha Hb He.
  destruct (SFdiv_normal F32.prec F32.emax eq_refl a b ma ea mb eb Ha Hb)
    as (m & e & Hn & _ & Her & Herr);
    [rewrite emin32; unfold F32.prec; lia | unfold F32.emax; lia |].
  exists m, e. split; [exact Hn|]. split; [unfold F32.prec in Her; lia|].
  unfold F32.prec in Her, Herr.
  change (2 ^ (24 - 1)) with 8388608 in Herr. change (2 ^ 24) with 16777216 in Herr.
  set (M := Zpos m * 2 ^ (e - (ea - eb - 24))) in *.
  pose proof (Z.mul_div_le (Zpos ma * 16777216) (Zpos mb) eq_refl) as Hq.
  assert (Hz : 8388608 * (M * Zpos mb) <= 8388609 * (Zpos ma * 16777216)) by nia.
  rewrite Zle_Qle, !inject_Z_mult in Hz.
  unfold F32.div. rewrite (B2Q_normal _ _ _ Hn), (B2Q_normal _ _ _ Ha), (B2Q_normal _ _ _ Hb).
  rewrite <- (inject_scaled (Zpos m) e (ea - eb - 24)) by lia. fold M.
  assert (E2 : (2 ^ (ea - eb - 24) * 2 ^ eb == 2 ^ (ea - 24))%Q).
  { rewrite <- two_pow_add. now replace (ea - eb - 24 + eb) with (ea - 24) by lia. }
  assert (E3 : (2 ^ ea == inject_Z 16777216 * 2 ^ (ea - 24))%Q).
  { replace ea with (24 + (ea - 24)) at 1 by lia. now rewrite two_pow_add. }
  setoid_replace (inject_Z M * 2 ^ (ea - eb - 24) * (inject_Z (Zpos mb) * 2 ^ eb))%Q
    with ((inject_Z M * inject_Z (Zpos mb)) * (2 ^ (ea - eb - 24) * 2 ^ eb))%Q by ring.
  rewrite E2, E3.
  setoid_replace ((1 + u32) * (inject_Z (Zpos ma) * (inject_Z 16777216 * 2 ^ (ea - 24))))%Q
    with (((1 + u32) * (inject_Z (Zpos ma) * inject_Z 16777216)) * 2 ^ (ea - 24))%Q
    by ring.
  apply Qmult_le_r; [apply two_pow_pos|].
  unfold u32.
  change (inject_Z 8388608) with (8388608 # 1)%Q in Hz.
  change (inject_Z 8388609) with (8388609 # 1)%Q in Hz.
  set (x := (inject_Z M * inject_Z (Zpos mb))%Q) in *.
  set (y := (inject_Z (Zpos ma) * inject_Z 16777216)%Q) in *.
  lra.
Qed.

Lemma of_Z_val (k : Z) :
  0 < k < 16777216 ->
  exists (m : positive) (e : Z),
    normal_pos F32.prec F32.emax (F32.of_Z k) m e /\
    -24 < e <= 0 /\
    (B2Q (F32.of_Z k) == inject_Z k)%Q.
Proof.
  intros Hk.
  destruct (binary_normalize_exact F32.prec F32.emax eq_refl k)
    as (m & e & Hn & _ & He & Hm);
    [exact Hk | reflexivity | rewrite emin32; unfold F32.prec; lia |].
  exists m, e. split; [exact Hn|]. split; [unfold F32.prec in He; lia|].
  unfold F32.of_Z. rewrite (B2Q_normal _ _ _ Hn), Hm.
  replace (- e) with (0 - e) by lia.
  rewrite inject_scaled by lia. change (2 ^ 0)%Q with 1%Q. ring.
Qed.

Lemma ltb_finite_lex (m1 : positive) (e1 : Z) (m2 : positive) (e2 : Z) :
  F32.ltb (S754_finite false m1 e1) (S754_finite false m2 e2) = true <->
  e1 < e2 \/ (e1 = e2 /\ Zpos m1 < Zpos m2).
Proof.
  unfold F32.ltb, SFltb. simpl. rewrite compare_cont_Eq_spec.
  destruct (Z.compare_spec e1 e2); destruct (Z.compare_spec (Zpos m1) (Zpos m2));
    split; try discriminate; try reflexivity; lia.
Qed.

Lemma val_le_lex (x y : float) (mx : positive) (ex : Z) (my : positive) (ey : Z) :
  normal_pos F32.prec F32.emax x mx ex -> normal_pos F32.prec F32.emax y my ey ->
  (B2Q x <= B2Q y)%Q ->
  ex < ey \/ (ex = ey /\ Zpos mx <= Zpos my).
Proof.
  intros Hx Hy Hle.
  rewrite (B2Q_normal _ _ _ Hx), (B2Q_normal _ _ _ Hy) in Hle.
  apply (canonical_value_lex F32.prec F32.emax eq_refl
           (Zpos mx) ex (Zpos my) ey (Z.min ex ey));
    try reflexivity; try apply Hx; try apply Hy; try lia.
  apply scaled_le; trivial; lia.
Qed.

Lemma val_lt_ltb (x y : float) (mx : positive) (ex : Z) (my : positive) (ey : Z) :
  normal_pos F32.prec F32.emax x mx ex -> normal_pos F32.prec F32.emax y my ey ->
  (B2Q x < B2Q y)%Q -> F32.ltb x y = true.
Proof.
  intros Hx Hy Hlt.
  destruct (val_le_lex x y mx ex my ey Hx Hy (Qlt_le_weak _ _ Hlt)) as [Hl|[He Hm]].
  - destruct Hx as (-> & _), Hy as (-> & _). apply ltb_finite_lex. now left.
  - rewrite (B2Q_normal _ _ _ Hx), (B2Q_normal _ _ _ Hy) in Hlt.
    destruct Hx as (-> & _), Hy as (-> & _). apply ltb_finite_lex. right.
    split; trivial. subst ey.
    destruct (Z.eq_dec (Zpos mx) (Zpos my)) as [Heq|]; [|lia].
    rewrite Heq in Hlt. exfalso. exact (Qlt_irrefl _ Hlt).
Qed.

(** The rounded sum stays below a representable value that is at least the
    exact sum. *)
Lemma add_le_val (a b f : float) (ma : positive) (ea : Z) (mb : positive) (eb : Z)
      (mf : positive) (ef : Z) :
  normal_pos F32.prec F32.emax a ma ea -> normal_pos F32.prec F32.emax b mb eb ->
  normal_pos F32.prec F32.emax f mf ef -> ef <= 104 ->
  (B2Q a + B2Q b <= B2Q f)%Q ->
  F32.leb (F32.add a b) f = true.
Proof.
  intros Ha Hb Hf Hef Hle.
  pose proof (B2Q_normal_pos _ _ _ Ha) as Pa.
  pose proof (B2Q_normal_pos _ _ _ Hb) as Pb.
  assert (Haf : ea <= ef).
  { destruct (val_le_lex a f ma ea mf ef Ha Hf); [lra | lia | lia]. }
  rewrite (B2Q_normal _ _ _ Ha), (B2Q_normal _ _ _ Hb), (B2Q_normal _ _ _ Hf) in Hle.
  rewrite <- (inject_scaled (Zpos ma) ea (Z.min ea eb)),
          <- (inject_scaled (Zpos mb) eb (Z.min ea eb)),
          <- (inject_scaled (Zpos mf) ef (Z.min ea eb)) in Hle by lia.
  rewrite <- !Qmult_plus_distr_l in Hle.
  apply Qmult_le_r in Hle; [|apply two_pow_pos].
  rewrite <- inject_Z_plus, <- Zle_Qle in Hle.
  destruct (SFadd_le F32.prec F32.emax eq_refl a b ma ea mb eb mf ef Ha Hb)
    as [Hz|(m & e & Hr & _ & _ & Hlex)]; trivial;
    try apply Hf; try (unfold F32.prec, F32.emax; lia);
    unfold F32.add; destruct Hf as (-> & _).
  - rewrite Hz. reflexivity.
  - rewrite Hr. now apply leb_finite_lex.
Qed.

(** ** Bar positions *)

Lemma of_Z_width_normal :
  normal_pos F32.prec F32.emax (F32.of_Z width) 13107200 (-13).
Proof. repeat split. Qed.

Lemma of_Z_2_normal : normal_pos F32.prec F32.emax (F32.of_Z 2) 8388608 (-22).
Proof. repeat split. Qed.

Lemma B2Q_of_Z_2 : (B2Q (F32.of_Z 2) == 2)%Q.
Proof. reflexivity. Qed.

(** For up to 2^24 - 1 channels the bar width is a positive normal number. *)
Lemma barWidth_normal (N : Z) :
  0 < N < 16777216 ->
  exists (mb : positive) (eb : Z),
    normal_pos F32.prec F32.emax (barWidth_of N) mb eb /\ -40 <= eb <= -13.
Proof.
  intros HN. unfold barWidth_of.
  destruct (of_Z_val N HN) as (mN & eN & HnN & HeN & _).
  destruct (mul_val _ _ _ _ _ _ HnN of_Z_2_normal) as (m2 & e2 & Hn2 & He2 & _);
    [lia|].
  destruct (div_val _ _ _ _ _ _ of_Z_width_normal Hn2) as (mb & eb & Hnb & Heb & _);
    [lia|].
  exists mb, eb. split; [exact Hnb | lia].
Qed.

Lemma half_val (bw : float) (mb : positive) (eb : Z) :
  normal_pos F32.prec F32.emax bw mb eb -> -40 <= eb <= -13 ->
  exists (mh : positive) (eh : Z),
    normal_pos F32.prec F32.emax (F32.div bw (F32.of_Z 2)) mh eh /\
    eb - 2 <= eh <= eb /\
    (2 * B2Q (F32.div bw (F32.of_Z 2)) <= (1 + u32) * B2Q bw)%Q.
Proof.
  intros Hb He.
  destruct (div_val _ _ _ _ _ _ Hb of_Z_2_normal) as (mh & eh & Hnh & Heh & Hv);
    [lia|].
  exists mh, eh. split; [exact Hnh|]. split; [lia|].
  rewrite B2Q_of_Z_2 in Hv. lra.
Qed.

(** The x position for the factor [k], within two roundings of
    [k * barWidth + barWidth / 2]. *)
Lemma bar_x_val (bw : float) (mb : positive) (eb : Z) (k : Z) :
  normal_pos F32.prec F32.emax bw mb eb -> -40 <= eb <= -13 ->
  0 <= k < 16777216 ->
  exists (m : positive) (e : Z),
    normal_pos F32.prec F32.emax (bar_x bw k) m e /\ e <= 104 /\
    (B2Q (bar_x bw k)
     <= (1 + u32) * ((1 + u32) * (inject_Z k * B2Q bw)
                     + B2Q (F32.div bw (F32.of_Z 2))))%Q /\
    (0 < k ->
     ((1 - u32) * ((1 - u32) * (inject_Z k * B2Q bw)
                   + B2Q (F32.div bw (F32.of_Z 2)))
      <= B2Q (bar_x bw k))%Q).
Proof.
  intros Hb He Hk. unfold bar_x.
  destruct (half_val bw mb eb Hb He) as (mh & eh & Hnh & Heh & _).
  pose proof (B2Q_normal_pos _ _ _ Hnh) as PH.
  pose proof (B2Q_normal_pos _ _ _ Hb) as Pb.
  set (H := B2Q (F32.div bw (F32.of_Z 2))) in *.
  set (b := B2Q bw) in *.
  destruct (Z.eq_dec k 0) as [->|Hnz].
  - (* the first bar: 0 * barWidth is +0, and +0 + h is h *)
    assert (Hx : F32.add (F32.mul (F32.of_Z 0) bw) (F32.div bw (F32.of_Z 2))
                 = F32.div bw (F32.of_Z 2)).
    { destruct Hb as (-> & _). destruct Hnh as (Hh & _).
      rewrite Hh. reflexivity. }
    rewrite Hx. fold H. exists mh, eh. split; [exact Hnh|]. split; [lia|].
    split; [|lia]. change (inject_Z 0) with 0%Q. unfold u32. lra.
  - destruct (of_Z_val k ltac:(lia)) as (mk & ek & Hnk & Hek & Hvk).
    destruct (mul_val _ _ _ _ _ _ Hnk Hb) as (mp & ep & Hnp & Hep & Hp1 & Hp2);
      [lia|].
    destruct (add_val _ _ _ _ _ _ Hnp Hnh) as (m & e & Hn & Hbd & Hx1 & Hx2);
      [lia|].
    fold H in Hx1, Hx2. fold b in Hp1, Hp2.
    rewrite Hvk in Hp1, Hp2.
    set (kb := (inject_Z k * b)%Q) in *.
    set (P := B2Q (F32.mul (F32.of_Z k) bw)) in *.
    set (X := B2Q (F32.add (F32.mul (F32.of_Z k) bw) (F32.div bw (F32.of_Z 2)))) in *.
    exists m, e. split; [exact Hn|]. split; [exact Hbd|].
    unfold u32 in *. split; [|intros _]; lra.
Qed.

(** Two bars apart, up to 2^20 channels: the positions are strictly
    increasing and a bar ends before the next one starts. *)
Lemma bar_x_separated (bw : float) (mb : positive) (eb : Z) (k : Z) :
  normal_pos F32.prec F32.emax bw mb eb -> -40 <= eb <= -13 ->
  0 <= k <= 2097148 ->
  F32.ltb (bar_x bw k) (bar_x bw (k + 2)) = true /\
  F32.leb (F32.add (bar_x bw k) bw) (bar_x bw (k + 2)) = true.
Proof.
  intros Hb He Hk.
  destruct (bar_x_val bw mb eb k Hb He ltac:(lia))
    as (m & e & Hn & Hbd & Hup & _).
  destruct (bar_x_val bw mb eb (k + 2) Hb He ltac:(lia))
    as (m' & e' & Hn' & Hbd' & _ & Hlo).
  specialize (Hlo ltac:(lia)).
  destruct (half_val bw mb eb Hb He) as (mh & eh & Hnh & _ & HH).
  pose proof (B2Q_normal_pos _ _ _ Hnh) as PH.
  pose proof (B2Q_normal_pos _ _ _ Hb) as Pb.
  set (H := B2Q (F32.div bw (F32.of_Z 2))) in *.
  set (b := B2Q bw) in *.
  assert (Hkb : (0 <= inject_Z k * b /\ inject_Z k * b <= 2097148 * b)%Q).
  { split.
    - apply Qmult_le_0_compat; [|lra]. rewrite <- (Zle_Qle 0). lia.
    - apply Qmult_le_compat_r; [|lra].
      change 2097148%Q with (inject_Z 2097148). rewrite <- Zle_Qle. lia. }
  setoid_replace (inject_Z (k + 2) * b)%Q with (inject_Z k * b + 2 * b)%Q in Hlo
    by (rewrite inject_Z_plus; change (inject_Z 2) with 2%Q; ring).
  set (kb := (inject_Z k * b)%Q) in *.
  set (X := B2Q (bar_x bw k)) in *. set (X' := B2Q (bar_x bw (k + 2))) in *.
  assert (Hsep : (X + b <= X')%Q) by (unfold u32 in *; lra).
  split.
  - apply (val_lt_ltb _ _ m e m' e' Hn Hn'). fold X X'. lra.
  - apply (add_le_val _ _ _ m e mb eb m' e' Hn Hb Hn' Hbd'). fold X b X'. exact Hsep.
Qed.

Lemma make_connections_length (j : Z) (n : nat) :
  List.length (make_connections j n) = n.
Proof. revert j. induction n as [|n IH]; intros j; simpl; auto. Qed.

Lemma nth_error_make_connections (n : nat) :
  forall (j : Z) (k : nat),
    (k < n)%nat ->
    nth_error (make_connections j n) k =
    Some (Connection_new ("Conn-" ++ to_string (j + Z.of_nat k + 1))).
Proof.
  induction n as [|n IH]; intros j k Hk; [lia|].
  destruct k as [|k].
  - cbn [make_connections nth_error].
    now replace (j + Z.of_nat 0 + 1) with (j + 1) by lia.
  - cbn [make_connections nth_error]. rewrite IH by lia.
    now replace (j + 1 + Z.of_nat k + 1) with (j + Z.of_nat (S k) + 1) by lia.
Qed.

(** The [k]-th bar of a layout, in terms of the snapshot size only. *)
Lemma layout_nth (conns : list Connection) (k : nat) (g : BarGeometry) :
  Z.of_nat (List.length conns) <= INT_MAX ->
  nth_error (layout conns) k = Some g ->
  g_width g = barWidth_of (Z.of_nat (List.length conns)) /\
  g_x g = bar_x (barWidth_of (Z.of_nat (List.length conns))) (Z.of_nat k * 2).
Proof.
  intros Hlen Hg.
  assert (Hk : (k < List.length conns)%nat).
  { rewrite <- (geometries_length (maxTransfer conns)
                  (barWidth_of (Z.of_nat (List.length conns))) conns 0).
    apply nth_error_Some. unfold layout in Hg. congruence. }
  destruct (nth_error conns k) as [c|] eqn:Hc;
    [|apply nth_error_None in Hc; lia].
  unfold layout in Hg. rewrite (nth_error_geometries _ _ _ _ _ _ Hc) in Hg.
  inversion Hg; subst g. unfold barGeometry, bar_x. cbn [g_width g_x].
  split; [reflexivity|].
  rewrite ?Z.add_0_l, Z.mod_small by (unfold INT_MAX, SIZE_MOD in *; lia).
  reflexivity.
Qed.

(** Consecutive bars of a layout of at most 2^20 channels. *)
Lemma consecutive_bars (conns : list Connection) (i : nat) (g g' : BarGeometry) :
  Z.of_nat (List.length conns) <= 2 ^ 20 ->
  nth_error (layout conns) i = Some g ->
  nth_error (layout conns) (S i) = Some g' ->
  g_width g = barWidth_of (Z.of_nat (List.length conns)) /\
  F32.ltb (g_x g) (g_x g') = true /\
  F32.leb (F32.add (g_x g) (g_width g)) (g_x g') = true.
Proof.
  intros Hlen Hg Hg'.
  assert (Hmax : Z.of_nat (List.length conns) <= INT_MAX)
    by (unfold INT_MAX; change (2 ^ 20) with 1048576 in Hlen; lia).
  destruct (layout_nth conns i g Hmax Hg) as [Hw Hx].
  destruct (layout_nth conns (S i) g' Hmax Hg') as [_ Hx'].
  assert (Hi : (S i < List.length conns)%nat).
  { rewrite <- (geometries_length (maxTransfer conns)
                  (barWidth_of (Z.of_nat (List.length conns))) conns 0).
    apply nth_error_Some. unfold layout in Hg'. congruence. }
  change (2 ^ 20) with 1048576 in Hlen.
  destruct (barWidth_normal (Z.of_nat (List.length conns)) ltac:(lia))
    as (mb & eb & Hb & Heb).
  split; [exact Hw|]. rewrite Hw, Hx, Hx'.
  replace (Z.of_nat (S i) * 2) with (Z.of_nat i * 2 + 2) by lia.
  apply (bar_x_separated _ mb eb); trivial. lia.
Qed.

(** Positions increase along the whole layout. *)
Lemma bars_increasing (conns : list Connection) (d i : nat) (g g' : BarGeometry) :
  Z.of_nat (List.length conns) <= 2 ^ 20 ->
  nth_error (layout conns) i = Some g ->
  nth_error (layout conns) (S (i + d)) = Some g' ->
  F32.ltb (g_x g) (g_x g') = true.
Proof.
  intros Hlen. revert g'. induction d as [|d IH]; intros g' Hg Hg'.
  - rewrite Nat.add_0_r in Hg'. now apply (consecutive_bars conns i g g').
  - destruct (nth_error (layout conns) (S (i + d))) as [g1|] eqn:H1.
    + apply ltb_trans with (g_x g1); [now apply IH|].
      apply (consecutive_bars conns (S (i + d)) g1 g'); trivial.
      now rewrite Nat.add_succ_r in Hg'.
    + apply nth_error_None in H1.
      assert (nth_error (layout conns) (S (i + S d)) <> None) by congruence.
      apply nth_error_Some in H. lia.
Qed.

(** Two bars apart, by value: the exact sum of a position and the bar width
    is at most the next position, all three being positive finite numbers. *)
Lemma bar_x_gap (bw : float) (mb : positive) (eb : Z) (k : Z) :
  normal_pos F32.prec F32.emax bw mb eb -> -40 <= eb <= -13 ->
  0 <= k <= 2097148 ->
  pos_finite (bar_x bw k) = true /\ pos_finite bw = true /\
  pos_finite (bar_x bw (k + 2)) = true /\
  (B2Q (bar_x bw k) + B2Q bw <= B2Q (bar_x bw (k + 2)))%Q.
Proof.
  intros Hb He Hk.
  destruct (bar_x_val bw mb eb k Hb He ltac:(lia))
    as (m & e & Hn & Hbd & Hup & _).
  destruct (bar_x_val bw mb eb (k + 2) Hb He ltac:(lia))
    as (m' & e' & Hn' & Hbd' & _ & Hlo).
  specialize (Hlo ltac:(lia)).
  destruct (half_val bw mb eb Hb He) as (mh & eh & Hnh & _ & HH).
  pose proof (B2Q_normal_pos _ _ _ Hnh) as PH.
  pose proof (B2Q_normal_pos _ _ _ Hb) as Pb.
  split; [destruct Hn as (-> & _); reflexivity|].
  split; [destruct Hb as (-> & _); reflexivity|].
  split; [destruct Hn' as (-> & _); reflexivity|].
  set (H := B2Q (F32.div bw (F32.of_Z 2))) in *.
  set (b := B2Q bw) in *.
  assert (Hkb : (0 <= inject_Z k * b /\ inject_Z k * b <= 2097148 * b)%Q).
  { split.
    - apply Qmult_le_0_compat; [|lra]. rewrite <- (Zle_Qle 0). lia.
    - apply Qmult_le_compat_r; [|lra].
      change 2097148%Q with (inject_Z 2097148). rewrite <- Zle_Qle. lia. }
  setoid_replace (inject_Z (k + 2) * b)%Q with (inject_Z k * b + 2 * b)%Q in Hlo
    by (rewrite inject_Z_plus; change (inject_Z 2) with 2%Q; ring).
  set (kb := (inject_Z k * b)%Q) in *.
  set (X := B2Q (bar_x bw k)) in *. set (X' := B2Q (bar_x bw (k + 2))) in *.
  unfold u32 in *. lra.
Qed.

(** Consecutive bars of a layout of at most 2^20 channels, by value. *)
Lemma consecutive_bars_gap (conns : list Connection) (i : nat) (g g' : BarGeometry) :
  Z.of_nat (List.length conns) <= 2 ^ 20 ->
  nth_error (layout conns) i = Some g ->
  nth_error (layout conns) (S i) = Some g' ->
  pos_finite (g_x g) = true /\ pos_finite (g_width g) = true /\
  pos_finite (g_x g') = true /\
  (B2Q (g_x g) + B2Q (g_width g) <= B2Q (g_x g'))%Q.
Proof.
  intros Hlen Hg Hg'.
  assert (Hmax : Z.of_nat (List.length conns) <= INT_MAX)
    by (unfold INT_MAX; change (2 ^ 20) with 1048576 in Hlen; lia).
  destruct (layout_nth conns i g Hmax Hg) as [Hw Hx].
  destruct (layout_nth conns (S i) g' Hmax Hg') as [_ Hx'].
  assert (Hi : (S i < List.length conns)%nat).
  { rewrite <- (geometries_length (maxTransfer conns)
                  (barWidth_of (Z.of_nat (List.length conns))) conns 0).
    apply nth_error_Some. unfold layout in Hg'. congruence. }
  change (2 ^ 20) with 1048576 in Hlen.
  destruct (barWidth_normal (Z.of_nat (List.length conns)) ltac:(lia))
    as (mb & eb & Hb & Heb).
  rewrite Hw, Hx, Hx'.
  replace (Z.of_nat (S i) * 2) with (Z.of_nat i * 2 + 2) by lia.
  apply (bar_x_gap _ mb eb); trivial. lia.
Qed.

(** ** A snapshot on which two bars coincide *)

Lemma same_position_aux (n k : nat) :
  Z.of_nat n = 16777218 -> Z.of_nat k = 16777216 ->
  exists g g' : BarGeometry,
    nth_error (layout (make_connections 0 n)) k = Some g /\
    nth_error (layout (make_connections 0 n)) (S k) = Some g' /\
    g_x g = g_x g' /\
    F32.ltb (g_x g) (g_x g') = false.
Proof.
  intros Hn Hk.
  pose proof (nth_error_make_connections n 0 k ltac:(lia)) as Hc.
  pose proof (nth_error_make_connections n 0 (S k) ltac:(lia)) as Hc'.
  unfold layout. rewrite make_connections_length, Hn.
  rewrite (nth_error_geometries _ _ _ _ _ _ Hc), (nth_error_geometries _ _ _ _ _ _ Hc').
  do 2 eexists. split; [reflexivity|]. split; [reflexivity|].
  unfold barGeometry. cbn [g_x].
  replace (0 + Z.of_nat k) with 16777216 by lia.
  replace (0 + Z.of_nat (S k)) with 16777217 by lia.
  split; vm_compute; reflexivity.
Qed.

(** * The claims *)

(** C1.  After a simulation tick every channel's rate is between [minRate]
    and [maxRate] (1000 and 5000), and this is so after every further
    iteration of the loop. *)
Theorem rates_in_range_after_every_tick {G : Type} `{UniformRealSpec G}
        (m : BandwidthMonitor) (gen : G) (events : nat -> list Event) (k n : nat) :
  Forall (fun c => in_range (getRate c)) (connections (fst (simulateAll m gen))) /\
  Forall (fun c => in_range (getRate c))
         (connections (fst (ticks (S n) events k m gen))).
Proof.
  split.
  - rewrite simulateAll_connections.
    eapply Forall_impl; [|apply simulateAll_loop_in_range]. simpl. tauto.
  - eapply Forall_impl; [|apply ticks_in_range]. simpl. tauto.
Qed.

Lemma rates_in_range_after_every_tick_witness :
  UniformRealSpec Coin /\
  Forall (fun c => in_range (getRate c))
         (connections
            (fst (ticks 3 (fun _ => [])
                        0 {| connections := make_connections 0 5;
                             window := window_create |} Heads))).
Proof.
  split; [exact Coin_spec|].
  exact (proj2 (@rates_in_range_after_every_tick Coin Coin_uniform Coin_spec
                  {| connections := make_connections 0 5; window := window_create |}
                  Heads (fun _ => []) 0%nat 2%nat)).
Defined.

(** C2, as the code has it.  The divisor is never negative.  When it is zero
    the code divides by it all the same: the binary32 division does not trap,
    it yields a NaN or an infinity, and the height of every bar is then a NaN
    or an infinity, not 0. *)
Theorem zero_divisor_heights (conns : list Connection) :
  F32.leb (maxTransfer conns) F32.zero = true ->
  F32.ltb (maxTransfer conns) F32.zero = false /\
  maxTransfer conns = F32.zero /\
  Forall (fun g => F32.is_finite (g_height g) = false) (layout conns).
Proof.
  intros Hle.
  assert (Hcls : nonneg_class (maxTransfer conns) = true)
    by (now apply maxTransfer_from_nonneg).
  assert (Hz : maxTransfer conns = F32.zero)
    by (now apply nonneg_class_leb_zero).
  split; [now apply nonneg_class_not_negative|]. split; trivial.
  apply Forall_forall. intros g Hg. unfold layout in Hg. rewrite Hz in Hg.
  destruct (In_geometries _ _ _ _ _ Hg) as (k & c & Hk & ->).
  unfold barGeometry. cbn [g_height].
  apply height_over_zero.
  pose proof (maxTransfer_zero_rates conns Hz) as Hall.
  rewrite Forall_forall in Hall. apply Hall. eapply nth_error_In; eassumption.
Qed.

Lemma zero_divisor_heights_witness :
  F32.leb (maxTransfer (make_connections 0 5)) F32.zero = true /\
  Forall (fun g => F32.is_finite (g_height g) = false)
         (layout (make_connections 0 5)).
Proof.
  split; [reflexivity|].
  apply (zero_divisor_heights (make_connections 0 5)). reflexivity.
Defined.

(** C2, as stated, fails on the snapshot the constructor leaves behind: the
    divisor is zero and the one bar has height NaN. *)
Lemma zero_divisor_counterexample :
  F32.leb (maxTransfer (make_connections 0 1)) F32.zero = true /\
  map g_height (layout (make_connections 0 1)) = [S754_nan] /\
  ~ Forall (fun g => SFeqb (g_height g) F32.zero = true)
           (layout (make_connections 0 1)).
Proof.
  split; [reflexivity|]. split; [reflexivity|].
  intros Hall. inversion Hall as [|? ? Hh _]. discriminate.
Qed.

(** C3.  For the [i]-th channel of a snapshot of [N] channels, the bar handed
    to the window has width [width / (2 * N)], is placed at
    x = [i * 2 * barWidth + barWidth / 2] and y = [height - barHeight], each
    operation being the binary32 one. *)
Theorem bar_geometry_formulas (m : BandwidthMonitor) (i : nat) (conn : Connection) :
  Z.of_nat (List.length (connections m)) <= INT_MAX ->
  nth_error (connections m) i = Some conn ->
  let N := Z.of_nat (List.length (connections m)) in
  let barWidth := F32.div (F32.of_Z width) (F32.mul (F32.of_Z 2) (F32.of_Z N)) in
  let barHeight :=
    F32.mul (F32.div (getRate conn) (maxTransfer (connections m)))
            (F32.of_Z (height - 100)) in
  nth_error (frame_bars (frontBuffer (window (drawAll m)))) i =
  Some {| rect_size := (barWidth, barHeight);
          rect_position :=
            (F32.add (F32.mul (F32.of_Z (Z.of_nat i * 2)) barWidth)
                     (F32.div barWidth (F32.of_Z 2)),
             F32.sub (F32.of_Z height) barHeight);
          rect_fill := Green |}.
Proof.
  intros Hlen Hi N barWidth barHeight.
  rewrite drawAll_eq. cbn [window frontBuffer]. unfold layout.
  rewrite frame_bars_drawables, nth_error_map.
  rewrite (nth_error_geometries _ _ _ _ _ _ Hi). cbn [option_map].
  assert (Hlt : (i < List.length (connections m))%nat)
    by (apply nth_error_Some; congruence).
  unfold bar_of, barGeometry. cbn [g_width g_height g_x g_y].
  rewrite Z.add_0_l, Z.mod_small
    by (unfold INT_MAX, SIZE_MOD in *; lia).
  unfold barWidth_of. fold N. rewrite (mul_comm (F32.of_Z N)).
  reflexivity.
Qed.

Lemma bar_geometry_formulas_witness :
  Z.of_nat (List.length (snapshot_3000 5)) <= INT_MAX /\
  nth_error (snapshot_3000 5) 2 =
    Some {| id := "Conn-3"; transferRate := F32.of_Z 3000 |} /\
  nth_error (frame_bars (frontBuffer (window
     (drawAll {| connections := snapshot_3000 5; window := window_create |})))) 2 =
  Some {| rect_size := (F32.of_Z 160, F32.of_Z 1100);
          rect_position := (F32.of_Z 720, F32.of_Z 100);
          rect_fill := Green |}.
Proof.
  split; [vm_compute; discriminate|]. split; [reflexivity|].
  apply (bar_geometry_formulas
           {| connections := snapshot_3000 5; window := window_create |}
           2 {| id := "Conn-3"; transferRate := F32.of_Z 3000 |}).
  - vm_compute. discriminate.
  - reflexivity.
Defined.

(** C4.  In a snapshot whose rates are binary32 values between [minRate]
    and [maxRate], the height of the bar of every channel is
    [(rate / maxTransfer) * (height - 100)] and lies between 0 and
    [height - 100] = 1100. *)
Theorem bar_heights_bounded (conns : list Connection) (i : nat) (conn : Connection) :
  Forall (fun c => F32.valid (getRate c) = true /\ in_range (getRate c)) conns ->
  nth_error conns i = Some conn ->
  exists g : BarGeometry,
    nth_error (layout conns) i = Some g /\
    g_height g = F32.mul (F32.div (getRate conn) (maxTransfer conns))
                         (F32.of_Z (height - 100)) /\
    F32.leb F32.zero (g_height g) = true /\
    F32.leb (g_height g) (F32.of_Z (height - 100)) = true.
Proof.
  intros Hall Hi.
  pose proof (heights_in_range conns Hall) as Hh. rewrite Forall_forall in Hh.
  pose proof (nth_error_geometries (maxTransfer conns)
                (barWidth_of (Z.of_nat (List.length conns))) conns 0 i conn Hi) as Hg.
  fold (layout conns) in Hg.
  eexists. split; [exact Hg|]. split; [reflexivity|].
  apply Hh. eapply nth_error_In. exact Hg.
Qed.

Lemma bar_heights_bounded_witness :
  Forall (fun c => F32.valid (getRate c) = true /\ in_range (getRate c))
         snapshot_mixed /\
  nth_error snapshot_mixed 1 =
    Some {| id := "Conn-2"; transferRate := F32.of_Z 3333 |} /\
  exists g : BarGeometry,
    nth_error (layout snapshot_mixed) 1 = Some g /\
    g_height g = F32.mul (F32.div (F32.of_Z 3333) (F32.of_Z 5000)) (F32.of_Z 1100) /\
    F32.leb F32.zero (g_height g) = true /\
    F32.leb (g_height g) (F32.of_Z 1100) = true.
Proof.
  assert (H : Forall (fun c => F32.valid (getRate c) = true /\ in_range (getRate c))
                     snapshot_mixed)
    by (repeat constructor).
  split; [exact H|]. split; [reflexivity|].
  exact (bar_heights_bounded snapshot_mixed 1
           {| id := "Conn-2"; transferRate := F32.of_Z 3333 |} H eq_refl).
Defined.

(** C5.  In every tick the maximum computed by the first loop of [drawAll]
    over the rates just simulated is greater than or equal to each of those
    rates. *)
Theorem maxTransfer_dominates_tick {G : Type} `{UniformRealSpec G}
        (m : BandwidthMonitor) (gen : G) :
  Forall (fun c => F32.leb (getRate c)
                           (maxTransfer (connections (fst (simulateAll m gen)))) = true)
         (connections (fst (simulateAll m gen))).
Proof.
  apply maxTransfer_upper_bound.
  rewrite simulateAll_connections.
  eapply Forall_impl; [|apply simulateAll_loop_in_range].
  intros c [_ [Hlo _]]. eapply leb_not_nan_r. exact Hlo.
Qed.

Lemma maxTransfer_dominates_tick_witness :
  UniformRealSpec Coin /\
  Forall (fun c => F32.leb (getRate c) maxRate = true)
         (connections
            (fst (simulateAll {| connections := make_connections 0 5;
                                 window := window_create |} Heads))).
Proof.
  split; [exact Coin_spec|].
  exact (@maxTransfer_dominates_tick Coin Coin_uniform Coin_spec
           {| connections := make_connections 0 5; window := window_create |} Heads).
Defined.

(** C6, as the code has it.  In a snapshot of at most 2^20 channels, with
    [barWidth = width / (2 * N)], the bar positions are strictly increasing
    in the channel index and no bar reaches into the next: positions and
    width are positive finite numbers, and the right edge of a bar, the exact
    sum [x + barWidth] of the two computed values, is at most the [x] of the
    bar after it.  The same holds when the sum is itself taken in
    binary32. *)
Theorem bars_do_not_overlap (conns : list Connection) :
  Z.of_nat (List.length conns) <= 2 ^ 20 ->
  Forall (fun g => g_width g = barWidth_of (Z.of_nat (List.length conns)))
         (layout conns) /\
  (forall (i j : nat) (g g' : BarGeometry),
      (i < j)%nat ->
      nth_error (layout conns) i = Some g ->
      nth_error (layout conns) j = Some g' ->
      F32.ltb (g_x g) (g_x g') = true) /\
  (forall (i : nat) (g g' : BarGeometry),
      nth_error (layout conns) i = Some g ->
      nth_error (layout conns) (S i) = Some g' ->
      (pos_finite (g_x g) = true /\ pos_finite (g_width g) = true /\
       pos_finite (g_x g') = true) /\
      (B2Q (g_x g) + B2Q (g_width g) <= B2Q (g_x g'))%Q /\
      F32.leb (F32.add (g_x g) (g_width g)) (g_x g') = true).
Proof.
  intros Hlen. split; [|split].
  - apply Forall_forall. intros g Hg.
    destruct (In_geometries _ _ _ _ _ Hg) as (k & c & _ & ->). reflexivity.
  - intros i j g g' Hij Hg Hg'.
    apply (bars_increasing conns (j - S i) i g g'); trivial.
    now replace (S (i + (j - S i))) with j by lia.
  - intros i g g' Hg Hg'.
    destruct (consecutive_bars_gap conns i g g' Hlen Hg Hg')
      as (F1 & F2 & F3 & Hgap).
    split; [repeat split; assumption|]. split; [exact Hgap|].
    now apply (consecutive_bars conns i g g').
Qed.

Lemma bars_do_not_overlap_witness :
  Z.of_nat (List.length (snapshot_3000 5)) <= 2 ^ 20 /\
  map g_x (layout (snapshot_3000 5)) =
    map F32.of_Z [80; 400; 720; 1040; 1360] /\
  F32.ltb (F32.of_Z 80) (F32.of_Z 1360) = true /\
  (B2Q (F32.of_Z 720) + B2Q (F32.of_Z 160) <= B2Q (F32.of_Z 1040))%Q.
Proof.
  split; [vm_compute; discriminate|]. split; [reflexivity|].
  split.
  - exact (proj1 (proj2 (bars_do_not_overlap (snapshot_3000 5)
                           ltac:(vm_compute; discriminate)))
                 0%nat 4%nat
                 (barGeometry (F32.of_Z 3000) (F32.of_Z 160) 0
                    {| id := "Conn-1"; transferRate := F32.of_Z 3000 |})
                 (barGeometry (F32.of_Z 3000) (F32.of_Z 160) 4
                    {| id := "Conn-5"; transferRate := F32.of_Z 3000 |})
                 ltac:(repeat constructor) eq_refl eq_refl).
  - exact (proj1 (proj2
             (proj2 (proj2 (bars_do_not_overlap (snapshot_3000 5)
                              ltac:(vm_compute; discriminate)))
                    2%nat
                    (barGeometry (F32.of_Z 3000) (F32.of_Z 160) 2
                       {| id := "Conn-3"; transferRate := F32.of_Z 3000 |})
                    (barGeometry (F32.of_Z 3000) (F32.of_Z 160) 3
                       {| id := "Conn-4"; transferRate := F32.of_Z 3000 |})
                    eq_refl eq_refl))).
Defined.

(** C6, as stated, fails on the snapshot the constructor builds for
    2^24 + 2 connections: the factors [2 * 2^24] and [2 * 2^24 + 2] convert
    to the same binary32 number, and bars 2^24 and 2^24 + 1 get the same x. *)
Lemma bars_overlap_counterexample :
  exists g g' : BarGeometry,
    nth_error (layout (make_connections 0 (Z.to_nat 16777218)))
              (Z.to_nat 16777216) = Some g /\
    nth_error (layout (make_connections 0 (Z.to_nat 16777218)))
              (S (Z.to_nat 16777216)) = Some g' /\
    g_x g = g_x g' /\
    F32.ltb (g_x g) (g_x g') = false.
Proof.
  apply same_position_aux; apply Z2Nat.id; discriminate.
Qed.

(** C7.  [drawAll] reads the connections and writes only the window: it
    leaves the connections alone, the frame it presents depends on nothing
    but the snapshot (not on what the window held before), and running it a
    second time on its own result changes nothing. *)
Theorem drawAll_pure (conns : list Connection) (w w' : RenderWindow) :
  connections (drawAll {| connections := conns; window := w |}) = conns /\
  frontBuffer (window (drawAll {| connections := conns; window := w |})) =
    drawables (layout conns) conns /\
  frontBuffer (window (drawAll {| connections := conns; window := w |})) =
    frontBuffer (window (drawAll {| connections := conns; window := w' |})) /\
  drawAll (drawAll {| connections := conns; window := w |}) =
    drawAll {| connections := conns; window := w |}.
Proof.
  rewrite !drawAll_eq. simpl. repeat split.
Qed.

(** C8.  When the font cannot be loaded the constructor throws, [main]
    prints one line on the error stream and returns 1, whatever the events
    and however long the loop would have been allowed to run; when the font
    loads and a [Closed] event arrives in some batch, [main] returns 0
    without printing, given enough iterations. *)
Theorem main_exit_codes {G : Type} `{UniformReal G}
        (events : nat -> list Event) (gen : G) :
  (forall n, BandwidthMonitor_new false n = inl (runtime_error "Font file not found.")) /\
  (forall fuel, main fuel false events gen =
                Some {| exit_code := 1; cerr := ["Error: Font file not found."%string] |}) /\
  (forall k fuel, In Closed (events k) -> (k < fuel)%nat ->
                  main fuel true events gen = Some {| exit_code := 0; cerr := [] |}).
Proof.
  repeat split.
  intros k fuel Hin Hfuel. unfold main. simpl.
  destruct (run_terminates events k fuel 0
              {| connections := make_connections 0 5; window := window_create |}
              gen Hin Hfuel) as [r Hr].
  simpl in Hr. now rewrite Hr.
Qed.

Lemma main_exit_codes_witness :
  In Closed [OtherEvent; Closed] /\
  main 3 true (fun k => match k with 2%nat => [OtherEvent; Closed] | _ => [] end) Heads =
  Some {| exit_code := 0; cerr := [] |}.
Proof.
  split; [right; now left|].
  apply (proj2 (proj2 (main_exit_codes
                         (fun k => match k with 2%nat => [OtherEvent; Closed] | _ => [] end)
                         Heads)) 2%nat 3%nat).
  - right. now left.
  - apply Nat.lt_succ_diag_r.
Defined.

(** C9.  Straight after construction, before any tick, every channel's rate
    is [0.0f], which is below [minRate]: the rates are in range from the
    first tick on, not from creation. *)
Theorem initial_rates_zero (numConnections : Z) :
  exists m : BandwidthMonitor,
    BandwidthMonitor_new true numConnections = inr m /\
    List.length (connections m) = Z.to_nat numConnections /\
    Forall (fun c => getRate c = F32.zero /\ ~ in_range (getRate c)) (connections m).
Proof.
  unfold BandwidthMonitor_new. simpl. eexists. split; [reflexivity|]. simpl.
  generalize (Z.to_nat numConnections) as k. generalize 0 as i.
  intros i k. revert i. induction k as [|k IH]; intros i; simpl.
  - split; [reflexivity | constructor].
  - destruct (IH (i + 1)) as [Hlen Hall]. split; [now rewrite Hlen|].
    constructor; trivial. split; [reflexivity|].
    unfold in_range. simpl. intros [Hlo _]. discriminate.
Qed.

(** C10.  A simulation tick changes nothing but the stored rates: the
    identifiers, in their order (hence the number of channels), and the
    window are those of the monitor it started from. *)
Theorem simulateAll_frame {G : Type} `{UniformReal G}
        (m : BandwidthMonitor) (gen : G) :
  map getId (connections (fst (simulateAll m gen))) = map getId (connections m) /\
  List.length (connections (fst (simulateAll m gen))) = List.length (connections m) /\
  window (fst (simulateAll m gen)) = window m.
Proof.
  pose proof (simulateAll_loop_ids (connections m) gen) as Hids.
  rewrite simulateAll_connections, simulateAll_window.
  repeat split; trivial.
  rewrite <- (length_map id), <- (length_map id (connections m)).
  unfold getId in *. now rewrite Hids.
Qed.

(** * Further properties of the program *)

(** ** The constructor *)

Lemma to_int_not_nil (z : Z) :
  Z.to_int z <> Decimal.Pos Decimal.Nil /\ Z.to_int z <> Decimal.Neg Decimal.Nil.
Proof.
  pose proof (DecimalZ.to_of (Z.to_int z)) as Hn.
  rewrite DecimalZ.of_to in Hn.
  split; intros Heq; rewrite Heq in Hn; discriminate.
Qed.

Lemma to_string_inj (a b : Z) : to_string a = to_string b -> a = b.
Proof.
  unfold to_string. intros Heq.
  destruct (to_int_not_nil a) as [Ha1 Ha2].
  destruct (to_int_not_nil b) as [Hb1 Hb2].
  pose proof (NilZero.isi _ Ha1 Ha2) as Ia.
  pose proof (NilZero.isi _ Hb1 Hb2) as Ib.
  rewrite Heq, Ib in Ia. inversion Ia as [Hi].
  symmetry. now apply DecimalZ.to_int_inj.
Qed.

Lemma conn_name_inj (a b : Z) :
  ("Conn-" ++ to_string a)%string = ("Conn-" ++ to_string b)%string -> a = b.
Proof.
  simpl. intros Heq. inversion Heq. now apply to_string_inj.
Qed.

Lemma In_make_connections (k : nat) :
  forall (j : Z) (c : Connection),
    In c (make_connections j k) ->
    exists t : Z, j < t <= j + Z.of_nat k /\
                  c = Connection_new ("Conn-" ++ to_string t).
Proof.
  induction k as [|k IH]; intros j c Hin; [contradiction|].
  cbn [make_connections] in Hin. destruct Hin as [<-|Hin].
  - exists (j + 1). split; [lia | reflexivity].
  - destruct (IH _ _ Hin) as (t & Ht & ->). exists t. split; [lia | reflexivity].
Qed.

Lemma make_connections_NoDup (k : nat) (j : Z) :
  NoDup (map getId (make_connections j k)).
Proof.
  revert j. induction k as [|k IH]; intros j; cbn [make_connections map].
  - constructor.
  - constructor; [|apply IH].
    intros Hin. apply in_map_iff in Hin. destruct Hin as (c & Hid & Hc).
    destruct (In_make_connections _ _ _ Hc) as (t & Ht & ->).
    unfold getId, Connection_new in Hid. cbn [id] in Hid.
    apply conn_name_inj in Hid. lia.
Qed.

(** X1.  The constructor names the channels "Conn-1", "Conn-2", ... in
    creation order, and no two channels share an identifier. *)
Theorem constructor_ids (font_loaded : bool) (numConnections : Z) (m : BandwidthMonitor) :
  BandwidthMonitor_new font_loaded numConnections = inr m ->
  (forall i : nat,
      (i < List.length (connections m))%nat ->
      nth_error (map getId (connections m)) i =
      Some ("Conn-" ++ to_string (Z.of_nat i + 1))%string) /\
  NoDup (map getId (connections m)).
Proof.
  unfold BandwidthMonitor_new. destruct font_loaded; [|discriminate].
  cbn [negb]. intros Hm. inversion Hm; subst m. cbn [connections]. split.
  - intros i Hi. rewrite make_connections_length in Hi.
    rewrite nth_error_map, (nth_error_make_connections _ 0 i Hi).
    reflexivity.
  - apply make_connections_NoDup.
Qed.

Lemma constructor_ids_witness :
  BandwidthMonitor_new true 5 =
    inr {| connections := make_connections 0 5; window := window_create |} /\
  map getId (make_connections 0 5) =
    ["Conn-1"; "Conn-2"; "Conn-3"; "Conn-4"; "Conn-5"]%string /\
  NoDup (map getId (make_connections 0 5)).
Proof.
  split; [reflexivity|]. split; [reflexivity|].
  exact (proj2 (constructor_ids true 5
                  {| connections := make_connections 0 5; window := window_create |}
                  eq_refl)).
Defined.

(** X2.  A count of zero or less is accepted: the monitor has no channel, a
    tick draws nothing from the random source, and the frame it presents is
    empty. *)
Theorem empty_monitor {G : Type} `{UniformReal G} (numConnections : Z) (gen : G) :
  numConnections <= 0 ->
  exists m : BandwidthMonitor,
    BandwidthMonitor_new true numConnections = inr m /\
    connections m = [] /\
    simulateAll m gen = (m, gen) /\
    frontBuffer (window (drawAll m)) = [].
Proof.
  intros Hn. unfold BandwidthMonitor_new. cbn [negb].
  replace (Z.to_nat numConnections) with O by lia.
  eexists. split; [reflexivity|]. repeat split.
Qed.

Lemma empty_monitor_witness :
  -3 <= 0 /\
  BandwidthMonitor_new true (-3) =
    inr {| connections := []; window := window_create |} /\
  simulateAll {| connections := []; window := window_create |} Heads =
    ({| connections := []; window := window_create |}, Heads).
Proof.
  split; [discriminate|].
  destruct (empty_monitor (-3) Heads ltac:(discriminate)) as (m & Hm & Hc & Hs & _).
  inversion Hm; subst m. split; [reflexivity | exact Hs].
Defined.

(** ** Events *)

Lemma handleEvents_loop_isOpen (pending : list Event) (w : RenderWindow) :
  isOpen (handleEvents_loop pending w) = isOpen w && negb (has_closed pending).
Proof.
  revert w. induction pending as [|[] rest IH]; intros w; cbn [handleEvents_loop].
  - cbn. now rewrite andb_true_r.
  - rewrite handleEvents_loop_stays_closed by reflexivity.
    cbn. now rewrite andb_false_r.
  - rewrite IH. reflexivity.
Qed.

Lemma handleEvents_loop_buffers (pending : list Event) (w : RenderWindow) :
  clearColor (handleEvents_loop pending w) = clearColor w /\
  backBuffer (handleEvents_loop pending w) = backBuffer w /\
  frontBuffer (handleEvents_loop pending w) = frontBuffer w.
Proof.
  revert w. induction pending as [|[] rest IH]; intros w; cbn [handleEvents_loop].
  - repeat split.
  - destruct (IH (window_close w)) as (H1 & H2 & H3).
    rewrite H1, H2, H3. repeat split.
  - apply IH.
Qed.

(** X3.  [handleEvents] leaves the window open exactly when it was open and
    the pending events hold no [Closed]; whatever the events, it touches
    neither the connections nor what the window shows. *)
Theorem handleEvents_effect (pending : list Event) (m : BandwidthMonitor) :
  isOpen (window (handleEvents pending m)) =
    isOpen (window m) && negb (has_closed pending) /\
  connections (handleEvents pending m) = connections m /\
  backBuffer (window (handleEvents pending m)) = backBuffer (window m) /\
  frontBuffer (window (handleEvents pending m)) = frontBuffer (window m).
Proof.
  unfold handleEvents. cbn [window connections].
  destruct (handleEvents_loop_buffers pending (window m)) as (_ & Hb & Hf).
  rewrite handleEvents_loop_isOpen. repeat split; trivial.
Qed.

(** ** The loop of [run] *)

Section RunFacts.
Context {G : Type} `{UniformReal G}.

Lemma run_body_open (pending : list Event) (m : BandwidthMonitor) (gen : G) :
  isOpen (window (fst (run_body pending m gen))) =
  isOpen (window m) && negb (has_closed pending).
Proof.
  rewrite run_body_isOpen. apply handleEvents_loop_isOpen.
Qed.

Lemma run_body_frame (pending : list Event) (m : BandwidthMonitor) (gen : G) :
  frontBuffer (window (fst (run_body pending m gen))) =
  drawables (layout (connections (fst (run_body pending m gen))))
            (connections (fst (run_body pending m gen))).
Proof.
  unfold run_body.
  destruct (simulateAll (handleEvents pending m) gen) as [m2 gen'].
  cbn [fst]. rewrite drawAll_eq. reflexivity.
Qed.

Lemma run_closed (fuel : nat) (events : nat -> list Event) (s : nat)
      (m : BandwidthMonitor) (gen : G) :
  isOpen (window m) = false -> run fuel events s m gen = Some (m, gen).
Proof. intros Hc. destruct fuel; simpl; now rewrite Hc. Qed.

(** The loop runs through the first batch that holds a [Closed] event, that
    batch included. *)
Lemma run_ticks (events : nat -> list Event) (k : nat) :
  forall (fuel s : nat) (m : BandwidthMonitor) (gen : G),
    isOpen (window m) = true ->
    (forall j, (j < k)%nat -> has_closed (events (s + j)%nat) = false) ->
    has_closed (events (s + k)%nat) = true ->
    (k < fuel)%nat ->
    run fuel events s m gen = Some (ticks (S k) events s m gen).
Proof.
  induction k as [|k IH]; intros fuel s m gen Ho Hnone Hk Hfuel;
    (destruct fuel as [|fuel]; [lia|]).
  - cbn [run ticks]. rewrite Ho.
    pose proof (run_body_open (events s) m gen) as Hb.
    rewrite Nat.add_0_r in Hk. rewrite Ho, Hk in Hb.
    destruct (run_body (events s) m gen) as [m' gen']. cbn [fst] in Hb.
    now apply run_closed.
  - cbn [run]. rewrite Ho.
    change (ticks (S (S k)) events s m gen)
      with (let (m', gen') := run_body (events s) m gen in
            ticks (S k) events (S s) m' gen').
    pose proof (run_body_open (events s) m gen) as Hb.
    pose proof (Hnone 0%nat ltac:(lia)) as H0. rewrite Nat.add_0_r in H0.
    rewrite Ho, H0 in Hb.
    destruct (run_body (events s) m gen) as [m' gen']. cbn [fst] in Hb.
    apply IH; trivial; try lia.
    + intros j Hj. replace (S s + j)%nat with (s + S j)%nat by lia.
      apply Hnone. lia.
    + now replace (S s + k)%nat with (s + S k)%nat by lia.
Qed.

Lemma ticks_closed_at_end (events : nat -> list Event) (k : nat) :
  forall (s : nat) (m : BandwidthMonitor) (gen : G),
    has_closed (events (s + k)%nat) = true ->
    isOpen (window (fst (ticks (S k) events s m gen))) = false.
Proof.
  induction k as [|k IH]; intros s m gen Hk.
  - cbn [ticks]. pose proof (run_body_open (events s) m gen) as Hb.
    rewrite Nat.add_0_r in Hk. rewrite Hk, andb_false_r in Hb.
    now destruct (run_body (events s) m gen).
  - change (ticks (S (S k)) events s m gen)
      with (let (m', gen') := run_body (events s) m gen in
            ticks (S k) events (S s) m' gen').
    destruct (run_body (events s) m gen) as [m' gen'].
    apply IH. now replace (S s + k)%nat with (s + S k)%nat by lia.
Qed.

Lemma ticks_frame (events : nat -> list Event) (k : nat) :
  forall (s : nat) (m : BandwidthMonitor) (gen : G),
    frontBuffer (window (fst (ticks (S k) events s m gen))) =
    drawables (layout (connections (fst (ticks (S k) events s m gen))))
              (connections (fst (ticks (S k) events s m gen))).
Proof.
  induction k as [|k IH]; intros s m gen.
  - cbn [ticks]. pose proof (run_body_frame (events s) m gen) as Hb.
    now destruct (run_body (events s) m gen).
  - change (ticks (S (S k)) events s m gen)
      with (let (m', gen') := run_body (events s) m gen in
            ticks (S k) events (S s) m' gen').
    destruct (run_body (events s) m gen) as [m' gen']. apply IH.
Qed.

(** Without a [Closed] event the loop does not end. *)
Lemma run_open (events : nat -> list Event) (fuel : nat) :
  forall (s : nat) (m : BandwidthMonitor) (gen : G),
    isOpen (window m) = true ->
    (forall j, (j < fuel)%nat -> has_closed (events (s + j)%nat) = false) ->
    run fuel events s m gen = None.
Proof.
  induction fuel as [|fuel IH]; intros s m gen Ho Hnone; cbn [run]; rewrite Ho.
  - reflexivity.
  - pose proof (run_body_open (events s) m gen) as Hb.
    pose proof (Hnone 0%nat ltac:(lia)) as H0. rewrite Nat.add_0_r in H0.
    rewrite Ho, H0 in Hb.
    destruct (run_body (events s) m gen) as [m' gen']. cbn [fst] in Hb.
    apply IH; trivial.
    intros j Hj. replace (S s + j)%nat with (s + S j)%nat by lia.
    apply Hnone. lia.
Qed.

Lemma closed_within (events : nat -> list Event) (fuel : nat) :
  (exists k, (k < fuel)%nat /\ has_closed (events k) = true) \/
  (forall j, (j < fuel)%nat -> has_closed (events j) = false).
Proof.
  induction fuel as [|fuel [(k & Hk & Hc)|Hnone]].
  - right. intros j Hj. lia.
  - left. exists k. split; [lia | exact Hc].
  - destruct (has_closed (events fuel)) eqn:E.
    + left. exists fuel. split; [lia | exact E].
    + right. intros j Hj.
      destruct (Nat.eq_dec j fuel) as [->|]; [exact E | apply Hnone; lia].
Qed.

(** X4.  The loop of [run] ends with the first batch of events that holds a
    [Closed]: it runs the body for that batch too (one last simulation and
    one last [drawAll], on the closed window) and returns the state after
    exactly that many iterations; the last frame handed to [display] is the
    layout of the final rates. *)
Theorem run_until_close (events : nat -> list Event) (k fuel : nat)
        (m : BandwidthMonitor) (gen : G) :
  isOpen (window m) = true ->
  (forall j, (j < k)%nat -> has_closed (events j) = false) ->
  has_closed (events k) = true ->
  (k < fuel)%nat ->
  run fuel events 0 m gen = Some (ticks (S k) events 0 m gen) /\
  isOpen (window (fst (ticks (S k) events 0 m gen))) = false /\
  frontBuffer (window (fst (ticks (S k) events 0 m gen))) =
    drawables (layout (connections (fst (ticks (S k) events 0 m gen))))
              (connections (fst (ticks (S k) events 0 m gen))).
Proof.
  intros Ho Hnone Hk Hfuel. split; [|split].
  - now apply run_ticks.
  - now apply ticks_closed_at_end.
  - apply ticks_frame.
Qed.

(** X5.  The loop has no other exit: as long as no batch holds a [Closed]
    event, an open window keeps [run] going, however many iterations it is
    given. *)
Theorem run_needs_close (events : nat -> list Event) (fuel : nat)
        (m : BandwidthMonitor) (gen : G) :
  isOpen (window m) = true ->
  (forall j, (j < fuel)%nat -> has_closed (events j) = false) ->
  run fuel events 0 m gen = None.
Proof.
  intros Ho Hnone. now apply run_open.
Qed.

(** X6.  [main] has two outcomes only: 1 with one line on the error stream,
    exactly when the font did not load; 0 with nothing printed, and then a
    [Closed] event was polled. *)
Theorem main_outcomes (fuel : nat) (font_loaded : bool)
        (events : nat -> list Event) (gen : G) (o : Outcome) :
  main fuel font_loaded events gen = Some o ->
  (font_loaded = false /\
   o = {| exit_code := 1; cerr := ["Error: Font file not found."%string] |}) \/
  (font_loaded = true /\
   o = {| exit_code := 0; cerr := [] |} /\
   exists k, (k < fuel)%nat /\ has_closed (events k) = true).
Proof.
  unfold main, BandwidthMonitor_new. destruct font_loaded; cbn [negb].
  - set (M := {| connections := make_connections 0 (Z.to_nat 5);
                 window := window_create |}).
    intros Hrun. right.
    destruct (closed_within events fuel) as [Hex|Hnone].
    + destruct (run fuel events 0 M gen); [|discriminate].
      inversion Hrun. repeat split; trivial.
    + rewrite (run_open events fuel 0 M gen) in Hrun;
        [discriminate | reflexivity | exact Hnone].
  - intros Ho. inversion Ho. now left.
Qed.

End RunFacts.

Lemma run_until_close_witness :
  has_closed [OtherEvent; Closed] = true /\
  run 5 (fun k => match k with 1%nat => [OtherEvent; Closed] | _ => [OtherEvent] end)
      0 {| connections := make_connections 0 2; window := window_create |} Heads =
  Some (ticks 2 (fun k => match k with 1%nat => [OtherEvent; Closed] | _ => [OtherEvent] end)
              0 {| connections := make_connections 0 2; window := window_create |} Heads).
Proof.
  split; [reflexivity|].
  apply (run_until_close
           (fun k => match k with 1%nat => [OtherEvent; Closed] | _ => [OtherEvent] end)
           1 5 {| connections := make_connections 0 2; window := window_create |} Heads).
  - reflexivity.
  - intros j Hj. destruct j; [reflexivity | lia].
  - reflexivity.
  - lia.
Defined.

Lemma run_needs_close_witness :
  isOpen window_create = true /\
  run 4 (fun _ => [OtherEvent; OtherEvent]) 0
      {| connections := make_connections 0 2; window := window_create |} Heads = None.
Proof.
  split; [reflexivity|].
  apply (run_needs_close (fun _ => [OtherEvent; OtherEvent]) 4
           {| connections := make_connections 0 2; window := window_create |} Heads).
  - reflexivity.
  - intros j _. reflexivity.
Defined.

Lemma main_outcomes_witness :
  main 2 true (fun _ => [Closed]) Heads = Some {| exit_code := 0; cerr := [] |} /\
  exists k, (k < 2)%nat /\ has_closed [Closed] = true.
Proof.
  assert (Hm : main 2 true (fun _ => [Closed]) Heads
               = Some {| exit_code := 0; cerr := [] |}) by reflexivity.
  split; [exact Hm|].
  destruct (main_outcomes 2 true (fun _ => [Closed]) Heads
              {| exit_code := 0; cerr := [] |} Hm)
    as [[Hf _]|(_ & _ & k & Hk & Hc)]; [discriminate|].
  exists k. split; [exact Hk | exact Hc].
Defined.

(** ** The simulator and the random source *)

Section DrawFacts.
Context {G : Type} `{UniformReal G}.

Lemma simulateAll_loop_draws (conns : list Connection) (gen : G) :
  map getRate (fst (simulateAll_loop conns gen)) = fst (draws (List.length conns) gen) /\
  snd (simulateAll_loop conns gen) = snd (draws (List.length conns) gen).
Proof.
  revert gen. induction conns as [|c rest IH]; intros gen; [split; reflexivity|].
  cbn [simulateAll_loop List.length draws]. unfold simulateTransfer.
  destruct (uniform_real minRate maxRate gen) as [r gen1].
  destruct (IH gen1) as [IH1 IH2].
  destruct (simulateAll_loop rest gen1) as [rest' gen2].
  destruct (draws (List.length rest) gen1) as [rs gen2'].
  cbn [fst snd map getRate transferRate] in *. split; congruence.
Qed.

Lemma simulateAll_loop_ids_only (c1 : list Connection) :
  forall (c2 : list Connection) (gen : G),
    map getId c1 = map getId c2 ->
    simulateAll_loop c1 gen = simulateAll_loop c2 gen.
Proof.
  induction c1 as [|a r1 IH]; intros [|b r2] gen Hid; try discriminate; trivial.
  cbn [map] in Hid. inversion Hid as [[Hab Hr]].
  cbn [simulateAll_loop]. unfold simulateTransfer, getId in *.
  destruct (uniform_real minRate maxRate gen) as [r gen1].
  rewrite (IH r2 gen1 Hr), Hab. reflexivity.
Qed.

(** X7.  A tick makes exactly one draw per channel, in channel order and
    always between [minRate] and [maxRate]; the new rates and the generator
    left behind are those draws, and the rates held before play no part. *)
Theorem simulateAll_draws (m : BandwidthMonitor) (gen : G) :
  map getRate (connections (fst (simulateAll m gen))) =
    fst (draws (List.length (connections m)) gen) /\
  snd (simulateAll m gen) = snd (draws (List.length (connections m)) gen) /\
  (forall m' : BandwidthMonitor,
      map getId (connections m') = map getId (connections m) ->
      window m' = window m ->
      simulateAll m' gen = simulateAll m gen).
Proof.
  destruct (simulateAll_loop_draws (connections m) gen) as [Hr Hg].
  unfold simulateAll. split; [|split].
  - now destruct (simulateAll_loop (connections m) gen).
  - now destruct (simulateAll_loop (connections m) gen).
  - intros m' Hid Hw.
    rewrite (simulateAll_loop_ids_only _ _ gen Hid), Hw. reflexivity.
Qed.

Lemma ticks_ids (events : nat -> list Event) (n : nat) :
  forall (s : nat) (m : BandwidthMonitor) (gen : G),
    map getId (connections (fst (ticks n events s m gen))) = map getId (connections m).
Proof.
  induction n as [|n IH]; intros s m gen; [reflexivity|].
  cbn [ticks].
  pose proof (run_body_connections (events s) m gen) as Hb.
  pose proof (simulateAll_loop_ids (connections m) gen) as Hi.
  destruct (run_body (events s) m gen) as [m' gen']. cbn [fst] in Hb.
  rewrite IH, Hb. exact Hi.
Qed.

(** X8.  However long the loop runs and whatever events arrive, the monitor
    keeps the same channels: same identifiers, same order, same number. *)
Theorem loop_keeps_channels (events : nat -> list Event) (n s : nat)
        (m : BandwidthMonitor) (gen : G) :
  map getId (connections (fst (ticks n events s m gen))) = map getId (connections m) /\
  List.length (connections (fst (ticks n events s m gen))) = List.length (connections m).
Proof.
  pose proof (ticks_ids events n s m gen) as Hi. split; [exact Hi|].
  rewrite <- (length_map getId), Hi. apply length_map.
Qed.

End DrawFacts.

(** ** The frame *)

Lemma drawables_length (maxT bw : float) (conns : list Connection) (j : Z) :
  List.length (drawables (geometries maxT bw j conns) conns) = (2 * List.length conns)%nat.
Proof.
  revert j. induction conns as [|c rest IH]; intros j; [reflexivity|].
  cbn [geometries drawables List.length]. rewrite IH. lia.
Qed.

Lemma nth_error_drawables (maxT bw : float) (conns : list Connection) :
  forall (j : Z) (i : nat) (c : Connection),
    nth_error conns i = Some c ->
    nth_error (drawables (geometries maxT bw j conns) conns) (2 * i) =
      Some (DrawRect (bar_of (barGeometry maxT bw (j + Z.of_nat i) c))) /\
    nth_error (drawables (geometries maxT bw j conns) conns) (2 * i + 1) =
      Some (DrawText (label_of (barGeometry maxT bw (j + Z.of_nat i) c) c)).
Proof.
  induction conns as [|c0 rest IH]; intros j i c Hi; [destruct i; discriminate|].
  destruct i as [|i].
  - inversion Hi; subst c0. rewrite Z.add_0_r. split; reflexivity.
  - cbn [nth_error] in Hi. destruct (IH (j + 1) i c Hi) as [Hb Hl].
    replace (2 * S i)%nat with (S (S (2 * i))) by lia.
    replace (S (S (2 * i)) + 1)%nat with (S (S (2 * i + 1))) by lia.
    cbn [geometries drawables nth_error].
    replace (j + Z.of_nat (S i)) with (j + 1 + Z.of_nat i) by lia.
    split; assumption.
Qed.

(** X9.  The frame [drawAll] presents holds, for each channel in order, a
    green bar followed by its white 14-point label; the label reads
    "<id>: <rate as an int> B/s" and is anchored at the bar's x, 20 above the
    bar's y. *)
Theorem frame_structure (m : BandwidthMonitor) :
  List.length (frontBuffer (window (drawAll m))) =
    (2 * List.length (connections m))%nat /\
  forall (i : nat) (conn : Connection),
    nth_error (connections m) i = Some conn ->
    exists g : BarGeometry,
      nth_error (layout (connections m)) i = Some g /\
      nth_error (frontBuffer (window (drawAll m))) (2 * i) =
        Some (DrawRect {| rect_size := (g_width g, g_height g);
                          rect_position := (g_x g, g_y g);
                          rect_fill := Green |}) /\
      nth_error (frontBuffer (window (drawAll m))) (2 * i + 1) =
        Some (DrawText
                {| text_string :=
                     getId conn ++ ": "
                       ++ to_string (static_cast_int (getRate conn)) ++ " B/s";
                   text_size := 14;
                   text_position := (g_x g, F32.sub (g_y g) (F32.of_Z 20));
                   text_fill := White |}).
Proof.
  rewrite drawAll_eq. cbn [window frontBuffer]. unfold layout. split.
  - apply drawables_length.
  - intros i conn Hi.
    destruct (nth_error_drawables (maxTransfer (connections m))
                (barWidth_of (Z.of_nat (List.length (connections m))))
                (connections m) 0 i conn Hi) as [Hb Hl].
    eexists. split; [apply nth_error_geometries; exact Hi|].
    split; [exact Hb | exact Hl].
Qed.

Lemma frame_structure_witness :
  nth_error (snapshot_3000 5) 2 =
    Some {| id := "Conn-3"; transferRate := F32.of_Z 3000 |} /\
  nth_error (frontBuffer (window
     (drawAll {| connections := snapshot_3000 5; window := window_create |}))) 5 =
  Some (DrawText {| text_string := "Conn-3: 3000 B/s";
                    text_size := 14;
                    text_position := (F32.of_Z 720, F32.of_Z 80);
                    text_fill := White |}).
Proof.
  split; [reflexivity|].
  destruct (proj2 (frame_structure
                     {| connections := snapshot_3000 5; window := window_create |})
                  2%nat {| id := "Conn-3"; transferRate := F32.of_Z 3000 |} eq_refl)
    as (g & Hg & _ & Hl).
  inversion Hg; subst g. exact Hl.
Defined.

(** ** Rates within the bounds *)

(** A binary32 rate between 1000 and 5000 is a normal number with exponent
    between -14 and -11. *)
Lemma in_range_normal (r : float) :
  F32.valid r = true -> in_range r ->
  exists (m : positive) (e : Z),
    normal_pos F32.prec F32.emax r m e /\
    (-14 < e \/ (e = -14 /\ 16384000 <= Zpos m)) /\
    (e < -11 \/ (e = -11 /\ Zpos m <= 10240000)).
Proof.
  intros Hv Hr. pose proof (in_range_pos_finite r Hr) as Hp.
  destruct r as [| | |[] m e]; try discriminate.
  destruct (valid_canonical _ _ _ Hv) as [Hc _].
  destruct Hr as [Hlo Hhi].
  change minRate with (S754_finite false 16384000 (-14)) in Hlo.
  change maxRate with (S754_finite false 10240000 (-11)) in Hhi.
  apply leb_finite_lex in Hlo. apply leb_finite_lex in Hhi.
  exists m, e. split; [|split; lia].
  split; [reflexivity|]. split; [exact Hc|].
  apply (canonical_iff F32.prec F32.emax) in Hc.
  rewrite emin32 in Hc. lia.
Qed.

Lemma shiftr_bounds (m p : Z) :
  0 <= m -> 0 < p ->
  2 ^ p * Z.shiftr m p <= m < 2 ^ p * (Z.shiftr m p + 1).
Proof.
  intros Hm Hp. rewrite Z.shiftr_div_pow2 by lia.
  assert (H2 : 0 < 2 ^ p) by (apply pow2_pos; lia).
  pose proof (Z.mul_div_le m (2 ^ p) H2).
  pose proof (Z.mul_succ_div_gt m (2 ^ p) H2). lia.
Qed.

(** Truncation of a positive value with a negative exponent is the integer
    part of the value. *)
Lemma trunc_floor (m : positive) (e : Z) :
  e < 0 ->
  F32.trunc (S754_finite false m e) = Some (Z.shiftr (Zpos m) (- e)) /\
  (inject_Z (Z.shiftr (Zpos m) (- e)) <= inject_Z (Zpos m) * 2 ^ e /\
   inject_Z (Zpos m) * 2 ^ e < inject_Z (Z.shiftr (Zpos m) (- e)) + 1)%Q.
Proof.
  intros He. split; [destruct e; try lia; reflexivity|].
  destruct (shiftr_bounds (Zpos m) (- e) ltac:(lia) ltac:(lia)) as [Hs1 Hs2].
  set (z := Z.shiftr (Zpos m) (- e)) in *.
  assert (Ez : forall k : Z, (inject_Z k == inject_Z (2 ^ (- e) * k) * 2 ^ e)%Q).
  { intros k. rewrite Z.mul_comm. replace (- e) with (0 - e) by lia.
    rewrite inject_scaled by lia. change (2 ^ 0)%Q with 1%Q. ring. }
  split.
  - rewrite (Ez z). apply Qmult_le_r; [apply two_pow_pos|].
    now rewrite <- Zle_Qle.
  - change 1%Q with (inject_Z 1). rewrite <- inject_Z_plus, (Ez (z + 1)).
    apply Qmult_lt_r; [apply two_pow_pos|].
    now rewrite <- Zlt_Qlt.
Qed.

(** The conversion to [int] of a rate within the bounds. *)
Lemma cast_in_range (r : float) :
  F32.valid r = true -> in_range r ->
  exists (m : positive) (e : Z),
    r = S754_finite false m e /\ e < 0 /\
    static_cast_int r = Z.shiftr (Zpos m) (- e) /\
    1000 <= Z.shiftr (Zpos m) (- e) <= 5000.
Proof.
  intros Hv Hr.
  destruct (in_range_normal r Hv Hr) as (m & e & Hn & Hlo & Hhi).
  destruct (normal_pos_bounds F32.prec F32.emax _ _ _ Hn) as [[Hm1 Hm2] _].
  change (2 ^ (F32.prec - 1)) with 8388608 in Hm1.
  change (2 ^ F32.prec) with 16777216 in Hm2.
  destruct Hn as (-> & _ & _).
  destruct (trunc_floor m e ltac:(lia)) as [Ht _].
  destruct (shiftr_bounds (Zpos m) (- e) ltac:(lia) ltac:(lia)) as [Hs1 Hs2].
  set (z := Z.shiftr (Zpos m) (- e)) in *.
  assert (Hz : 1000 <= z <= 5000).
  { assert (He : e = -14 \/ e = -13 \/ e = -12 \/ e = -11) by lia.
    destruct He as [He | [He | [He | He]]]; subst e; cbn [Z.opp] in Hs1, Hs2.
    - change (2 ^ 14) with 16384 in Hs1, Hs2. lia.
    - change (2 ^ 13) with 8192 in Hs1, Hs2. lia.
    - change (2 ^ 12) with 4096 in Hs1, Hs2. lia.
    - change (2 ^ 11) with 2048 in Hs1, Hs2. lia. }
  exists m, e. split; [reflexivity|]. split; [lia|]. split; [|exact Hz].
  unfold static_cast_int. rewrite Ht.
  replace ((INT_MIN <=? z) && (z <=? INT_MAX)) with true; trivial.
  symmetry. apply andb_true_iff.
  split; apply Z.leb_le; unfold INT_MIN, INT_MAX; lia.
Qed.

(** X10.  For a binary32 rate within the bounds the conversion to [int] in
    the label is defined: it is the integer part of the rate and lies
    between 1000 and 5000. *)
Theorem label_number (r : float) :
  F32.valid r = true -> in_range r ->
  1000 <= static_cast_int r <= 5000 /\
  F32.trunc r = Some (static_cast_int r) /\
  (inject_Z (static_cast_int r) <= B2Q r /\
   B2Q r < inject_Z (static_cast_int r) + 1)%Q.
Proof.
  intros Hv Hr.
  destruct (cast_in_range r Hv Hr) as (m & e & -> & He & Hs & Hz).
  destruct (trunc_floor m e He) as [Ht Hq].
  rewrite Hs. split; [exact Hz|]. split; [exact Ht|]. exact Hq.
Qed.

Lemma label_number_witness :
  F32.valid (F32.of_Z 3333) = true /\ in_range (F32.of_Z 3333) /\
  static_cast_int (F32.of_Z 3333) = 3333 /\
  1000 <= static_cast_int (F32.of_Z 3333) <= 5000.
Proof.
  assert (Hr : in_range (F32.of_Z 3333)) by (split; reflexivity).
  split; [reflexivity|]. split; [exact Hr|]. split; [reflexivity|].
  exact (proj1 (label_number (F32.of_Z 3333) eq_refl Hr)).
Defined.

(** ** Frames presented by the loop *)

(** X11.  Every frame the loop presents is drawn from rates within the
    bounds: each bar is green with a height between 0 and [height - 100],
    and each label reads "<id>: <n> B/s" for a channel of the monitor and a
    number [n] between 1000 and 5000. *)
Theorem loop_frames {G : Type} `{UniformRealSpec G}
        (events : nat -> list Event) (n s : nat) (m : BandwidthMonitor) (gen : G) :
  Forall (fun b => rect_fill b = Green /\
                   F32.leb F32.zero (snd (rect_size b)) = true /\
                   F32.leb (snd (rect_size b)) (F32.of_Z (height - 100)) = true)
         (frame_bars (frontBuffer (window (fst (ticks (S n) events s m gen))))) /\
  Forall (fun t => exists (c : Connection) (z : Z),
                     In (getId c) (map getId (connections m)) /\
                     1000 <= z <= 5000 /\
                     text_string t = (getId c ++ ": " ++ to_string z ++ " B/s")%string)
         (frame_labels (frontBuffer (window (fst (ticks (S n) events s m gen))))).
Proof.
  pose proof (ticks_in_range n events s m gen) as Hr.
  pose proof (ticks_ids events (S n) s m gen) as Hi.
  rewrite (ticks_frame events n s m gen).
  set (conns := connections (fst (ticks (S n) events s m gen))) in *.
  unfold layout. rewrite frame_bars_drawables, frame_labels_drawables. split.
  - pose proof (heights_in_range conns Hr) as Hh. rewrite Forall_forall in Hh.
    apply Forall_forall. intros b Hb.
    apply in_map_iff in Hb. destruct Hb as (g & <- & Hg).
    split; [reflexivity|]. exact (Hh g Hg).
  - rewrite Forall_forall in Hr. apply Forall_forall. intros t Ht.
    apply in_map_iff in Ht. destruct Ht as ([g c] & <- & Hgc).
    apply in_combine_r in Hgc. destruct (Hr c Hgc) as [Hv Hin].
    destruct (cast_in_range _ Hv Hin) as (mr & er & _ & _ & Hs & Hz).
    exists c, (static_cast_int (getRate c)).
    split; [rewrite <- Hi; now apply in_map|]. split; [now rewrite Hs|].
    reflexivity.
Qed.

Lemma loop_frames_witness :
  UniformRealSpec Coin /\
  Forall (fun b => rect_fill b = Green /\
                   F32.leb F32.zero (snd (rect_size b)) = true /\
                   F32.leb (snd (rect_size b)) (F32.of_Z (height - 100)) = true)
         (frame_bars (frontBuffer (window (fst
            (ticks 2 (fun _ => []) 0
                   {| connections := make_connections 0 5; window := window_create |}
                   Heads))))).
Proof.
  split; [exact Coin_spec|].
  exact (proj1 (@loop_frames Coin Coin_uniform Coin_spec (fun _ => []) 1%nat 0%nat
                  {| connections := make_connections 0 5; window := window_create |}
                  Heads)).
Defined.

(** ** The tallest bar *)

Lemma div_eucl_shift (m k : Z) :
  0 < m -> 0 <= k -> Z.div_eucl (Z.shiftl m k) m = (2 ^ k, 0).
Proof.
  intros Hm Hk. rewrite Z.shiftl_mul_pow2 by lia.
  pose proof (Z_div_mod (m * 2 ^ k) m ltac:(lia)) as Hdm.
  destruct (Z.div_eucl (m * 2 ^ k) m) as [q r]. destruct Hdm as [Heq Hr].
  assert (Hq : q = 2 ^ k) by nia. subst q. f_equal. lia.
Qed.

(** A positive normal number divided by itself is exactly 1. *)
Lemma div_self (x : float) (m : positive) (e : Z) :
  normal_pos F32.prec F32.emax x m e ->
  F32.div x x = S754_finite false 8388608 (-23).
Proof.
  intros (-> & _ & Hd). unfold F32.div, SFdiv, SFdiv_core_binary. rewrite Hd.
  replace (F32.prec + e - (F32.prec + e)) with 0 by lia.
  replace (e - e) with 0 by lia.
  change (Z.min (fexp F32.prec F32.emax 0) 0) with (-24).
  change (0 - -24) with 24. cbv iota.
  rewrite (div_eucl_shift (Zpos m) 24) by lia.
  replace (new_location (Zpos m) 0) with loc_Exact
    by (unfold new_location; destruct (Z.even (Zpos m)); reflexivity).
  reflexivity.
Qed.

(** On rates within the bounds the maximum loop returns the rate of one of
    the channels. *)
Lemma maxTransfer_attained (conns : list Connection) :
  conns <> [] ->
  Forall (fun c => F32.valid (getRate c) = true /\ in_range (getRate c)) conns ->
  exists c : Connection, In c conns /\ maxTransfer conns = getRate c.
Proof.
  intros Hne Hall.
  destruct (maxTransfer_from_In conns F32.zero) as [Hz|Hex]; [exfalso | exact Hex].
  destruct conns as [|c0 rest]; [congruence|].
  assert (Hnan : Forall (fun c => F32.is_nan (getRate c) = false) (c0 :: rest)).
  { eapply Forall_impl; [|exact Hall]. intros c [_ [Hlo _]].
    exact (leb_not_nan_r _ _ Hlo). }
  pose proof (maxTransfer_upper_bound _ Hnan) as Hup.
  inversion Hup as [|? ? H0 _]; subst. inversion Hall as [|? ? [_ [Hlo _]] _]; subst.
  fold (maxTransfer (c0 :: rest)) in Hz. rewrite Hz in H0.
  pose proof (leb_trans _ _ _ Hlo H0) as Habs. discriminate Habs.
Qed.

(** X12.  On rates within the bounds the divisor is the rate of one of the
    channels, and every channel at that rate gets a bar of the full height
    [height - 100], whose top is at y = 100. *)
Theorem tallest_bar (conns : list Connection) :
  conns <> [] ->
  Forall (fun c => F32.valid (getRate c) = true /\ in_range (getRate c)) conns ->
  in_range (maxTransfer conns) /\
  (exists (i : nat) (conn : Connection),
      nth_error conns i = Some conn /\ getRate conn = maxTransfer conns) /\
  (forall (i : nat) (conn : Connection) (g : BarGeometry),
      nth_error conns i = Some conn ->
      nth_error (layout conns) i = Some g ->
      getRate conn = maxTransfer conns ->
      g_height g = F32.of_Z (height - 100) /\ g_y g = F32.of_Z 100).
Proof.
  intros Hne Hall.
  destruct (maxTransfer_attained conns Hne Hall) as (c & Hc & Hmax).
  rewrite Forall_forall in Hall. destruct (Hall c Hc) as [Hv Hr].
  split; [now rewrite Hmax|]. split.
  - destruct (In_nth_error _ _ Hc) as [i Hi]. exists i, c. now split.
  - intros i conn g Hi Hg Heq. unfold layout in Hg.
    rewrite (nth_error_geometries _ _ _ _ _ _ Hi) in Hg.
    inversion Hg; subst g. unfold barGeometry. cbn [g_height g_y].
    rewrite Heq, Hmax.
    destruct (in_range_normal _ Hv Hr) as (mr & er & Hn & _).
    rewrite (div_self _ _ _ Hn). split; reflexivity.
Qed.

Lemma tallest_bar_witness :
  snapshot_mixed <> [] /\
  Forall (fun c => F32.valid (getRate c) = true /\ in_range (getRate c))
         snapshot_mixed /\
  in_range (maxTransfer snapshot_mixed) /\
  exists (i : nat) (conn : Connection),
    nth_error snapshot_mixed i = Some conn /\
    getRate conn = maxTransfer snapshot_mixed.
Proof.
  assert (Hne : snapshot_mixed <> []) by discriminate.
  assert (H : Forall (fun c => F32.valid (getRate c) = true /\ in_range (getRate c))
                     snapshot_mixed)
    by (repeat constructor).
  split; [exact Hne|]. split; [exact H|].
  destruct (tallest_bar snapshot_mixed Hne H) as (Hr & Hex & _).
  split; [exact Hr | exact Hex].
Defined.

(** ** The layout of the program as shipped *)

Lemma five_positions (conns : list Connection) :
  List.length conns = 5%nat ->
  map (fun g => (g_width g, g_x g)) (layout conns) =
  [ (F32.of_Z 160, F32.of_Z 80); (F32.of_Z 160, F32.of_Z 400);
    (F32.of_Z 160, F32.of_Z 720); (F32.of_Z 160, F32.of_Z 1040);
    (F32.of_Z 160, F32.of_Z 1360) ].
Proof.
  intros Hlen.
  destruct conns as [|c1 [|c2 [|c3 [|c4 [|c5 [|c6 rest]]]]]]; try discriminate.
  unfold layout. cbn [List.length geometries map barGeometry g_width g_x].
  repeat (f_equal; try (vm_compute; reflexivity)).
Qed.

(** X13.  [main] builds five channels, and so in every iteration of its loop
    the bars are 160 wide and start at x = 80, 400, 720, 1040 and 1360,
    whatever the rates: with five channels no position is rounded. *)
Theorem shipped_layout {G : Type} `{UniformReal G}
        (events : nat -> list Event) (n : nat) (gen : G) (m : BandwidthMonitor) :
  BandwidthMonitor_new true 5 = inr m ->
  map (fun g => (g_width g, g_x g))
      (layout (connections (fst (ticks n events 0 m gen)))) =
  [ (F32.of_Z 160, F32.of_Z 80); (F32.of_Z 160, F32.of_Z 400);
    (F32.of_Z 160, F32.of_Z 720); (F32.of_Z 160, F32.of_Z 1040);
    (F32.of_Z 160, F32.of_Z 1360) ].
Proof.
  intros Hm. inversion Hm; subst m. apply five_positions.
  rewrite <- (length_map getId), (ticks_ids events n 0 _ gen), length_map.
  reflexivity.
Qed.

Lemma shipped_layout_witness :
  BandwidthMonitor_new true 5 =
    inr {| connections := make_connections 0 5; window := window_create |} /\
  map (fun g => (g_width g, g_x g))
      (layout (connections (fst
         (ticks 3 (fun _ => [OtherEvent]) 0
                {| connections := make_connections 0 5; window := window_create |}
                Heads)))) =
  [ (F32.of_Z 160, F32.of_Z 80); (F32.of_Z 160, F32.of_Z 400);
    (F32.of_Z 160, F32.of_Z 720); (F32.of_Z 160, F32.of_Z 1040);
    (F32.of_Z 160, F32.of_Z 1360) ].
Proof.
  split; [reflexivity|].
  exact (shipped_layout (fun _ => [OtherEvent]) 3 Heads
           {| connections := make_connections 0 5; window := window_create |} eq_refl).
Defined.

(** ** Bars inside the window *)

(** From the order between two positive normal numbers to the order between
    their values. *)
Lemma lex_val_le (x y : float) (mx : positive) (ex : Z) (my : positive) (ey : Z) :
  normal_pos F32.prec F32.emax x mx ex -> normal_pos F32.prec F32.emax y my ey ->
  ex < ey \/ (ex = ey /\ Zpos mx <= Zpos my) ->
  (B2Q x <= B2Q y)%Q.
Proof.
  intros Hx Hy Hlex.
  rewrite (B2Q_normal _ _ _ Hx), (B2Q_normal _ _ _ Hy).
  destruct (canonical_lex_value F32.prec F32.emax eq_refl
              (Zpos mx) ex (Zpos my) ey eq_refl eq_refl) as [He Hm];
    try apply Hx; try apply Hy; trivial.
  rewrite <- (inject_scaled (Zpos my) ey ex He).
  apply Qmult_le_compat_r; [|apply Qlt_le_weak, two_pow_pos].
  now rewrite <- Zle_Qle.
Qed.

(** The first bar starts half a bar width from the left edge. *)
Lemma bar_x_first (bw : float) (mb : positive) (eb : Z) :
  normal_pos F32.prec F32.emax bw mb eb -> -40 <= eb <= -13 ->
  bar_x bw 0 = F32.div bw (F32.of_Z 2).
Proof.
  intros Hb He. unfold bar_x.
  destruct (half_val bw mb eb Hb He) as (mh & eh & (Hh & _) & _).
  destruct Hb as (-> & _). rewrite Hh. reflexivity.
Qed.

Lemma B2Q_of_Z_width : (B2Q (F32.of_Z width) == 1600)%Q.
Proof. reflexivity. Qed.

(** Up to 100000 channels the bar width is at least 2^-9 and, times twice the
    number of channels, at most 1600 up to two roundings. *)
Lemma barWidth_val (N : Z) :
  0 < N <= 100000 ->
  exists (mb : positive) (eb : Z),
    normal_pos F32.prec F32.emax (barWidth_of N) mb eb /\ -40 <= eb <= -13 /\
    ((1 # 512) <= B2Q (barWidth_of N) /\
     (1 - u32) * (2 * (inject_Z N * B2Q (barWidth_of N))) <= (1 + u32) * 1600)%Q.
Proof.
  intros HN. unfold barWidth_of.
  destruct (of_Z_val N ltac:(lia)) as (mN & eN & HnN & HeN & HvN).
  destruct (mul_val _ _ _ _ _ _ HnN of_Z_2_normal) as (md & ed & Hnd & Hed & Hd1 & Hd2);
    [lia|].
  destruct (div_val _ _ _ _ _ _ of_Z_width_normal Hnd) as (mb & eb & Hnb & Heb & Hq);
    [lia|].
  rewrite HvN, B2Q_of_Z_2 in Hd1, Hd2.
  rewrite B2Q_of_Z_width in Hq.
  pose proof (B2Q_normal_pos _ _ _ Hnb) as Pb.
  set (d := F32.mul (F32.of_Z N) (F32.of_Z 2)) in *.
  set (b := F32.div (F32.of_Z width) d) in *.
  assert (HNq : (inject_Z N <= 100000)%Q).
  { change 100000%Q with (inject_Z 100000). rewrite <- Zle_Qle. lia. }
  (* the exponent of the divisor *)
  assert (Hed5 : ed <= -5).
  { assert (Hn18 : normal_pos F32.prec F32.emax (S754_finite false 8388608 (-5))
                              8388608 (-5)) by (repeat split).
    assert (Hv18 : (B2Q (S754_finite false 8388608 (-5)) == 262144)%Q)
      by reflexivity.
    destruct (val_le_lex d _ md ed 8388608 (-5) Hnd Hn18); [|lia|lia].
    rewrite Hv18. unfold u32 in *. lra. }
  exists mb, eb. split; [exact Hnb|]. split; [lia|]. split.
  - assert (Hn9 : normal_pos F32.prec F32.emax (S754_finite false 8388608 (-32))
                             8388608 (-32)) by (repeat split).
    assert (Hv9 : (B2Q (S754_finite false 8388608 (-32)) == 1 # 512)%Q)
      by reflexivity.
    rewrite <- Hv9.
    apply (lex_val_le _ _ 8388608 (-32) mb eb Hn9 Hnb).
    destruct (normal_pos_bounds F32.prec F32.emax _ _ _ Hnb) as [[Hm1 _] _].
    change (2 ^ (F32.prec - 1)) with 8388608 in Hm1. lia.
  - assert (Hmul : ((1 - u32) * (inject_Z N * 2) * B2Q b <= B2Q d * B2Q b)%Q)
      by (apply Qmult_le_compat_r; [exact Hd1 | lra]).
    setoid_replace ((1 - u32) * (2 * (inject_Z N * B2Q b)))%Q
      with ((1 - u32) * (inject_Z N * 2) * B2Q b)%Q by ring.
    setoid_replace (B2Q d * B2Q b)%Q with (B2Q b * B2Q d)%Q in Hmul by ring.
    lra.
Qed.

Lemma bar_inside (N k : Z) :
  0 < N <= 100000 -> 0 <= k <= 2 * N - 2 ->
  F32.ltb F32.zero (bar_x (barWidth_of N) k) = true /\
  F32.leb (F32.add (bar_x (barWidth_of N) k) (barWidth_of N)) (F32.of_Z width) = true.
Proof.
  intros HN Hk.
  destruct (barWidth_val N HN) as (mb & eb & Hb & Heb & Hlo & Hup).
  destruct (bar_x_val _ mb eb k Hb Heb ltac:(lia)) as (m & e & Hn & Hbd & Hx & _).
  destruct (half_val _ mb eb Hb Heb) as (mh & eh & Hnh & _ & HH).
  pose proof (B2Q_normal_pos _ _ _ Hnh) as PH.
  set (bw := barWidth_of N) in *.
  set (b := B2Q bw) in *. set (H := B2Q (F32.div bw (F32.of_Z 2))) in *.
  set (X := B2Q (bar_x bw k)) in *.
  split; [destruct Hn as (-> & _); reflexivity|].
  apply (add_le_val _ _ _ m e mb eb 13107200 (-13) Hn Hb of_Z_width_normal);
    [lia|].
  rewrite B2Q_of_Z_width. fold X b.
  assert (Hkb : (0 <= inject_Z k * b /\
                 inject_Z k * b <= 2 * (inject_Z N * b) - 2 * b)%Q).
  { split.
    - apply Qmult_le_0_compat; [|lra]. rewrite <- (Zle_Qle 0). lia.
    - setoid_replace (2 * (inject_Z N * b) - 2 * b)%Q
        with (inject_Z (2 * N - 2) * b)%Q.
      + apply Qmult_le_compat_r; [|lra]. rewrite <- Zle_Qle. lia.
      + unfold Z.sub. rewrite inject_Z_plus, inject_Z_mult.
        change (inject_Z 2) with 2%Q. change (inject_Z (- (2))) with (- (2))%Q. ring. }
  set (kb := (inject_Z k * b)%Q) in *. set (t := (inject_Z N * b)%Q) in *.
  unfold u32 in *. lra.
Qed.

(** X14.  Up to 100000 channels every bar lies inside the window
    horizontally: its left edge is to the right of 0, its right edge
    (x + barWidth, in binary32) is at most [width], and the first bar starts
    half a bar width from the left. *)
Theorem bars_inside_window (conns : list Connection) (i : nat) (g : BarGeometry) :
  Z.of_nat (List.length conns) <= 100000 ->
  nth_error (layout conns) i = Some g ->
  F32.ltb F32.zero (g_x g) = true /\
  F32.leb (F32.add (g_x g) (g_width g)) (F32.of_Z width) = true /\
  (i = 0%nat -> g_x g = F32.div (g_width g) (F32.of_Z 2)).
Proof.
  intros Hlen Hg.
  assert (Hmax : Z.of_nat (List.length conns) <= INT_MAX) by (unfold INT_MAX; lia).
  destruct (layout_nth conns i g Hmax Hg) as [Hw Hx].
  assert (Hi : (i < List.length conns)%nat).
  { rewrite <- (geometries_length (maxTransfer conns)
                  (barWidth_of (Z.of_nat (List.length conns))) conns 0).
    apply nth_error_Some. unfold layout in Hg. congruence. }
  rewrite Hw, Hx.
  destruct (bar_inside (Z.of_nat (List.length conns)) (Z.of_nat i * 2)
              ltac:(lia) ltac:(lia)) as [H0 H1].
  split; [exact H0|]. split; [exact H1|].
  intros ->. destruct (barWidth_val (Z.of_nat (List.length conns)) ltac:(lia))
    as (mb & eb & Hb & Heb & _).
  exact (bar_x_first _ mb eb Hb Heb).
Qed.

Lemma bars_inside_window_witness :
  Z.of_nat (List.length snapshot_mixed) <= 100000 /\
  nth_error (layout snapshot_mixed) 2 =
    Some (barGeometry (maxTransfer snapshot_mixed) (barWidth_of 3) 2
            {| id := "Conn-3"; transferRate := F32.of_Z 5000 |}) /\
  F32.leb (F32.add (bar_x (barWidth_of 3) 4) (barWidth_of 3)) (F32.of_Z width) = true.
Proof.
  assert (Hlen : Z.of_nat (List.length snapshot_mixed) <= 100000)
    by (vm_compute; discriminate).
  split; [exact Hlen|]. split; [reflexivity|].
  exact (proj1 (proj2 (bars_inside_window snapshot_mixed 2 _ Hlen eq_refl))).
Defined.

(** ** The vertical placement of the bars *)

Section RoundLower.
Variables prec emax : Z.
Hypothesis prec_pos : 0 < prec.

(** Rounding never crosses a representable value from above either: if what
    is rounded is at least the canonical [mf * 2 ^ ef], so is the result. *)
Lemma binary_round_aux_ge (mx ex : Z) (lx : location) (mf : positive) (ef : Z) :
  0 < mx -> ex <= fexp prec emax (Zdigits2 mx + ex) ->
  canonical prec emax (Zpos mf) ef ->
  (inject_Z (Zpos mf) * 2 ^ ef <= inject_Z mx * 2 ^ ex)%Q ->
  binary_round_aux prec emax false mx ex lx = S754_infinity false \/
  exists (m : positive) (e : Z),
    binary_round_aux prec emax false mx ex lx = S754_finite false m e /\
    canonical prec emax (Zpos m) e /\
    (ef < e \/ (ef = e /\ Zpos mf <= Zpos m)).
Proof.
  intros Hmx Hex Hcf Hval.
  destruct (binary_round_aux_shape prec emax prec_pos false mx ex lx ltac:(lia) Hex)
    as (m2 & m3 & e3 & Hm2 & _ & He3 & Hm23 & Hm3 & Hc3 & ->).
  set (e1 := fexp prec emax (Zdigits2 mx + ex)) in *.
  set (n := e1 - ex) in *.
  assert (Hn : 0 <= n) by (unfold n; lia).
  assert (Hpn : 0 < 2 ^ n) by (apply pow2_pos; lia).
  assert (Hpe : 0 < 2 ^ (e3 - e1)) by (apply pow2_pos; lia).
  assert (Hkey : 0 < m3 /\ (ef < e3 \/ (ef = e3 /\ Zpos mf <= m3))).
  { destruct (Z.le_gt_cases e1 ef) as [Hge|Hlt].
    - assert (Hxf : ex <= ef) by (unfold n in Hn; lia).
      pose proof (scaled_le (Zpos mf) ef mx ex ex Hxf (Z.le_refl ex) Hval) as Hz.
      rewrite Z.sub_diag, Z.pow_0_r, Z.mul_1_r in Hz.
      replace (ef - ex) with (ef - e1 + n) in Hz by (unfold n; lia).
      rewrite pow2_split in Hz by lia.
      assert (Hpf : 0 < 2 ^ (ef - e1)) by (apply pow2_pos; lia).
      assert (H1 : Zpos mf * 2 ^ (ef - e1) <= mx / 2 ^ n)
        by (apply Z.div_le_lower_bound; lia).
      assert (H3 : 0 < m3) by nia.
      split; [exact H3|].
      apply (canonical_value_lex prec emax prec_pos (Zpos mf) ef m3 e3 e1);
        trivial; try lia.
      destruct Hc3; [lia | trivial].
    - pose proof (proj1 (canonical_iff prec emax _ _) Hcf) as (_ & Hemin & _).
      assert (Hd : e1 = Zdigits2 mx + ex - prec) by (unfold e1, fexp in *; lia).
      destruct (Zdigits2_bounds mx Hmx) as [Hlo _].
      replace (Zdigits2 mx - 1) with (n + (prec - 1)) in Hlo by (unfold n; lia).
      rewrite pow2_split in Hlo by lia.
      assert (Hpp : 0 < 2 ^ (prec - 1)) by (apply pow2_pos; lia).
      assert (H1 : 2 ^ (prec - 1) <= mx / 2 ^ n)
        by (apply Z.div_le_lower_bound; lia).
      split; [nia | left; lia]. }
  destruct Hkey as [H3 Hlex].
  destruct m3 as [|m|m]; try lia. destruct Hc3 as [|Hc3]; [discriminate|].
  destruct (e3 <=? emax - prec); [right | now left].
  exists m, e3. repeat split; trivial.
Qed.

End RoundLower.

Lemma shl_align_min (mx : positive) (ex ex' : Z) :
  exists mz, shl_align mx ex ex' = (mz, Z.min ex ex') /\
             Zpos mz = Zpos mx * 2 ^ (ex - Z.min ex ex').
Proof.
  destruct (Z.le_ge_cases ex ex') as [Hle|Hge].
  - exists mx. rewrite shl_align_id by trivial.
    replace (Z.min ex ex') with ex by lia.
    rewrite Z.sub_diag. split; [reflexivity | simpl; lia].
  - replace (Z.min ex ex') with ex' by lia. apply shl_align_shift. lia.
Qed.

(** Rounding a positive integer mantissa whose value lies between two
    positive normal numbers gives a normal number between the two. *)
Lemma binary_round_between (d : positive) (ez : Z) (lo hi : float)
      (ml : positive) (el : Z) (mh : positive) (eh : Z) :
  normal_pos F32.prec F32.emax lo ml el -> normal_pos F32.prec F32.emax hi mh eh ->
  eh <= 104 ->
  (B2Q lo <= inject_Z (Zpos d) * 2 ^ ez)%Q ->
  (inject_Z (Zpos d) * 2 ^ ez <= B2Q hi)%Q ->
  exists (m : positive) (e : Z),
    normal_pos F32.prec F32.emax (binary_round F32.prec F32.emax false d ez) m e /\
    (el < e \/ (el = e /\ Zpos ml <= Zpos m)) /\
    (e < eh \/ (e = eh /\ Zpos m <= Zpos mh)).
Proof.
  intros Hlo Hhi Heh Hl Hh.
  rewrite (B2Q_normal _ _ _ Hlo) in Hl. rewrite (B2Q_normal _ _ _ Hhi) in Hh.
  destruct (normal_pos_bounds F32.prec F32.emax _ _ _ Hlo) as [[Hml1 Hml2] Hel].
  destruct (normal_pos_bounds F32.prec F32.emax _ _ _ Hhi) as [[Hmh1 Hmh2] Heh'].
  destruct Hlo as (_ & Hcl & Hdl). destruct Hhi as (_ & Hch & Hdh).
  unfold binary_round.
  change (Zpos (digits2_pos d)) with (Zdigits2 (Zpos d)).
  set (e' := fexp F32.prec F32.emax (Zdigits2 (Zpos d) + ez)).
  destruct (shl_align_min d ez e') as (mz & -> & Hmz).
  set (ez' := Z.min ez e') in *.
  assert (Hdz : Zdigits2 (Zpos mz) + ez' = Zdigits2 (Zpos d) + ez).
  { rewrite Hmz, Zdigits2_shift by (unfold ez'; lia). lia. }
  assert (Hex : ez' <= fexp F32.prec F32.emax (Zdigits2 (Zpos mz) + ez')).
  { rewrite Hdz. fold e'. unfold ez'. lia. }
  assert (Hvz : (inject_Z (Zpos mz) * 2 ^ ez' == inject_Z (Zpos d) * 2 ^ ez)%Q).
  { rewrite Hmz. apply inject_scaled. unfold ez'. lia. }
  rewrite <- Hvz in Hl, Hh.
  (* the target exponent is not above that of the upper bound *)
  assert (He'h : e' <= eh).
  { pose proof Hch as Hch'. unfold canonical in Hch'. rewrite <- Hch'.
    unfold e'. apply fexp_mono. rewrite <- Hdz, Hdh.
    set (e0 := Z.min ez' eh).
    assert (H01 : e0 <= ez') by (unfold e0; lia).
    assert (H02 : e0 <= eh) by (unfold e0; lia).
    pose proof (scaled_le (Zpos mz) ez' (Zpos mh) eh e0 H01 H02 Hh) as Hz.
    destruct (Zdigits2_bounds (Zpos mz) eq_refl) as [Hzlo _].
    assert (Hd1 : 0 < Zdigits2 (Zpos mz)) by (simpl; lia).
    enough (Zdigits2 (Zpos mz) - 1 + (ez' - e0) < F32.prec + (eh - e0)) by lia.
    apply (Z.pow_lt_mono_r_iff 2); [lia | unfold e0, F32.prec; lia |].
    rewrite !pow2_split by (unfold e0, F32.prec; lia).
    assert (0 < 2 ^ (ez' - e0)) by (apply pow2_pos; unfold e0; lia).
    assert (0 < 2 ^ (eh - e0)) by (apply pow2_pos; unfold e0; lia).
    nia. }
  assert (Hup : Zpos mz + 0 <= Zpos mh * 2 ^ (eh - ez')).
  { assert (H0h : ez' <= eh) by (unfold ez'; lia).
    pose proof (scaled_le (Zpos mz) ez' (Zpos mh) eh ez' (Z.le_refl ez') H0h Hh) as Hz.
    rewrite Z.sub_diag, Z.pow_0_r, Z.mul_1_r in Hz. lia. }
  destruct (binary_round_aux_le F32.prec F32.emax eq_refl false (Zpos mz) ez'
              loc_Exact mh eh ltac:(lia) Hex Hch
              ltac:(unfold F32.emax, F32.prec; lia) ltac:(unfold ez'; lia) Hup)
    as [Hzero | (m & e & Hr & Hc & Hb & Hle)];
    destruct (binary_round_aux_ge F32.prec F32.emax eq_refl (Zpos mz) ez'
                loc_Exact ml el eq_refl Hex Hcl Hl)
      as [Hinf | (m' & e'' & Hr' & Hc' & Hge)];
    try congruence.
  rewrite Hr in Hr'. inversion Hr'; subst m' e''.
  exists m, e. split; [|split; trivial].
  split; [exact Hr|]. split; [exact Hc|].
  pose proof (proj1 (canonical_iff F32.prec F32.emax _ _) Hc) as (Hdle & _ & Hor).
  destruct Hor as [|Hemin]; trivial.
  apply Z.le_antisymm; trivial.
  enough (F32.prec - 1 < Zdigits2 (Zpos m)) by lia.
  apply Zdigits2_gt; [unfold F32.prec; lia | lia].
Qed.

(** The difference of two positive normal numbers, when it lies between two
    positive normal numbers, rounds to a normal number between them. *)
Lemma sub_between (a b lo hi : float) (ma : positive) (ea : Z) (mb : positive) (eb : Z)
      (ml : positive) (el : Z) (mh : positive) (eh : Z) :
  normal_pos F32.prec F32.emax a ma ea -> normal_pos F32.prec F32.emax b mb eb ->
  normal_pos F32.prec F32.emax lo ml el -> normal_pos F32.prec F32.emax hi mh eh ->
  eh <= 104 ->
  (B2Q lo + B2Q b <= B2Q a)%Q -> (B2Q a <= B2Q hi + B2Q b)%Q ->
  exists (m : positive) (e : Z),
    normal_pos F32.prec F32.emax (F32.sub a b) m e /\
    F32.leb lo (F32.sub a b) = true /\ F32.leb (F32.sub a b) hi = true /\
    (B2Q lo <= B2Q (F32.sub a b) /\ B2Q (F32.sub a b) <= B2Q hi)%Q.
Proof.
  intros Ha Hb Hlo Hhi Heh Hl Hh.
  pose proof (B2Q_normal_pos _ _ _ Hlo) as Pl.
  rewrite (B2Q_normal _ _ _ Ha), (B2Q_normal _ _ _ Hb) in Hl, Hh.
  set (ez := Z.min ea eb).
  rewrite <- (inject_scaled (Zpos ma) ea ez), <- (inject_scaled (Zpos mb) eb ez)
    in Hl, Hh by (unfold ez; lia).
  pose proof (shl_align_fst ma ea ez ltac:(unfold ez; lia)) as Hsa.
  pose proof (shl_align_fst mb eb ez ltac:(unfold ez; lia)) as Hsb.
  remember (Zpos ma * 2 ^ (ea - ez) - Zpos mb * 2 ^ (eb - ez)) as D eqn:ED.
  assert (Hsub : F32.sub a b = binary_normalize F32.prec F32.emax D ez false).
  { destruct Ha as (-> & _), Hb as (-> & _). unfold F32.sub, SFsub. fold ez.
    cbn [cond_Zopp]. rewrite Hsa, Hsb, ED. reflexivity. }
  pose proof (two_pow_pos ez) as Pz.
  assert (HD : (inject_Z D * 2 ^ ez ==
                inject_Z (Zpos ma * 2 ^ (ea - ez)) * 2 ^ ez
                - inject_Z (Zpos mb * 2 ^ (eb - ez)) * 2 ^ ez)%Q).
  { rewrite ED. unfold Z.sub. rewrite inject_Z_plus, inject_Z_opp. ring. }
  assert (Hl' : (B2Q lo <= inject_Z D * 2 ^ ez)%Q) by (rewrite HD; lra).
  assert (Hh' : (inject_Z D * 2 ^ ez <= B2Q hi)%Q) by (rewrite HD; lra).
  assert (HDpos : 0 < D).
  { destruct (Z.lt_ge_cases 0 D) as [|Hneg]; trivial. exfalso.
    assert (Hq : (inject_Z D * 2 ^ ez <= 0 * 2 ^ ez)%Q).
    { apply Qmult_le_compat_r; [|lra].
      change 0%Q with (inject_Z 0). rewrite <- Zle_Qle. lia. }
    lra. }
  clear ED HD. destruct D as [|d|d]; try lia.
  rewrite Hsub. cbn [binary_normalize].
  destruct (binary_round_between d ez lo hi ml el mh eh Hlo Hhi Heh Hl' Hh')
    as (m & e & Hn & Hge & Hle).
  exists m, e. split; [exact Hn|].
  pose proof (lex_val_le _ _ _ _ _ _ Hlo Hn Hge) as Hv1.
  pose proof (lex_val_le _ _ _ _ _ _ Hn Hhi Hle) as Hv2.
  destruct Hn as (Hr & _). rewrite Hr in *.
  destruct Hlo as (-> & _), Hhi as (-> & _).
  split; [now apply leb_finite_lex|]. split; [now apply leb_finite_lex|].
  split; assumption.
Qed.

(** The height of a bar on rates within the bounds: a positive normal number
    of value at most 1100. *)
Lemma height_normal (r maxT : float) :
  F32.valid r = true -> in_range r -> F32.valid maxT = true -> in_range maxT ->
  F32.leb r maxT = true ->
  exists (mh : positive) (eh : Z),
    normal_pos F32.prec F32.emax
               (F32.mul (F32.div r maxT) (F32.of_Z (height - 100))) mh eh /\
    (B2Q (F32.mul (F32.div r maxT) (F32.of_Z (height - 100))) <= 1100)%Q.
Proof.
  intros Vr Rr Vm Rm Hle.
  destruct (height_bounded r maxT Vr Vm (in_range_pos_finite _ Rr)
              (in_range_pos_finite _ Rm) Hle) as [_ Hh].
  destruct (in_range_normal r Vr Rr) as (m1 & e1 & Hn1 & Hlo1 & Hhi1).
  destruct (in_range_normal maxT Vm Rm) as (m2 & e2 & Hn2 & Hlo2 & Hhi2).
  destruct (div_val _ _ _ _ _ _ Hn1 Hn2) as (mq & eq & Hnq & Heq & _); [lia|].
  assert (Hn1100 : normal_pos F32.prec F32.emax (F32.of_Z (height - 100))
                              9011200 (-13)) by (repeat split).
  destruct (mul_val _ _ _ _ _ _ Hnq Hn1100) as (mh & eh & Hnh & Heh & _); [lia|].
  exists mh, eh. split; [exact Hnh|].
  assert (Hv : (B2Q (F32.of_Z (height - 100)) == 1100)%Q) by reflexivity.
  rewrite <- Hv. apply (lex_val_le _ _ mh eh 9011200 (-13) Hnh Hn1100).
  destruct Hnh as (Hr & _). rewrite Hr in Hh.
  now apply leb_finite_lex in Hh.
Qed.

(** ** Rounding to nearest is monotone *)

Lemma inbetween_ext (t t' : Q) (m : Z) (l : location) :
  (t == t')%Q -> inbetween t m l -> inbetween t' m l.
Proof.
  intros Heq. destruct l as [|[]]; unfold inbetween; intros H; lra.
Qed.

(** One step of the shift halves the value the record stands for. *)
Lemma shr_1_inbetween (mrs : shr_record) (t t' : Q) :
  0 <= shr_m mrs -> (t' * 2 == t)%Q ->
  inbetween t (shr_m mrs) (loc_of_shr_record mrs) ->
  inbetween t' (shr_m (shr_1 mrs)) (loc_of_shr_record (shr_1 mrs)).
Proof.
  assert (HI : forall p, (inject_Z (Zpos p~1) == 2 * inject_Z (Zpos p) + 1)%Q).
  { intros p. rewrite Pos2Z.inj_xI, inject_Z_plus, inject_Z_mult. reflexivity. }
  assert (HO : forall p, (inject_Z (Zpos p~0) == 2 * inject_Z (Zpos p))%Q).
  { intros p. rewrite Pos2Z.inj_xO, inject_Z_mult. reflexivity. }
  destruct mrs as [m r s]. cbn [shr_m]. intros Hm Ht.
  destruct m as [|[p|p|]|p]; try lia;
    try (pose proof (HI p) as Hp1); try (pose proof (HO p) as Hp0);
    destruct r, s; cbn [shr_1 shr_m loc_of_shr_record orb inbetween];
    change (inject_Z 1) with 1%Q; change (inject_Z 0) with 0%Q; intros H; lra.
Qed.

Lemma iter_pos_inbetween (p : positive) :
  forall (mrs : shr_record) (t t' : Q),
    0 <= shr_m mrs -> (t' * 2 ^ Zpos p == t)%Q ->
    inbetween t (shr_m mrs) (loc_of_shr_record mrs) ->
    inbetween t' (shr_m (SpecFloat.iter_pos shr_1 p mrs))
              (loc_of_shr_record (SpecFloat.iter_pos shr_1 p mrs)).
Proof.
  induction p as [p IH|p IH|]; intros mrs t t' Hm Ht Hin; cbn [SpecFloat.iter_pos].
  - pose proof (shr_rel_1 mrs Hm) as H1.
    pose proof (iter_pos_shr_rel p _ (proj1 H1)) as H2.
    replace (Zpos p~1) with (Zpos p + (Zpos p + 1)) in Ht by lia.
    rewrite !two_pow_add in Ht. change (2 ^ 1)%Q with 2%Q in Ht.
    apply (IH _ (t' * 2 ^ Zpos p)%Q t' (proj1 H2) ltac:(reflexivity)).
    apply (IH _ (t' * 2 ^ Zpos p * 2 ^ Zpos p)%Q _ (proj1 H1) ltac:(reflexivity)).
    apply (shr_1_inbetween mrs t _ Hm); [|exact Hin].
    rewrite <- Ht. ring.
  - pose proof (iter_pos_shr_rel p _ Hm) as H2.
    replace (Zpos p~0) with (Zpos p + Zpos p) in Ht by lia.
    rewrite two_pow_add in Ht.
    apply (IH _ (t' * 2 ^ Zpos p)%Q t' (proj1 H2) ltac:(reflexivity)).
    apply (IH _ t _ Hm); [|exact Hin].
    rewrite <- Ht. ring.
  - apply (shr_1_inbetween mrs t t' Hm); [|exact Hin].
    rewrite <- Ht. reflexivity.
Qed.

(** [shr] keeps track of the value: after a shift by [n] the record locates
    the value divided by [2 ^ n]. *)
Lemma shr_inbetween (m e n : Z) (l : location) (t t' : Q) :
  0 <= m -> 0 <= n -> inbetween t m l -> (t' * 2 ^ n == t)%Q ->
  inbetween t' (shr_m (fst (shr (shr_record_of_loc m l) e n)))
            (loc_of_shr_record (fst (shr (shr_record_of_loc m l) e n))).
Proof.
  intros Hm Hn Hin Ht. destruct n as [|p|p]; try lia; cbn [shr fst].
  - rewrite shr_m_shr_record_of_loc, loc_of_shr_record_of_loc.
    apply (inbetween_ext t); [|exact Hin].
    rewrite <- Ht. change (2 ^ 0)%Q with 1%Q. ring.
  - apply (iter_pos_inbetween p _ t t'); trivial.
    + now rewrite shr_m_shr_record_of_loc.
    + now rewrite shr_m_shr_record_of_loc, loc_of_shr_record_of_loc.
Qed.

Lemma round_nearest_even_nearest (t : Q) (m : Z) (l : location) :
  inbetween t m l -> nearest_even t (round_nearest_even m l).
Proof.
  assert (Hs : (inject_Z (m + 1) == inject_Z m + 1)%Q)
    by (rewrite inject_Z_plus; reflexivity).
  assert (He : Z.even m = false -> Z.even (m + 1) = true).
  { intros H. rewrite Z.even_add, H. reflexivity. }
  destruct l as [|[]]; unfold inbetween, nearest_even, round_nearest_even; intros H.
  - split; [lra|]. intros [H1|H1]; lra.
  - destruct (Z.even m) eqn:E.
    + split; [lra|]. intros _. exact E.
    + rewrite Hs. split; [lra|]. intros _. now apply He.
  - split; [lra|]. intros [H1|H1]; lra.
  - rewrite Hs. split; [lra|]. intros [H1|H1]; lra.
Qed.

Lemma nearest_even_mono (t1 t2 : Q) (a b : Z) :
  (t1 <= t2)%Q -> nearest_even t1 a -> nearest_even t2 b -> a <= b.
Proof.
  intros Hle [[Ha1 Ha2] Hae] [[Hb1 Hb2] Hbe].
  destruct (Z.le_gt_cases a b) as [|Hgt]; trivial. exfalso.
  assert (Hab : (inject_Z b + 1 <= inject_Z a)%Q).
  { change 1%Q with (inject_Z 1). rewrite <- inject_Z_plus, <- Zle_Qle. lia. }
  assert (Ea : Z.even a = true) by (apply Hae; left; lra).
  assert (Eb : Z.even b = true) by (apply Hbe; right; lra).
  assert (Hle2 : a <= b + 1)
    by (rewrite Zle_Qle, inject_Z_plus; change (inject_Z 1) with 1%Q; lra).
  assert (Heq : a = b + 1) by lia. subst a.
  rewrite Z.even_add, Eb in Ea. discriminate.
Qed.

Section RoundNearest.
Variables prec emax : Z.
Hypothesis prec_pos : 0 < prec.

(** The rounding step of [binary_round_aux] picks the integer nearest to the
    value at the target exponent, the even one on a tie. *)
Lemma binary_round_aux_nearest (sx : bool) (mx ex : Z) (lx : location) (t t' : Q) :
  0 <= mx -> ex <= fexp prec emax (Zdigits2 mx + ex) ->
  inbetween t mx lx ->
  (t' * 2 ^ (fexp prec emax (Zdigits2 mx + ex) - ex) == t)%Q ->
  let e1 := fexp prec emax (Zdigits2 mx + ex) in
  let m1 := mx / 2 ^ (e1 - ex) in
  exists m2 m3 e3 : Z,
    m1 <= m2 <= m1 + 1 /\
    nearest_even t' m2 /\
    e1 <= e3 <= e1 + 1 /\ m2 = m3 * 2 ^ (e3 - e1) /\
    0 <= m3 /\ (m3 = 0 \/ canonical prec emax m3 e3) /\
    binary_round_aux prec emax sx mx ex lx =
    match m3 with
    | Z0 => S754_zero sx
    | Zpos m => if e3 <=? emax - prec then S754_finite sx m e3
                else S754_infinity sx
    | Zneg _ => S754_nan
    end.
Proof.
  intros Hmx Hex Hin Ht e1 m1. fold e1 in Ht.
  assert (Hn : 0 <= e1 - ex) by (unfold e1; lia).
  assert (Hpn : 0 < 2 ^ (e1 - ex)) by (apply Z.pow_pos_nonneg; lia).
  assert (Hm1 : 0 <= m1) by (apply Z.div_pos; lia).
  assert (He1 : emin prec emax <= e1) by apply fexp_ge_emin.
  assert (Hm1hi : m1 < 2 ^ prec).
  { apply Z.div_lt_upper_bound; [lia|].
    rewrite <- Z.pow_add_r by lia.
    destruct (Z.eq_dec mx 0) as [->|Hnz]; [apply Z.pow_pos_nonneg; lia|].
    destruct (Zdigits2_bounds mx ltac:(lia)) as [_ Hhi].
    eapply Z.lt_le_trans; [exact Hhi|].
    apply Z.pow_le_mono_r; [lia|]. unfold e1, fexp. lia. }
  assert (Hm1lo : 2 ^ (prec - 1) <= m1 \/ e1 = emin prec emax).
  { destruct (Z.eq_dec e1 (emin prec emax)) as [|Hne]; [now right|left].
    assert (Hd : e1 = Zdigits2 mx + ex - prec) by (unfold e1, fexp in *; lia).
    assert (Hmxpos : 0 < mx).
    { destruct (Z.eq_dec mx 0) as [->|]; [|lia]. simpl in Hd. lia. }
    destruct (Zdigits2_bounds mx Hmxpos) as [Hlo _].
    apply Z.div_le_lower_bound; [lia|].
    rewrite <- Z.pow_add_r by lia.
    replace (e1 - ex + (prec - 1)) with (Zdigits2 mx - 1) by lia. exact Hlo. }
  unfold binary_round_aux, shr_fexp. fold e1.
  pose proof (shr_spec mx ex (e1 - ex) lx Hmx Hn) as S1.
  pose proof (shr_inbetween mx ex (e1 - ex) lx t t' Hmx Hn Hin Ht) as S0.
  destruct (shr (shr_record_of_loc mx lx) ex (e1 - ex)) as [mrs' e'].
  cbn [fst] in S0.
  destruct S1 as (He' & Hq & _). fold m1 in Hq.
  replace e' with e1 by lia.
  pose proof (round_nearest_even_nearest _ _ _ S0) as Hnear.
  set (m2 := round_nearest_even (shr_m mrs') (loc_of_shr_record mrs')) in *.
  destruct (round_nearest_even_bounds (shr_m mrs') (loc_of_shr_record mrs'))
    as [Hm2 _].
  fold m2 in Hm2. rewrite Hq in Hm2.
  assert (Hm2nn : 0 <= m2) by lia.
  destruct (Z.eq_dec m2 (2 ^ prec)) as [Hcarry|Hnocarry].
  - assert (Hd2 : Zdigits2 m2 = prec + 1).
    { apply Z.le_antisymm.
      - apply Zdigits2_le; [lia|]. rewrite Hcarry.
        split; [apply Z.pow_nonneg; lia|]. apply Z.pow_lt_mono_r; lia.
      - enough (prec < Zdigits2 m2) by lia.
        apply Zdigits2_gt; lia. }
    assert (Hn2 : fexp prec emax (Zdigits2 m2 + e1) - e1 = 1)
      by (rewrite Hd2; unfold fexp; lia).
    rewrite Hn2.
    pose proof (shr_spec m2 e1 1 loc_Exact Hm2nn ltac:(lia)) as S2.
    destruct (shr (shr_record_of_loc m2 loc_Exact) e1 1) as [mrs'' e''].
    destruct S2 as (He'' & Hq2 & _).
    assert (Hm3 : shr_m mrs'' = 2 ^ (prec - 1)).
    { rewrite Hq2, Hcarry. change (2 ^ 1) with 2.
      replace prec with (Z.succ (prec - 1)) at 1 by lia.
      rewrite Z.pow_succ_r by lia.
      rewrite Z.mul_comm, Z.div_mul by lia. reflexivity. }
    exists m2, (2 ^ (prec - 1)), (e1 + 1).
    assert (Hp1 : 0 < 2 ^ (prec - 1)) by (apply Z.pow_pos_nonneg; lia).
    split; [lia|]. split; [exact Hnear|]. split; [lia|].
    split; [|split; [lia|split]].
    + replace (e1 + 1 - e1) with 1 by lia. change (2 ^ 1) with 2.
      rewrite Hcarry. replace prec with (Z.succ (prec - 1)) at 1 by lia.
      rewrite Z.pow_succ_r by lia. lia.
    + right. apply canonical_iff.
      assert (Zdigits2 (2 ^ (prec - 1)) = prec).
      { apply Z.le_antisymm.
        - apply Zdigits2_le; [lia|]. split; [lia|]. apply Z.pow_lt_mono_r; lia.
        - enough (prec - 1 < Zdigits2 (2 ^ (prec - 1))) by lia.
          apply Zdigits2_gt; lia. }
      lia.
    + rewrite Hm3, He''. reflexivity.
  - assert (Hm2hi : m2 < 2 ^ prec) by lia.
    assert (Hd2 : Zdigits2 m2 <= prec) by (apply Zdigits2_le; lia).
    rewrite shr_nonpos by (unfold fexp; lia).
    rewrite shr_m_shr_record_of_loc.
    exists m2, m2, e1.
    split; [lia|]. split; [exact Hnear|]. split; [lia|].
    split; [|split; [lia|split; [|reflexivity]]].
    + rewrite Z.sub_diag. simpl. lia.
    + destruct (Z.eq_dec m2 0) as [|Hnz]; [now left|right].
      apply canonical_iff. repeat split; try lia.
      destruct Hm1lo as [Hlo|]; [left|now right].
      enough (prec - 1 < Zdigits2 m2) by lia.
      apply Zdigits2_gt; lia.
Qed.

End RoundNearest.

Lemma two_pow_le (a b : Z) : a <= b -> (2 ^ a <= 2 ^ b)%Q.
Proof.
  intros Hle. replace b with (a + (b - a)) by lia. rewrite two_pow_add.
  pose proof (two_pow_pos a) as Pa.
  assert (H1 : (1 <= 2 ^ (b - a))%Q).
  { rewrite <- inject_pow by lia. change 1%Q with (inject_Z 1).
    rewrite <- Zle_Qle. pose proof (pow2_pos (b - a)). lia. }
  setoid_replace (2 ^ a)%Q with (2 ^ a * 1)%Q at 1 by ring.
  apply Qmult_le_l; trivial.
Qed.

Lemma two_pow_lt_inv (a b : Z) : (2 ^ a < 2 ^ b)%Q -> a < b.
Proof.
  intros Hlt. destruct (Z.lt_ge_cases a b) as [|Hge]; trivial.
  pose proof (two_pow_le b a ltac:(lia)). lra.
Qed.

(** From an order between scaled mantissas to the order between values. *)
Lemma scaled_le_inv (m1 e1 m2 e2 e0 : Z) :
  e0 <= e1 -> e0 <= e2 ->
  m1 * 2 ^ (e1 - e0) <= m2 * 2 ^ (e2 - e0) ->
  (inject_Z m1 * 2 ^ e1 <= inject_Z m2 * 2 ^ e2)%Q.
Proof.
  intros H1 H2 Hle.
  rewrite <- (inject_scaled m1 e1 e0 H1), <- (inject_scaled m2 e2 e0 H2).
  apply Qmult_le_compat_r; [|apply Qlt_le_weak, two_pow_pos].
  now rewrite <- Zle_Qle.
Qed.

Lemma inbetween_bounds (t : Q) (m : Z) (l : location) :
  inbetween t m l -> (inject_Z m <= t /\ t < inject_Z m + 1)%Q.
Proof. destruct l as [|[]]; unfold inbetween; intros H; lra. Qed.

Section RoundMono.
Variables prec emax : Z.
Hypothesis prec_pos : 0 < prec.

(** Rounding is monotone: of two positive values in the normal range, the
    smaller one does not round above the larger one. *)
Lemma binary_round_aux_mono (mx ex : Z) (lx : location) (tx : Q)
      (my ey : Z) (ly : location) (ty : Q) :
  0 < mx -> prec <= Zdigits2 mx -> emin prec emax <= Zdigits2 mx + ex - prec ->
  0 < my -> prec <= Zdigits2 my -> emin prec emax <= Zdigits2 my + ey - prec ->
  Zdigits2 my + ey + 1 <= emax ->
  inbetween tx mx lx -> inbetween ty my ly ->
  (tx * 2 ^ ex <= ty * 2 ^ ey)%Q ->
  SFleb (binary_round_aux prec emax false mx ex lx)
        (binary_round_aux prec emax false my ey ly) = true.
Proof.
  intros Hmx Hdx Hlox Hmy Hdy Hloy Hhiy Hinx Hiny Hval.
  destruct (Zdigits2_bounds mx Hmx) as [Hx1 Hx2].
  destruct (Zdigits2_bounds my Hmy) as [Hy1 Hy2].
  set (dx := Zdigits2 mx) in *. set (dy := Zdigits2 my) in *.
  destruct (inbetween_bounds _ _ _ Hinx) as [Bx1 Bx2].
  destruct (inbetween_bounds _ _ _ Hiny) as [By1 By2].
  pose proof (two_pow_pos ex) as Pex. pose proof (two_pow_pos ey) as Pey.
  assert (Hmag : dx + ex <= dy + ey).
  { enough (dx - 1 + ex < dy + ey) by lia.
    apply two_pow_lt_inv. rewrite !two_pow_add.
    rewrite <- (inject_pow (dx - 1)), <- (inject_pow dy) by lia.
    assert (H1 : (inject_Z (2 ^ (dx - 1)) <= tx)%Q).
    { apply Qle_trans with (inject_Z mx); trivial. now rewrite <- Zle_Qle. }
    assert (H2 : (ty < inject_Z (2 ^ dy))%Q).
    { apply Qlt_le_trans with (inject_Z my + 1)%Q; trivial.
      change 1%Q with (inject_Z 1). rewrite <- inject_Z_plus, <- Zle_Qle. lia. }
    apply Qle_lt_trans with (tx * 2 ^ ex)%Q;
      [apply Qmult_le_compat_r; [exact H1 | lra]|].
    apply Qle_lt_trans with (ty * 2 ^ ey)%Q; [exact Hval|].
    apply Qmult_lt_compat_r; trivial. }
  assert (Fx : fexp prec emax (dx + ex) = dx + ex - prec) by (unfold fexp; lia).
  assert (Fy : fexp prec emax (dy + ey) = dy + ey - prec) by (unfold fexp; lia).
  destruct (Z.eq_dec (dx + ex) (dy + ey)) as [Heq|Hne].
  - (* the same binade: the same target exponent *)
    set (e1 := dx + ex - prec) in *.
    assert (Fy' : fexp prec emax (dy + ey) = e1) by (unfold e1; lia).
    assert (Tx : (tx * 2 ^ (ex - e1) * 2 ^ (e1 - ex) == tx)%Q).
    { rewrite <- Qmult_assoc, <- two_pow_add.
      replace (ex - e1 + (e1 - ex)) with 0 by lia. change (2 ^ 0)%Q with 1%Q. ring. }
    assert (Ty : (ty * 2 ^ (ey - e1) * 2 ^ (e1 - ey) == ty)%Q).
    { rewrite <- Qmult_assoc, <- two_pow_add.
      replace (ey - e1 + (e1 - ey)) with 0 by lia. change (2 ^ 0)%Q with 1%Q. ring. }
    destruct (binary_round_aux_nearest prec emax prec_pos false mx ex lx tx
                (tx * 2 ^ (ex - e1))%Q ltac:(lia))
      as (a2 & a3 & ea3 & Ha2 & Hna & Hea3 & Ha23 & Ha3 & Hca & ->);
      fold dx; rewrite ?Fx; trivial; try lia.
    destruct (binary_round_aux_nearest prec emax prec_pos false my ey ly ty
                (ty * 2 ^ (ey - e1))%Q ltac:(lia))
      as (b2 & b3 & eb3 & Hb2 & Hnb & Heb3 & Hb23 & Hb3 & Hcb & ->);
      fold dy; rewrite ?Fy'; trivial; try lia.
    fold dx in Ha2, Hea3, Ha23. fold dy in Hb2, Heb3, Hb23.
    rewrite Fx in Ha2, Hea3, Ha23. rewrite Fy' in Hb2, Heb3, Hb23.
    assert (Hle2 : a2 <= b2).
    { refine (nearest_even_mono _ _ _ _ _ Hna Hnb).
      replace (ex - e1) with (ex + - e1) by lia.
      replace (ey - e1) with (ey + - e1) by lia.
      rewrite !two_pow_add, !Qmult_assoc.
      apply Qmult_le_compat_r; [exact Hval|].
      apply Qlt_le_weak, two_pow_pos. }
    assert (Hpp : 0 < 2 ^ (prec - 1)) by (apply pow2_pos; lia).
    assert (Ha1 : 2 ^ (prec - 1) <= mx / 2 ^ (e1 - ex)).
    { apply Z.div_le_lower_bound; [apply pow2_pos; lia|].
      rewrite <- pow2_split by lia.
      now replace (e1 - ex + (prec - 1)) with (dx - 1) by (unfold e1; lia). }
    assert (Hpa : 0 < 2 ^ (ea3 - e1)) by (apply pow2_pos; lia).
    assert (Hpb : 0 < 2 ^ (eb3 - e1)) by (apply pow2_pos; lia).
    destruct a3 as [|a|a]; [nia| |lia].
    destruct b3 as [|b|b]; [nia| |lia].
    destruct Hca as [|Hca]; [discriminate|].
    destruct Hcb as [|Hcb]; [discriminate|].
    assert (Hlex : ea3 < eb3 \/ (ea3 = eb3 /\ Zpos a <= Zpos b)).
    { apply (canonical_value_lex prec emax prec_pos (Zpos a) ea3 (Zpos b) eb3 e1);
        trivial; lia. }
    replace (ea3 <=? emax - prec) with true by (symmetry; apply Z.leb_le; lia).
    replace (eb3 <=? emax - prec) with true by (symmetry; apply Z.leb_le; lia).
    now apply leb_finite_lex.
  - (* different binades: a power of two lies between the two values *)
    assert (Hpp : 0 < 2 ^ (prec - 1)) by (apply pow2_pos; lia).
    destruct (2 ^ (prec - 1)) as [|p|p] eqn:Ep; try lia.
    set (eP := dx + ex - prec + 1).
    assert (Hcp : canonical prec emax (Zpos p) eP).
    { apply canonical_iff.
      assert (Hd : Zdigits2 (Zpos p) = prec).
      { rewrite <- Ep. apply Zdigits2_eq; [lia|]. split; [lia|].
        apply Z.pow_lt_mono_r; lia. }
      unfold eP. lia. }
    destruct (binary_round_aux_le prec emax prec_pos false mx ex lx p eP)
      as [Hzx | (a & ea & Hrx & _ & _ & Hlx)];
      fold dx; rewrite ?Fx; trivial; try (unfold eP; lia).
    { rewrite <- Ep. replace (eP - ex) with (dx - prec + 1) by (unfold eP; lia).
      rewrite <- pow2_split by lia.
      replace (prec - 1 + (dx - prec + 1)) with dx by lia.
      destruct lx; lia. }
    + rewrite Hzx.
      destruct (binary_round_aux_ge prec emax prec_pos my ey ly p eP)
        as [Hiy | (b & eb & Hry & _ & _)];
        fold dy; rewrite ?Fy; trivial; try lia.
      * apply (scaled_le_inv _ _ _ _ (Z.min eP ey)); try lia.
        rewrite <- Ep, <- pow2_split by lia.
        apply Z.le_trans with (2 ^ (dy - 1) * 2 ^ (ey - Z.min eP ey)).
        -- rewrite <- pow2_split by lia.
           apply Z.pow_le_mono_r; [lia | unfold eP; lia].
        -- apply Z.mul_le_mono_nonneg_r; [|exact Hy1].
           apply Z.lt_le_incl, pow2_pos. lia.
      * rewrite Hiy. reflexivity.
      * rewrite Hry. reflexivity.
    + rewrite Hrx.
      destruct (binary_round_aux_ge prec emax prec_pos my ey ly p eP)
        as [Hiy | (b & eb & Hry & _ & Hly)];
        fold dy; rewrite ?Fy; trivial; try lia.
      * apply (scaled_le_inv _ _ _ _ (Z.min eP ey)); try lia.
        rewrite <- Ep, <- pow2_split by lia.
        apply Z.le_trans with (2 ^ (dy - 1) * 2 ^ (ey - Z.min eP ey)).
        -- rewrite <- pow2_split by lia.
           apply Z.pow_le_mono_r; [lia | unfold eP; lia].
        -- apply Z.mul_le_mono_nonneg_r; [|exact Hy1].
           apply Z.lt_le_incl, pow2_pos. lia.
      * rewrite Hiy. reflexivity.
      * rewrite Hry. apply leb_finite_lex. lia.
Qed.

End RoundMono.

(** The location computed from the remainder of a division is that of the
    exact quotient. *)
Lemma new_location_inbetween (B r q : Z) (t : Q) :
  0 < B -> 0 <= r < B -> (t * inject_Z B == inject_Z (B * q + r))%Q ->
  inbetween t q (new_location B r).
Proof.
  intros HB Hr Ht. rewrite inject_Z_plus, inject_Z_mult in Ht.
  assert (Pb : (0 < inject_Z B)%Q)
    by (change 0%Q with (inject_Z 0); rewrite <- Zlt_Qlt; lia).
  assert (Pr : (0 <= inject_Z r)%Q)
    by (change 0%Q with (inject_Z 0); rewrite <- Zle_Qle; lia).
  set (b := inject_Z B) in *. set (R := inject_Z r) in *. set (k := inject_Z q) in *.
  assert (Hlt : forall x y : Q, (x * b < y * b)%Q -> (x < y)%Q)
    by (intros x y; apply Qmult_lt_r; exact Pb).
  assert (Heq : forall x y : Q, (x * b == y * b)%Q -> (x == y)%Q).
  { intros x y. apply Qmult_inj_r. intros H0. rewrite H0 in Pb.
    exact (Qlt_irrefl _ Pb). }
  assert (Eh : ((k + (1 # 2)) * b == b * k + (1 # 2) * b)%Q) by ring.
  assert (E1 : ((k + 1) * b == b * k + b)%Q) by ring.
  assert (E0 : (k * b == b * k)%Q) by ring.
  assert (HEx : r = 0 -> (t == k)%Q).
  { intros H0. apply Heq. rewrite Ht, E0. unfold R. rewrite H0.
    change (inject_Z 0) with 0%Q. ring. }
  assert (HLt : 0 < r -> 2 * r < B -> (k < t /\ t < k + (1 # 2))%Q).
  { intros H0 H2. rewrite Zlt_Qlt in H0, H2. rewrite inject_Z_mult in H2.
    change (inject_Z 2) with 2%Q in H2. change (inject_Z 0) with 0%Q in H0.
    fold R in H0, H2. fold b in H2.
    split; apply Hlt; rewrite Ht, ?Eh, ?E0; lra. }
  assert (HEq : 2 * r = B -> (t == k + (1 # 2))%Q).
  { intros H2. apply Heq. rewrite Ht, Eh. unfold b. rewrite <- H2.
    rewrite inject_Z_mult. change (inject_Z 2) with 2%Q. fold R. ring. }
  assert (HGt : B < 2 * r -> (k + (1 # 2) < t /\ t < k + 1)%Q).
  { intros H2. destruct Hr as [_ Hrb]. rewrite Zlt_Qlt in H2, Hrb.
    rewrite inject_Z_mult in H2. change (inject_Z 2) with 2%Q in H2.
    fold R in H2, Hrb. fold b in H2, Hrb.
    split; apply Hlt; rewrite Ht, ?Eh, ?E1; lra. }
  unfold new_location, new_location_even, new_location_odd.
  destruct (Z.even B) eqn:Ev; destruct (Z.eqb_spec r 0) as [H0|H0];
    try (now apply HEx).
  - destruct (Z.compare_spec (2 * r) B) as [H2|H2|H2]; unfold inbetween.
    + now apply HEq.
    + apply HLt; lia.
    + now apply HGt.
  - assert (Hodd : 2 * r <> B).
    { intros E. rewrite <- E, Z.even_mul in Ev. discriminate. }
    destruct (Z.compare_spec (2 * r + 1) B) as [H2|H2|H2]; unfold inbetween.
    + apply HLt; lia.
    + apply HLt; lia.
    + apply HGt; lia.
Qed.

Section OpsMono.
Variables prec emax : Z.
Hypothesis prec_pos : 0 < prec.

(** The quotient of two positive normal numbers is the rounding of the
    integer quotient of the mantissas, located by the remainder. *)
Lemma SFdiv_raw (a b : float) (ma : positive) (ea : Z) (mb : positive) (eb : Z) :
  normal_pos prec emax a ma ea -> normal_pos prec emax b mb eb ->
  emin prec emax <= ea - eb - prec ->
  exists q r : Z,
    SFdiv prec emax a b =
      binary_round_aux prec emax false q (ea - eb - prec)
                       (new_location (Zpos mb) r) /\
    Zpos ma * 2 ^ prec = Zpos mb * q + r /\ 0 <= r < Zpos mb /\
    0 < q /\ prec <= Zdigits2 q <= prec + 1.
Proof.
  intros Ha Hb Hlo.
  destruct (normal_pos_bounds prec emax _ _ _ Ha) as [Hma _].
  destruct (normal_pos_bounds prec emax _ _ _ Hb) as [Hmb _].
  destruct Ha as (-> & Hca & Hda). destruct Hb as (-> & Hcb & Hdb).
  unfold SFdiv, SFdiv_core_binary. cbn [xorb]. rewrite Hda, Hdb.
  assert (He' : Z.min (fexp prec emax (prec + ea - (prec + eb))) (ea - eb)
                = ea - eb - prec) by (unfold fexp; lia).
  rewrite He'.
  replace (ea - eb - (ea - eb - prec)) with prec by lia.
  rewrite (shift_mantissa (Zpos ma) prec) by lia.
  pose proof (Z_div_mod (Zpos ma * 2 ^ prec) (Zpos mb) eq_refl) as Hdm.
  destruct (Z.div_eucl (Zpos ma * 2 ^ prec) (Zpos mb)) as [q r].
  destruct Hdm as [Hdm Hrz].
  assert (Hpp : 2 ^ prec = 2 * 2 ^ (prec - 1)).
  { replace prec with (Z.succ (prec - 1)) at 1 by lia.
    now rewrite Z.pow_succ_r by lia. }
  assert (Hp1 : 0 < 2 ^ (prec - 1)) by (apply pow2_pos; lia).
  assert (Hqlo : 2 ^ (prec - 1) <= q) by nia.
  assert (Hqhi : q < 2 ^ (prec + 1)).
  { rewrite (pow2_split prec 1) by lia. change (2 ^ 1) with 2. nia. }
  exists q, r. split; [reflexivity|]. split; [exact Hdm|]. split; [exact Hrz|].
  split; [lia|]. split.
  - enough (prec - 1 < Zdigits2 q) by lia. apply Zdigits2_gt; lia.
  - apply Zdigits2_le; lia.
Qed.

(** Division is monotone in the value of the quotient. *)
Lemma SFdiv_mono (a1 b1 a2 b2 : float)
      (ma1 : positive) (ea1 : Z) (mb1 : positive) (eb1 : Z)
      (ma2 : positive) (ea2 : Z) (mb2 : positive) (eb2 : Z) :
  normal_pos prec emax a1 ma1 ea1 -> normal_pos prec emax b1 mb1 eb1 ->
  normal_pos prec emax a2 ma2 ea2 -> normal_pos prec emax b2 mb2 eb2 ->
  emin prec emax <= ea1 - eb1 - prec -> emin prec emax <= ea2 - eb2 - prec ->
  ea2 - eb2 + 2 <= emax ->
  (B2Q a1 * B2Q b2 <= B2Q a2 * B2Q b1)%Q ->
  SFleb (SFdiv prec emax a1 b1) (SFdiv prec emax a2 b2) = true.
Proof.
  intros Ha1 Hb1 Ha2 Hb2 Hlo1 Hlo2 Hhi2 Hval.
  destruct (SFdiv_raw a1 b1 _ _ _ _ Ha1 Hb1 Hlo1) as (q1 & r1 & -> & E1 & R1 & Q1 & D1).
  destruct (SFdiv_raw a2 b2 _ _ _ _ Ha2 Hb2 Hlo2) as (q2 & r2 & -> & E2 & R2 & Q2 & D2).
  destruct Ha1 as (-> & _), Hb1 as (-> & _), Ha2 as (-> & _), Hb2 as (-> & _).
  cbn [B2Q cond_Zopp] in Hval.
  assert (Pb : forall p : positive, (0 < inject_Z (Zpos p))%Q).
  { intros p. change 0%Q with (inject_Z 0). now rewrite <- Zlt_Qlt. }
  assert (Nb : forall p : positive, ~ (inject_Z (Zpos p) == 0)%Q).
  { intros p H0. pose proof (Pb p) as H1. rewrite H0 in H1.
    exact (Qlt_irrefl _ H1). }
  set (t1 := (inject_Z (Zpos ma1 * 2 ^ prec) / inject_Z (Zpos mb1))%Q).
  set (t2 := (inject_Z (Zpos ma2 * 2 ^ prec) / inject_Z (Zpos mb2))%Q).
  assert (T1 : (t1 * inject_Z (Zpos mb1) == inject_Z (Zpos ma1 * 2 ^ prec))%Q).
  { unfold t1. rewrite Qmult_comm. apply Qmult_div_r. apply Nb. }
  assert (T2 : (t2 * inject_Z (Zpos mb2) == inject_Z (Zpos ma2 * 2 ^ prec))%Q).
  { unfold t2. rewrite Qmult_comm. apply Qmult_div_r. apply Nb. }
  apply (binary_round_aux_mono prec emax prec_pos q1 _ _ t1 q2 _ _ t2);
    trivial; try lia.
  - apply new_location_inbetween; [reflexivity | exact R1 | now rewrite T1, E1].
  - apply new_location_inbetween; [reflexivity | exact R2 | now rewrite T2, E2].
  - (* the values: t * 2 ^ (ea - eb - prec) is a / b *)
    pose proof (two_pow_pos eb1) as P1. pose proof (two_pow_pos eb2) as P2.
    pose proof (Pb mb1) as PB1. pose proof (Pb mb2) as PB2.
    set (V1 := (inject_Z (Zpos mb1) * 2 ^ eb1)%Q) in *.
    set (V2 := (inject_Z (Zpos mb2) * 2 ^ eb2)%Q) in *.
    assert (PV1 : (0 < V1)%Q) by (apply Qmult_lt_0_compat; trivial).
    assert (PV2 : (0 < V2)%Q) by (apply Qmult_lt_0_compat; trivial).
    assert (U1 : (t1 * 2 ^ (ea1 - eb1 - prec) * V1 == inject_Z (Zpos ma1) * 2 ^ ea1)%Q).
    { unfold V1.
      setoid_replace (t1 * 2 ^ (ea1 - eb1 - prec) * (inject_Z (Zpos mb1) * 2 ^ eb1))%Q
        with (t1 * inject_Z (Zpos mb1) * (2 ^ (ea1 - eb1 - prec) * 2 ^ eb1))%Q by ring.
      rewrite T1, inject_Z_mult, inject_pow, <- two_pow_add by lia.
      rewrite <- Qmult_assoc, <- two_pow_add.
      now replace (prec + (ea1 - eb1 - prec + eb1)) with ea1 by lia. }
    assert (U2 : (t2 * 2 ^ (ea2 - eb2 - prec) * V2 == inject_Z (Zpos ma2) * 2 ^ ea2)%Q).
    { unfold V2.
      setoid_replace (t2 * 2 ^ (ea2 - eb2 - prec) * (inject_Z (Zpos mb2) * 2 ^ eb2))%Q
        with (t2 * inject_Z (Zpos mb2) * (2 ^ (ea2 - eb2 - prec) * 2 ^ eb2))%Q by ring.
      rewrite T2, inject_Z_mult, inject_pow, <- two_pow_add by lia.
      rewrite <- Qmult_assoc, <- two_pow_add.
      now replace (prec + (ea2 - eb2 - prec + eb2)) with ea2 by lia. }
    rewrite <- U1, <- U2 in Hval.
    apply (Qmult_le_r _ _ (V1 * V2)); [now apply Qmult_lt_0_compat|].
    setoid_replace (t1 * 2 ^ (ea1 - eb1 - prec) * (V1 * V2))%Q
      with (t1 * 2 ^ (ea1 - eb1 - prec) * V1 * V2)%Q by ring.
    setoid_replace (t2 * 2 ^ (ea2 - eb2 - prec) * (V1 * V2))%Q
      with (t2 * 2 ^ (ea2 - eb2 - prec) * V2 * V1)%Q by ring.
    exact Hval.
Qed.

(** Multiplication is monotone in the value of the product. *)
Lemma SFmul_mono (a1 b1 a2 b2 : float)
      (ma1 : positive) (ea1 : Z) (mb1 : positive) (eb1 : Z)
      (ma2 : positive) (ea2 : Z) (mb2 : positive) (eb2 : Z) :
  normal_pos prec emax a1 ma1 ea1 -> normal_pos prec emax b1 mb1 eb1 ->
  normal_pos prec emax a2 ma2 ea2 -> normal_pos prec emax b2 mb2 eb2 ->
  emin prec emax <= ea1 + eb1 + prec - 1 -> emin prec emax <= ea2 + eb2 + prec - 1 ->
  ea2 + eb2 + 2 * prec + 1 <= emax ->
  (B2Q a1 * B2Q b1 <= B2Q a2 * B2Q b2)%Q ->
  SFleb (SFmul prec emax a1 b1) (SFmul prec emax a2 b2) = true.
Proof.
  intros Ha1 Hb1 Ha2 Hb2 Hlo1 Hlo2 Hhi2 Hval.
  pose proof (Zdigits2_mul_ge (Zpos ma1) (Zpos mb1) eq_refl eq_refl) as G1.
  pose proof (Zdigits2_mul_le (Zpos ma1) (Zpos mb1) eq_refl eq_refl) as L1.
  pose proof (Zdigits2_mul_ge (Zpos ma2) (Zpos mb2) eq_refl eq_refl) as G2.
  pose proof (Zdigits2_mul_le (Zpos ma2) (Zpos mb2) eq_refl eq_refl) as L2.
  destruct Ha1 as (-> & _ & Da1), Hb1 as (-> & _ & Db1),
           Ha2 as (-> & _ & Da2), Hb2 as (-> & _ & Db2).
  rewrite Da1, Db1 in G1, L1. rewrite Da2, Db2 in G2, L2.
  cbn [B2Q cond_Zopp] in Hval.
  unfold SFmul. cbn [xorb]. rewrite !Pos2Z.inj_mul.
  apply (binary_round_aux_mono prec emax prec_pos
           _ _ _ (inject_Z (Zpos ma1 * Zpos mb1))
           _ _ _ (inject_Z (Zpos ma2 * Zpos mb2)));
    try lia; try reflexivity.
  rewrite !inject_Z_mult, !two_pow_add.
  setoid_replace (inject_Z (Zpos ma1) * inject_Z (Zpos mb1) * (2 ^ ea1 * 2 ^ eb1))%Q
    with (inject_Z (Zpos ma1) * 2 ^ ea1 * (inject_Z (Zpos mb1) * 2 ^ eb1))%Q by ring.
  setoid_replace (inject_Z (Zpos ma2) * inject_Z (Zpos mb2) * (2 ^ ea2 * 2 ^ eb2))%Q
    with (inject_Z (Zpos ma2) * 2 ^ ea2 * (inject_Z (Zpos mb2) * 2 ^ eb2))%Q by ring.
  exact Hval.
Qed.

End OpsMono.

(** ** Bars ordered like the rates *)

Lemma leb_val (x y : float) (mx : positive) (ex : Z) (my : positive) (ey : Z) :
  normal_pos F32.prec F32.emax x mx ex -> normal_pos F32.prec F32.emax y my ey ->
  F32.leb x y = true -> (B2Q x <= B2Q y)%Q.
Proof.
  intros Hx Hy Hle. apply (lex_val_le x y mx ex my ey Hx Hy).
  destruct Hx as (-> & _), Hy as (-> & _). now apply leb_finite_lex.
Qed.

(** The value of a rate within the bounds. *)
Lemma in_range_val (r : float) :
  F32.valid r = true -> in_range r -> (1000 <= B2Q r /\ B2Q r <= 5000)%Q.
Proof.
  intros Hv Hr. destruct (in_range_normal r Hv Hr) as (m & e & Hn & _).
  assert (Nlo : normal_pos F32.prec F32.emax minRate 16384000 (-14)) by (repeat split).
  assert (Nhi : normal_pos F32.prec F32.emax maxRate 10240000 (-11)) by (repeat split).
  assert (Vlo : (B2Q minRate == 1000)%Q) by reflexivity.
  assert (Vhi : (B2Q maxRate == 5000)%Q) by reflexivity.
  destruct Hr as [Hlo Hhi].
  pose proof (leb_val _ _ _ _ _ _ Nlo Hn Hlo).
  pose proof (leb_val _ _ _ _ _ _ Hn Nhi Hhi). lra.
Qed.

(** The height of a bar follows the value of its ratio. *)
Lemma height_order (r1 M1 r2 M2 : float) :
  F32.valid r1 = true -> in_range r1 -> F32.valid M1 = true -> in_range M1 ->
  F32.valid r2 = true -> in_range r2 -> F32.valid M2 = true -> in_range M2 ->
  (B2Q r1 * B2Q M2 <= B2Q r2 * B2Q M1)%Q ->
  F32.leb (F32.mul (F32.div r1 M1) (F32.of_Z (height - 100)))
          (F32.mul (F32.div r2 M2) (F32.of_Z (height - 100))) = true.
Proof.
  intros Vr1 Rr1 VM1 RM1 Vr2 Rr2 VM2 RM2 Hval.
  destruct (in_range_normal r1 Vr1 Rr1) as (mr1 & er1 & Nr1 & Lr1 & Ur1).
  destruct (in_range_normal M1 VM1 RM1) as (mM1 & eM1 & NM1 & LM1 & UM1).
  destruct (in_range_normal r2 Vr2 Rr2) as (mr2 & er2 & Nr2 & Lr2 & Ur2).
  destruct (in_range_normal M2 VM2 RM2) as (mM2 & eM2 & NM2 & LM2 & UM2).
  destruct (div_val _ _ _ _ _ _ Nr1 NM1) as (mq1 & eq1 & Nq1 & Eq1 & _); [lia|].
  destruct (div_val _ _ _ _ _ _ Nr2 NM2) as (mq2 & eq2 & Nq2 & Eq2 & _); [lia|].
  assert (Hq : F32.leb (F32.div r1 M1) (F32.div r2 M2) = true).
  { unfold F32.leb, F32.div.
    apply (SFdiv_mono F32.prec F32.emax eq_refl _ _ _ _ _ _ _ _ _ _ _ _
             Nr1 NM1 Nr2 NM2); rewrite ?emin32; unfold F32.prec, F32.emax;
      try lia. exact Hval. }
  pose proof (leb_val _ _ _ _ _ _ Nq1 Nq2 Hq) as Vq.
  assert (N1100 : normal_pos F32.prec F32.emax (F32.of_Z (height - 100))
                             9011200 (-13)) by (repeat split).
  pose proof (B2Q_normal_pos _ _ _ N1100) as P1100.
  unfold F32.leb, F32.mul.
  apply (SFmul_mono F32.prec F32.emax eq_refl _ _ _ _ _ _ _ _ _ _ _ _
           Nq1 N1100 Nq2 N1100); rewrite ?emin32; unfold F32.prec, F32.emax;
    try lia.
  apply Qmult_le_compat_r; [exact Vq | lra].
Qed.

(** A positive integer mantissa in the normal range is rounded after being
    aligned on at least [prec] digits. *)
Lemma binary_round_raw (d : positive) (ez : Z) :
  emin F32.prec F32.emax <= Zdigits2 (Zpos d) + ez - F32.prec ->
  exists (mz : positive) (ez' : Z),
    binary_round F32.prec F32.emax false d ez =
      binary_round_aux F32.prec F32.emax false (Zpos mz) ez' loc_Exact /\
    F32.prec <= Zdigits2 (Zpos mz) /\
    Zdigits2 (Zpos mz) + ez' = Zdigits2 (Zpos d) + ez /\
    (inject_Z (Zpos mz) * 2 ^ ez' == inject_Z (Zpos d) * 2 ^ ez)%Q.
Proof.
  intros Hlo. unfold binary_round.
  change (Zpos (digits2_pos d)) with (Zdigits2 (Zpos d)).
  set (dd := Zdigits2 (Zpos d)) in *.
  assert (Hf : fexp F32.prec F32.emax (dd + ez) = dd + ez - F32.prec)
    by (unfold fexp; lia).
  rewrite Hf.
  destruct (shl_align_min d ez (dd + ez - F32.prec)) as (mz & -> & Hmz).
  exists mz, (Z.min ez (dd + ez - F32.prec)). split; [reflexivity|].
  assert (Hdz : Zdigits2 (Zpos mz) = dd + (ez - Z.min ez (dd + ez - F32.prec))).
  { rewrite Hmz, Zdigits2_shift by lia. reflexivity. }
  split; [lia|]. split; [lia|]. rewrite Hmz. apply inject_scaled. lia.
Qed.

(** The difference of two positive normal numbers that is at least a
    positive normal number, as a rounding. *)
Lemma sub_raw (a b lo : float) (ma : positive) (ea : Z) (mb : positive) (eb : Z)
      (ml : positive) (el : Z) :
  normal_pos F32.prec F32.emax a ma ea -> normal_pos F32.prec F32.emax b mb eb ->
  normal_pos F32.prec F32.emax lo ml el ->
  (B2Q lo + B2Q b <= B2Q a)%Q ->
  exists (mz : positive) (ez : Z),
    F32.sub a b = binary_round_aux F32.prec F32.emax false (Zpos mz) ez loc_Exact /\
    F32.prec <= Zdigits2 (Zpos mz) /\
    emin F32.prec F32.emax <= Zdigits2 (Zpos mz) + ez - F32.prec /\
    Zdigits2 (Zpos mz) + ez <= F32.prec + ea /\
    (inject_Z (Zpos mz) * 2 ^ ez == B2Q a - B2Q b)%Q.
Proof.
  intros Ha Hb Hlo Hl.
  pose proof (B2Q_normal_pos _ _ _ Hlo) as Pl.
  pose proof (B2Q_normal_pos _ _ _ Hb) as Pb.
  destruct (normal_pos_bounds F32.prec F32.emax _ _ _ Hlo) as [[Hml _] Hel].
  destruct (normal_pos_bounds F32.prec F32.emax _ _ _ Ha) as [[_ Hma] _].
  pose proof (B2Q_normal _ _ _ Ha) as Va. pose proof (B2Q_normal _ _ _ Hb) as Vb.
  pose proof (B2Q_normal _ _ _ Hlo) as Vl.
  set (ez := Z.min ea eb).
  rewrite <- (inject_scaled (Zpos ma) ea ez) in Va by (unfold ez; lia).
  rewrite <- (inject_scaled (Zpos mb) eb ez) in Vb by (unfold ez; lia).
  pose proof (shl_align_fst ma ea ez ltac:(unfold ez; lia)) as Hsa.
  pose proof (shl_align_fst mb eb ez ltac:(unfold ez; lia)) as Hsb.
  remember (Zpos ma * 2 ^ (ea - ez) - Zpos mb * 2 ^ (eb - ez)) as D eqn:ED.
  assert (Hsub : F32.sub a b = binary_normalize F32.prec F32.emax D ez false).
  { destruct Ha as (-> & _), Hb as (-> & _). unfold F32.sub, SFsub. fold ez.
    cbn [cond_Zopp]. rewrite Hsa, Hsb, ED. reflexivity. }
  pose proof (two_pow_pos ez) as Pz.
  assert (HD : (inject_Z D * 2 ^ ez == B2Q a - B2Q b)%Q).
  { rewrite Va, Vb, ED. unfold Z.sub. rewrite inject_Z_plus, inject_Z_opp. ring. }
  assert (HDpos : 0 < D).
  { destruct (Z.lt_ge_cases 0 D) as [|Hneg]; trivial. exfalso.
    assert (Hq : (inject_Z D * 2 ^ ez <= 0 * 2 ^ ez)%Q).
    { apply Qmult_le_compat_r; [|lra].
      change 0%Q with (inject_Z 0). rewrite <- Zle_Qle. lia. }
    lra. }
  clear ED. destruct D as [|d|d]; try lia.
  rewrite Hsub. cbn [binary_normalize].
  destruct (Zdigits2_bounds (Zpos d) eq_refl) as [Hd1 Hd2].
  assert (Hdd : 0 < Zdigits2 (Zpos d)) by (simpl; lia).
  (* the magnitude of the difference *)
  assert (Hmag : F32.prec - 1 + el < Zdigits2 (Zpos d) + ez).
  { apply two_pow_lt_inv. rewrite !two_pow_add.
    rewrite <- (inject_pow (F32.prec - 1)), <- (inject_pow (Zdigits2 (Zpos d)))
      by (unfold F32.prec; lia).
    pose proof (two_pow_pos el) as Pel.
    apply Qle_lt_trans with (inject_Z (Zpos ml) * 2 ^ el)%Q.
    - apply Qmult_le_compat_r; [now rewrite <- Zle_Qle | lra].
    - apply Qle_lt_trans with (inject_Z (Zpos d) * 2 ^ ez)%Q; [lra|].
      apply Qmult_lt_compat_r; [exact Pz | now rewrite <- Zlt_Qlt]. }
  assert (Hmag2 : Zdigits2 (Zpos d) - 1 + ez < F32.prec + ea).
  { apply two_pow_lt_inv. rewrite !two_pow_add.
    rewrite <- (inject_pow (Zdigits2 (Zpos d) - 1)), <- (inject_pow F32.prec)
      by (unfold F32.prec; lia).
    pose proof (two_pow_pos ea) as Pea.
    apply Qle_lt_trans with (inject_Z (Zpos d) * 2 ^ ez)%Q.
    - apply Qmult_le_compat_r; [now rewrite <- Zle_Qle | lra].
    - apply Qle_lt_trans with (B2Q a); [lra|].
      rewrite (B2Q_normal _ _ _ Ha).
      apply Qmult_lt_compat_r; [exact Pea | now rewrite <- Zlt_Qlt]. }
  destruct (binary_round_raw d ez ltac:(lia)) as (mz & ez' & -> & Hp & Hs & Hv).
  exists mz, ez'. split; [reflexivity|]. split; [exact Hp|].
  split; [lia|]. split; [lia|]. now rewrite Hv.
Qed.

(** Subtraction is monotone in the value of the difference. *)
Lemma sub_mono (a1 b1 a2 b2 lo : float)
      (ma1 : positive) (ea1 : Z) (mb1 : positive) (eb1 : Z)
      (ma2 : positive) (ea2 : Z) (mb2 : positive) (eb2 : Z)
      (ml : positive) (el : Z) :
  normal_pos F32.prec F32.emax a1 ma1 ea1 -> normal_pos F32.prec F32.emax b1 mb1 eb1 ->
  normal_pos F32.prec F32.emax a2 ma2 ea2 -> normal_pos F32.prec F32.emax b2 mb2 eb2 ->
  normal_pos F32.prec F32.emax lo ml el -> ea2 <= 103 ->
  (B2Q lo + B2Q b1 <= B2Q a1)%Q ->
  (B2Q a1 - B2Q b1 <= B2Q a2 - B2Q b2)%Q ->
  F32.leb (F32.sub a1 b1) (F32.sub a2 b2) = true.
Proof.
  intros Ha1 Hb1 Ha2 Hb2 Hlo Hea Hl Hval.
  destruct (sub_raw a1 b1 lo _ _ _ _ _ _ Ha1 Hb1 Hlo Hl)
    as (m1 & e1 & -> & P1 & L1 & _ & V1).
  destruct (sub_raw a2 b2 lo _ _ _ _ _ _ Ha2 Hb2 Hlo ltac:(lra))
    as (m2 & e2 & -> & P2 & L2 & U2 & V2).
  unfold F32.leb.
  apply (binary_round_aux_mono F32.prec F32.emax eq_refl
           (Zpos m1) e1 loc_Exact (inject_Z (Zpos m1))
           (Zpos m2) e2 loc_Exact (inject_Z (Zpos m2)));
    trivial; try reflexivity; try (unfold F32.prec, F32.emax in *; lia).
  rewrite V1, V2. exact Hval.
Qed.

(** X15.  On rates within the bounds every bar is at least 220 and at most
    [height - 100] = 1100 high; its top [y] is between 100 and 980, and its
    label, 20 above, is anchored between 80 and 960. *)
Theorem bars_vertical (conns : list Connection) (i : nat) (g : BarGeometry) :
  Forall (fun c => F32.valid (getRate c) = true /\ in_range (getRate c)) conns ->
  nth_error (layout conns) i = Some g ->
  (F32.leb (F32.of_Z 220) (g_height g) = true /\
   F32.leb (g_height g) (F32.of_Z (height - 100)) = true) /\
  (F32.leb (F32.of_Z 100) (g_y g) = true /\
   F32.leb (g_y g) (F32.of_Z 980) = true) /\
  (F32.leb (F32.of_Z 80) (F32.sub (g_y g) (F32.of_Z 20)) = true /\
   F32.leb (F32.sub (g_y g) (F32.of_Z 20)) (F32.of_Z 960) = true).
Proof.
  intros Hall Hg.
  apply nth_error_In in Hg. unfold layout in Hg.
  destruct (In_geometries _ _ _ _ _ Hg) as (k & c & Hk & ->).
  apply nth_error_In in Hk.
  assert (Hne : conns <> []) by (intros ->; contradiction).
  destruct (maxTransfer_attained conns Hne Hall) as (c' & Hc' & Hmax).
  assert (Hnan : Forall (fun c => F32.is_nan (getRate c) = false) conns).
  { eapply Forall_impl; [|exact Hall]. intros c0 [_ [Hlo _]].
    exact (leb_not_nan_r _ _ Hlo). }
  pose proof (maxTransfer_upper_bound conns Hnan) as Hup.
  rewrite Forall_forall in Hall, Hup.
  destruct (Hall c Hk) as [Vc Rc]. destruct (Hall c' Hc') as [Vm Rm].
  specialize (Hup c Hk). rewrite Hmax in *.
  destruct (height_normal _ _ Vc Rc Vm Rm Hup) as (mh & eh & Hnh & Hh).
  destruct (height_bounded _ _ Vc Vm (in_range_pos_finite _ Rc)
              (in_range_pos_finite _ Rm) Hup) as [_ Hh1100].
  destruct (in_range_val _ Vc Rc) as [Vc1 Vc2].
  destruct (in_range_val _ Vm Rm) as [Vm1 Vm2].
  assert (Vlo : (B2Q minRate == 1000)%Q) by reflexivity.
  assert (Vhi : (B2Q maxRate == 5000)%Q) by reflexivity.
  assert (Rlo : in_range minRate) by (split; reflexivity).
  assert (Rhi : in_range maxRate) by (split; reflexivity).
  pose proof (height_order minRate maxRate (getRate c) (getRate c')
                eq_refl Rlo eq_refl Rhi Vc Rc Vm Rm
                ltac:(rewrite Vlo, Vhi; lra)) as H220.
  change (F32.mul (F32.div minRate maxRate) (F32.of_Z (height - 100)))
    with (F32.of_Z 220) in H220.
  unfold barGeometry. cbn [g_y g_height].
  set (h := F32.mul (F32.div (getRate c) (getRate c')) (F32.of_Z (height - 100))) in *.
  assert (N1200 : normal_pos F32.prec F32.emax (F32.of_Z height) 9830400 (-13))
    by (repeat split).
  assert (N100 : normal_pos F32.prec F32.emax (F32.of_Z 100) 13107200 (-17))
    by (repeat split).
  assert (N220 : normal_pos F32.prec F32.emax (F32.of_Z 220) 14417920 (-16))
    by (repeat split).
  assert (N980 : normal_pos F32.prec F32.emax (F32.of_Z 980) 16056320 (-14))
    by (repeat split).
  assert (N20 : normal_pos F32.prec F32.emax (F32.of_Z 20) 10485760 (-19))
    by (repeat split).
  assert (N80 : normal_pos F32.prec F32.emax (F32.of_Z 80) 10485760 (-17))
    by (repeat split).
  assert (N960 : normal_pos F32.prec F32.emax (F32.of_Z 960) 15728640 (-14))
    by (repeat split).
  assert (V1200 : (B2Q (F32.of_Z height) == 1200)%Q) by reflexivity.
  assert (V100 : (B2Q (F32.of_Z 100) == 100)%Q) by reflexivity.
  assert (V220 : (B2Q (F32.of_Z 220) == 220)%Q) by reflexivity.
  assert (V980 : (B2Q (F32.of_Z 980) == 980)%Q) by reflexivity.
  assert (V20 : (B2Q (F32.of_Z 20) == 20)%Q) by reflexivity.
  assert (V80 : (B2Q (F32.of_Z 80) == 80)%Q) by reflexivity.
  assert (V960 : (B2Q (F32.of_Z 960) == 960)%Q) by reflexivity.
  pose proof (leb_val _ _ _ _ _ _ N220 Hnh H220) as Hh220.
  destruct (sub_between (F32.of_Z height) h (F32.of_Z 100) (F32.of_Z 980)
              _ _ _ _ _ _ _ _ N1200 Hnh N100 N980 ltac:(lia))
    as (my & ey & Hny & Hy1 & Hy2 & Hy3 & Hy4);
    [rewrite V100, V1200; lra | rewrite V1200, V980; lra |].
  set (y := F32.sub (F32.of_Z height) h) in *.
  destruct (sub_between y (F32.of_Z 20) (F32.of_Z 80) (F32.of_Z 960)
              _ _ _ _ _ _ _ _ Hny N20 N80 N960 ltac:(lia))
    as (ml & el & _ & Hl1 & Hl2 & _);
    [rewrite V80, V20; rewrite V100 in Hy3; lra
    |rewrite V960, V20; rewrite V980 in Hy4; lra |].
  repeat split; assumption.
Qed.

Lemma bars_vertical_witness :
  Forall (fun c => F32.valid (getRate c) = true /\ in_range (getRate c))
         snapshot_mixed /\
  nth_error (layout snapshot_mixed) 0 =
    Some (barGeometry (maxTransfer snapshot_mixed) (barWidth_of 3) 0
            {| id := "Conn-1"; transferRate := F32.of_Z 1000 |}) /\
  F32.leb (F32.sub (F32.of_Z height)
                   (F32.mul (F32.div (F32.of_Z 1000) (F32.of_Z 5000))
                            (F32.of_Z (height - 100))))
          (F32.of_Z 980) = true.
Proof.
  assert (H : Forall (fun c => F32.valid (getRate c) = true /\ in_range (getRate c))
                     snapshot_mixed)
    by (repeat constructor).
  split; [exact H|]. split; [reflexivity|].
  exact (proj2 (proj1 (proj2 (bars_vertical snapshot_mixed 0 _ H eq_refl)))).
Defined.

(** X16.  The chart orders the channels as their rates do: on rates within
    the bounds, a channel whose rate is at most that of another gets a bar
    that is at most as high and whose top is at least as far down. *)
Theorem higher_rate_taller_bar (conns : list Connection) (i j : nat)
        (ci cj : Connection) (gi gj : BarGeometry) :
  Forall (fun c => F32.valid (getRate c) = true /\ in_range (getRate c)) conns ->
  nth_error conns i = Some ci -> nth_error conns j = Some cj ->
  nth_error (layout conns) i = Some gi -> nth_error (layout conns) j = Some gj ->
  F32.leb (getRate ci) (getRate cj) = true ->
  F32.leb (g_height gi) (g_height gj) = true /\
  F32.leb (g_y gj) (g_y gi) = true.
Proof.
  intros Hall Hi Hj Hgi Hgj Hle. unfold layout in Hgi, Hgj.
  rewrite (nth_error_geometries _ _ _ _ _ _ Hi) in Hgi.
  rewrite (nth_error_geometries _ _ _ _ _ _ Hj) in Hgj.
  inversion Hgi; subst gi. inversion Hgj; subst gj. clear Hgi Hgj.
  apply nth_error_In in Hi. apply nth_error_In in Hj.
  assert (Hne : conns <> []) by (intros ->; contradiction).
  destruct (maxTransfer_attained conns Hne Hall) as (c' & Hc' & Hmax).
  assert (Hnan : Forall (fun c => F32.is_nan (getRate c) = false) conns).
  { eapply Forall_impl; [|exact Hall]. intros c0 [_ [Hlo _]].
    exact (leb_not_nan_r _ _ Hlo). }
  pose proof (maxTransfer_upper_bound conns Hnan) as Hup.
  rewrite Forall_forall in Hall, Hup.
  destruct (Hall ci Hi) as [Vi Ri]. destruct (Hall cj Hj) as [Vj Rj].
  destruct (Hall c' Hc') as [Vm Rm].
  pose proof (Hup ci Hi) as Ui. pose proof (Hup cj Hj) as Uj.
  rewrite Hmax in *.
  destruct (in_range_normal _ Vi Ri) as (mi & ei & Ni & _).
  destruct (in_range_normal _ Vj Rj) as (mj & ej & Nj & _).
  destruct (in_range_normal _ Vm Rm) as (mm & em & Nm & _).
  pose proof (leb_val _ _ _ _ _ _ Ni Nj Hle) as Vij.
  pose proof (B2Q_normal_pos _ _ _ Nm) as Pm.
  assert (Hh : F32.leb
                 (F32.mul (F32.div (getRate ci) (getRate c')) (F32.of_Z (height - 100)))
                 (F32.mul (F32.div (getRate cj) (getRate c')) (F32.of_Z (height - 100)))
               = true).
  { apply height_order; trivial. apply Qmult_le_compat_r; [exact Vij | lra]. }
  unfold barGeometry. cbn [g_height g_y]. split; [exact Hh|].
  destruct (height_normal _ _ Vi Ri Vm Rm Ui) as (mhi & ehi & Nhi & Hhi).
  destruct (height_normal _ _ Vj Rj Vm Rm Uj) as (mhj & ehj & Nhj & Hhj).
  pose proof (leb_val _ _ _ _ _ _ Nhi Nhj Hh) as Vh.
  assert (N1200 : normal_pos F32.prec F32.emax (F32.of_Z height) 9830400 (-13))
    by (repeat split).
  assert (N100 : normal_pos F32.prec F32.emax (F32.of_Z 100) 13107200 (-17))
    by (repeat split).
  assert (V1200 : (B2Q (F32.of_Z height) == 1200)%Q) by reflexivity.
  assert (V100 : (B2Q (F32.of_Z 100) == 100)%Q) by reflexivity.
  apply (sub_mono _ _ _ _ (F32.of_Z 100) _ _ _ _ _ _ _ _ _ _
           N1200 Nhj N1200 Nhi N100); [lia | rewrite V100, V1200; lra | lra].
Qed.

Lemma higher_rate_taller_bar_witness :
  Forall (fun c => F32.valid (getRate c) = true /\ in_range (getRate c))
         snapshot_mixed /\
  F32.leb (F32.of_Z 3333) (F32.of_Z 5000) = true /\
  F32.leb (F32.mul (F32.div (F32.of_Z 3333) (F32.of_Z 5000)) (F32.of_Z (height - 100)))
          (F32.mul (F32.div (F32.of_Z 5000) (F32.of_Z 5000)) (F32.of_Z (height - 100)))
    = true.
Proof.
  assert (H : Forall (fun c => F32.valid (getRate c) = true /\ in_range (getRate c))
                     snapshot_mixed)
    by (repeat constructor).
  split; [exact H|]. split; [reflexivity|].
  exact (proj1 (higher_rate_taller_bar snapshot_mixed 1 2 _ _ _ _ H
                  eq_refl eq_refl eq_refl eq_refl eq_refl)).
Defined.

(** ** The bottom edge and the label offset *)

(** Each bar of the layout of rates within the bounds is computed from the
    rate of its channel and from a divisor that is the rate of a channel and
    at least the rate of the bar. *)
Lemma layout_rates (conns : list Connection) (i : nat) (g : BarGeometry) :
  Forall (fun c => F32.valid (getRate c) = true /\ in_range (getRate c)) conns ->
  nth_error (layout conns) i = Some g ->
  exists (r maxT : float),
    (F32.valid r = true /\ in_range r) /\
    (F32.valid maxT = true /\ in_range maxT) /\
    F32.leb r maxT = true /\
    g_height g = F32.mul (F32.div r maxT) (F32.of_Z (height - 100)) /\
    g_y g = F32.sub (F32.of_Z height) (g_height g).
Proof.
  intros Hall Hg.
  apply nth_error_In in Hg. unfold layout in Hg.
  destruct (In_geometries _ _ _ _ _ Hg) as (k & c & Hk & ->).
  apply nth_error_In in Hk.
  assert (Hne : conns <> []) by (intros ->; contradiction).
  destruct (maxTransfer_attained conns Hne Hall) as (c' & Hc' & Hmax).
  assert (Hnan : Forall (fun c => F32.is_nan (getRate c) = false) conns).
  { eapply Forall_impl; [|exact Hall]. intros c0 [_ [Hlo _]].
    exact (leb_not_nan_r _ _ Hlo). }
  pose proof (maxTransfer_upper_bound conns Hnan) as Hup.
  rewrite Forall_forall in Hall, Hup.
  exists (getRate c), (getRate c'). rewrite <- Hmax.
  split; [exact (Hall c Hk)|]. split; [rewrite Hmax; exact (Hall c' Hc')|].
  split; [exact (Hup c Hk)|]. split; reflexivity.
Qed.

(** The value of a bar height on rates within the bounds. *)
Lemma height_val (r maxT : float) :
  F32.valid r = true -> in_range r -> F32.valid maxT = true -> in_range maxT ->
  F32.leb r maxT = true ->
  exists (mh : positive) (eh : Z),
    normal_pos F32.prec F32.emax
               (F32.mul (F32.div r maxT) (F32.of_Z (height - 100))) mh eh /\
    (220 <= B2Q (F32.mul (F32.div r maxT) (F32.of_Z (height - 100))) /\
     B2Q (F32.mul (F32.div r maxT) (F32.of_Z (height - 100))) <= 1100)%Q.
Proof.
  intros Vr Rr Vm Rm Hle.
  destruct (height_normal r maxT Vr Rr Vm Rm Hle) as (mh & eh & Hnh & Hhi).
  exists mh, eh. split; [exact Hnh|]. split; [|exact Hhi].
  destruct (in_range_val _ Vr Rr) as [Vr1 _].
  destruct (in_range_val _ Vm Rm) as [_ Vm2].
  assert (Vlo : (B2Q minRate == 1000)%Q) by reflexivity.
  assert (Vhi : (B2Q maxRate == 5000)%Q) by reflexivity.
  assert (Rlo : in_range minRate) by (split; reflexivity).
  assert (Rhi : in_range maxRate) by (split; reflexivity).
  pose proof (height_order minRate maxRate r maxT
                eq_refl Rlo eq_refl Rhi Vr Rr Vm Rm
                ltac:(rewrite Vlo, Vhi; lra)) as H220.
  change (F32.mul (F32.div minRate maxRate) (F32.of_Z (height - 100)))
    with (F32.of_Z 220) in H220.
  assert (N220 : normal_pos F32.prec F32.emax (F32.of_Z 220) 14417920 (-16))
    by (repeat split).
  assert (V220 : (B2Q (F32.of_Z 220) == 220)%Q) by reflexivity.
  rewrite <- V220. exact (leb_val _ _ _ _ _ _ N220 Hnh H220).
Qed.

(** The rounded difference is within one unit in the last place of the
    exact one. *)
Lemma sub_val (a b lo : float) (ma : positive) (ea : Z) (mb : positive) (eb : Z)
      (ml : positive) (el : Z) :
  normal_pos F32.prec F32.emax a ma ea -> normal_pos F32.prec F32.emax b mb eb ->
  normal_pos F32.prec F32.emax lo ml el -> ea <= 103 ->
  (B2Q lo + B2Q b <= B2Q a)%Q ->
  ((1 - u32) * (B2Q a - B2Q b) <= B2Q (F32.sub a b) /\
   B2Q (F32.sub a b) <= (1 + u32) * (B2Q a - B2Q b))%Q.
Proof.
  intros Ha Hb Hlo Hea Hl.
  destruct (sub_raw a b lo _ _ _ _ _ _ Ha Hb Hlo Hl)
    as (mz & ez & Hs & P & L & U & V).
  destruct (binary_round_aux_normal F32.prec F32.emax eq_refl (Zpos mz) ez loc_Exact
              eq_refl P L ltac:(unfold F32.prec, F32.emax in *; lia))
    as (m & e & Hn & _ & He & Herr1 & Herr2 & _).
  rewrite Hs.
  apply (rel_err (Zpos mz) (Zpos m * 2 ^ (e - ez)) (2 ^ ez)); trivial.
  - apply two_pow_pos.
  - now rewrite V.
  - rewrite (B2Q_normal _ _ _ Hn). symmetry. apply inject_scaled. lia.
Qed.

(** X17.  Every bar stands on the bottom edge of the window: on rates within
    the bounds, the top [y] plus the height differs from [height] = 1200 by
    less than 2^-13, one unit in the last place of 1200. *)
Theorem bars_stand_on_bottom (conns : list Connection) (i : nat) (g : BarGeometry) :
  Forall (fun c => F32.valid (getRate c) = true /\ in_range (getRate c)) conns ->
  nth_error (layout conns) i = Some g ->
  (inject_Z height - (1 # 8192) < B2Q (g_y g) + B2Q (g_height g) /\
   B2Q (g_y g) + B2Q (g_height g) < inject_Z height + (1 # 8192))%Q.
Proof.
  intros Hall Hg.
  destruct (layout_rates conns i g Hall Hg)
    as (r & maxT & [Vr Rr] & [Vm Rm] & Hle & Hh & Hy).
  destruct (height_val r maxT Vr Rr Vm Rm Hle) as (mh & eh & Hnh & Hh1 & Hh2).
  rewrite Hy, Hh.
  set (h := F32.mul (F32.div r maxT) (F32.of_Z (height - 100))) in *.
  assert (N1200 : normal_pos F32.prec F32.emax (F32.of_Z height) 9830400 (-13))
    by (repeat split).
  assert (N100 : normal_pos F32.prec F32.emax (F32.of_Z 100) 13107200 (-17))
    by (repeat split).
  assert (V1200 : (B2Q (F32.of_Z height) == 1200)%Q) by reflexivity.
  assert (V100 : (B2Q (F32.of_Z 100) == 100)%Q) by reflexivity.
  destruct (sub_val (F32.of_Z height) h (F32.of_Z 100) _ _ _ _ _ _
              N1200 Hnh N100 ltac:(lia)) as [Hy1 Hy2];
    [rewrite V100, V1200; lra|].
  rewrite V1200 in Hy1, Hy2.
  change (inject_Z height) with 1200%Q. unfold u32 in *. split; lra.
Qed.

Lemma bars_stand_on_bottom_witness :
  Forall (fun c => F32.valid (getRate c) = true /\ in_range (getRate c))
         snapshot_mixed /\
  nth_error (layout snapshot_mixed) 1 =
    Some (barGeometry (maxTransfer snapshot_mixed) (barWidth_of 3) 1
            {| id := "Conn-2"; transferRate := F32.of_Z 3333 |}) /\
  (inject_Z height - (1 # 8192)
   < B2Q (F32.sub (F32.of_Z height)
                  (F32.mul (F32.div (F32.of_Z 3333) (F32.of_Z 5000))
                           (F32.of_Z (height - 100))))
     + B2Q (F32.mul (F32.div (F32.of_Z 3333) (F32.of_Z 5000))
                    (F32.of_Z (height - 100))))%Q.
Proof.
  assert (H : Forall (fun c => F32.valid (getRate c) = true /\ in_range (getRate c))
                     snapshot_mixed)
    by (repeat constructor).
  split; [exact H|]. split; [reflexivity|].
  exact (proj1 (bars_stand_on_bottom snapshot_mixed 1 _ H eq_refl)).
Defined.

(** A positive multiple of [2 ^ e] with fewer than 2^24 units is the value
    of a positive normal number. *)
Lemma grid_normal (D e : Z) :
  0 < D < 2 ^ F32.prec -> -125 <= e <= 104 ->
  exists (w : float) (mw : positive) (ew : Z),
    normal_pos F32.prec F32.emax w mw ew /\ ew <= e /\
    (B2Q w == inject_Z D * 2 ^ e)%Q.
Proof.
  intros [HD0 HD] He.
  assert (Hdd : 0 < Zdigits2 D <= F32.prec).
  { split; [destruct D; simpl; lia|]. apply Zdigits2_le; [unfold F32.prec|]; lia. }
  set (dd := Zdigits2 D) in *.
  set (P := D * 2 ^ (F32.prec - dd)).
  assert (HP : 0 < P) by (pose proof (pow2_pos (F32.prec - dd)); unfold P; nia).
  assert (Hid : Zpos (Z.to_pos P) = P) by now apply Z2Pos.id.
  exists (S754_finite false (Z.to_pos P) (e - (F32.prec - dd))),
         (Z.to_pos P), (e - (F32.prec - dd)).
  split; [|split; [lia|]].
  - assert (Hd : Zdigits2 (Zpos (Z.to_pos P)) = F32.prec).
    { rewrite Hid. unfold P. rewrite Zdigits2_shift by lia. fold dd. lia. }
    split; [reflexivity|]. split; [|exact Hd].
    apply (canonical_iff F32.prec F32.emax). rewrite Hd, emin32.
    unfold F32.prec in *. lia.
  - cbn [B2Q cond_Zopp]. rewrite Hid. unfold P.
    replace (F32.prec - dd) with (e - (e - (F32.prec - dd))) at 1 by lia.
    apply inject_scaled. lia.
Qed.

(** X18.  The label is anchored exactly 20 above the top of its bar: on
    rates within the bounds the subtraction [y - 20] does not round. *)
Theorem label_offset_exact (conns : list Connection) (i : nat) (g : BarGeometry) :
  Forall (fun c => F32.valid (getRate c) = true /\ in_range (getRate c)) conns ->
  nth_error (layout conns) i = Some g ->
  (B2Q (F32.sub (g_y g) (F32.of_Z 20)) == B2Q (g_y g) - 20)%Q.
Proof.
  intros Hall Hg.
  destruct (layout_rates conns i g Hall Hg)
    as (r & maxT & [Vr Rr] & [Vm Rm] & Hle & Hh & Hy).
  destruct (height_val r maxT Vr Rr Vm Rm Hle) as (mh & eh & Hnh & Hh1 & Hh2).
  rewrite Hy, Hh.
  set (h := F32.mul (F32.div r maxT) (F32.of_Z (height - 100))) in *.
  assert (N1200 : normal_pos F32.prec F32.emax (F32.of_Z height) 9830400 (-13))
    by (repeat split).
  assert (N100 : normal_pos F32.prec F32.emax (F32.of_Z 100) 13107200 (-17))
    by (repeat split).
  assert (N980 : normal_pos F32.prec F32.emax (F32.of_Z 980) 16056320 (-14))
    by (repeat split).
  assert (N20 : normal_pos F32.prec F32.emax (F32.of_Z 20) 10485760 (-19))
    by (repeat split).
  assert (V1200 : (B2Q (F32.of_Z height) == 1200)%Q) by reflexivity.
  assert (V100 : (B2Q (F32.of_Z 100) == 100)%Q) by reflexivity.
  assert (V980 : (B2Q (F32.of_Z 980) == 980)%Q) by reflexivity.
  assert (V20 : (B2Q (F32.of_Z 20) == 20)%Q) by reflexivity.
  destruct (sub_between (F32.of_Z height) h (F32.of_Z 100) (F32.of_Z 980)
              _ _ _ _ _ _ _ _ N1200 Hnh N100 N980 ltac:(lia))
    as (my & ey & Hny & _ & _ & Hy3 & Hy4);
    [rewrite V100, V1200; lra | rewrite V1200, V980; lra |].
  set (y := F32.sub (F32.of_Z height) h) in *.
  (* the exponent of y *)
  assert (Hey : -17 <= ey <= -14).
  { destruct (val_le_lex _ _ _ _ _ _ N100 Hny Hy3);
      destruct (val_le_lex _ _ _ _ _ _ Hny N980 Hy4); lia. }
  destruct (normal_pos_bounds F32.prec F32.emax _ _ _ Hny) as [[_ Hmy] _].
  pose proof (B2Q_normal _ _ _ Hny) as Vy.
  (* y - 20 counted in units of the last place of y *)
  assert (H20 : (inject_Z (20 * 2 ^ (0 - ey)) * 2 ^ ey == 20)%Q).
  { rewrite (inject_scaled 20 0 ey) by lia. reflexivity. }
  assert (HD : 20 * 2 ^ (0 - ey) < Zpos my).
  { assert (H100 : (inject_Z 100 * 2 ^ 0 <= inject_Z (Zpos my) * 2 ^ ey)%Q).
    { rewrite <- Vy. setoid_replace (inject_Z 100 * 2 ^ 0)%Q with 100%Q by reflexivity.
      rewrite <- V100. exact Hy3. }
    pose proof (scaled_le 100 0 (Zpos my) ey ey ltac:(lia) (Z.le_refl ey) H100) as Hz.
    rewrite Z.sub_diag, Z.pow_0_r, Z.mul_1_r in Hz.
    pose proof (pow2_pos (0 - ey) ltac:(lia)). lia. }
  destruct (grid_normal (Zpos my - 20 * 2 ^ (0 - ey)) ey)
    as (w & mw & ew & Hnw & Hew & Vw); [lia | lia |].
  assert (Vw' : (B2Q w == B2Q y - 20)%Q).
  { rewrite Vw, Vy. unfold Z.sub at 1. rewrite inject_Z_plus, inject_Z_opp.
    rewrite <- H20. ring. }
  destruct (sub_between y (F32.of_Z 20) w w _ _ _ _ _ _ _ _ Hny N20 Hnw Hnw
              ltac:(lia))
    as (ml & el & _ & _ & _ & Hl1 & Hl2);
    [rewrite Vw', V20; lra | rewrite Vw', V20; lra |].
  lra.
Qed.

Lemma label_offset_exact_witness :
  Forall (fun c => F32.valid (getRate c) = true /\ in_range (getRate c))
         snapshot_mixed /\
  nth_error (layout snapshot_mixed) 1 =
    Some (barGeometry (maxTransfer snapshot_mixed) (barWidth_of 3) 1
            {| id := "Conn-2"; transferRate := F32.of_Z 3333 |}) /\
  (B2Q (F32.sub (F32.sub (F32.of_Z height)
                         (F32.mul (F32.div (F32.of_Z 3333) (F32.of_Z 5000))
                                  (F32.of_Z (height - 100))))
                (F32.of_Z 20))
   == B2Q (F32.sub (F32.of_Z height)
                   (F32.mul (F32.div (F32.of_Z 3333) (F32.of_Z 5000))
                            (F32.of_Z (height - 100)))) - 20)%Q.
Proof.
  assert (H : Forall (fun c => F32.valid (getRate c) = true /\ in_range (getRate c))
                     snapshot_mixed)
    by (repeat constructor).
  split; [exact H|]. split; [reflexivity|].
  exact (label_offset_exact snapshot_mixed 1 _ H eq_refl).
Defined.
